(** * A shallow embedding of the Destiny reactive core bundled in the userscript

    The development follows the reactive UI engine of the bundle:
    - [JS]: the fragment of JavaScript values and array built-ins the engine
      relies on (strict equality, SameValueZero, [Array.prototype.splice],
      [Array.prototype.slice], indexed reads);
    - [ReactivePrimitive]: the single-value observable cell;
    - [Render]: [stringifyValue] and [valueToFragment];
    - [ReactiveArray]: the observable list, its index handles, and the derived
      views [filter] and [slice];
    - [Slot]: the DOM region that is replaced when a bound value changes;
    - [Methods]: the methods of the observable list that are built on
      [splice], and the derived view [map];
    - [Derived]: cells made by [pipe], which follow their source through
      microtasks;
    - [Names], [Ids], [Weeks]: the conversions of component and attribute
      names, the session ids, and the week flag the application keeps in
      [localStorage].

    Callbacks are opaque: a callback is identified by a number, and calling it
    is recorded (synchronous calls in a log, deferred calls as queued tasks).
    What a callback does when it runs is outside the engine. *)

From Stdlib Require Import ZArith List Bool Lia.
From stdpp Require Import base decidable option list gmap strings.

Local Open Scope Z_scope.

(* ===================================================================== *)
(** ** JavaScript values and built-ins *)
(* ===================================================================== *)

Module JS.

(** Numbers are restricted to the integers and [NaN]; this is enough for
    positions, counts and the one value that is not strictly equal to
    itself. *)
Inductive number : Type :=
| NaN
| Int (z : Z).

(** Objects and functions are compared by identity, so each is represented
    by its reference; [Object] are the values whose [typeof] is
    ["object"] (other than [null]), [Function] those whose [typeof] is
    ["function"]. *)
Inductive value : Type :=
| Undefined
| Null
| Boolean (b : bool)
| Number (n : number)
| Str (s : string)
| Object (ref : nat)
| Function (ref : nat).

(** The number with integer value [z]. *)
Definition num (z : Z) : value := Number (Int z).

(** [x === y] *)
Definition strict_equals (x y : value) : bool :=
  match x, y with
  | Undefined, Undefined => true
  | Null, Null => true
  | Boolean a, Boolean b => Bool.eqb a b
  | Number (Int a), Number (Int b) => Z.eqb a b
  | Number _, Number _ => false
  | Str a, Str b => String.eqb a b
  | Object a, Object b => Nat.eqb a b
  | Function a, Function b => Nat.eqb a b
  | _, _ => false
  end.

(** SameValueZero, the comparison of [Set.prototype.has] and
    [Array.prototype.includes]: as [===], except that [NaN] equals [NaN]. *)
Definition same_value_zero (x y : value) : bool :=
  match x, y with
  | Number NaN, Number NaN => true
  | _, _ => strict_equals x y
  end.

(** [s.has(v)] for a [Set] given by its elements. *)
Definition Set_has (s : list value) (v : value) : bool :=
  existsb (same_value_zero v) s.

Inductive Error : Type :=
| RangeError
| TypeError.

(** How a call ends: it returns a value or throws. The state reached is
    kept beside the outcome, since a throw does not undo earlier writes. *)
Inductive Outcome (A : Type) : Type :=
| Returns (a : A)
| Throws (e : Error).
Arguments Returns {A} a.
Arguments Throws {A} e.

Section Arrays.
Context {A : Type}.

Definition len (l : list A) : Z := Z.of_nat (length l).

(** [l[i]]: [undefined] (here [None]) outside [0 .. length-1]; a negative
    index is an absent property, not a position from the end. *)
Definition index (l : list A) (i : Z) : option A :=
  if i <? 0 then None else l !! Z.to_nat i.

(** Clamping of a relative position, as in the ECMAScript definitions of
    [splice] and [slice]. *)
Definition relative (n : Z) (pos : Z) : Z :=
  if pos <? 0 then Z.max (n + pos) 0 else Z.min pos n.

(** [l.splice(start, deleteCount, ...items)]: the array afterwards and
    the array of deleted elements that the call returns. *)
Definition splice (l : list A) (start deleteCount : Z) (items : list A)
  : list A * list A :=
  let actualStart := relative (len l) start in
  let actualDeleteCount :=
    Z.min (Z.max deleteCount 0) (len l - actualStart) in
  let s := Z.to_nat actualStart in
  let d := Z.to_nat actualDeleteCount in
  (take s l ++ items ++ drop (s + d) l, take d (drop s l)).

(** The position at which [splice] starts and the number of elements it
    deletes, after clamping. *)
Definition actual_start (l : list A) (start : Z) : nat :=
  Z.to_nat (relative (len l) start).

Definition actual_count (l : list A) (start deleteCount : Z) : nat :=
  Z.to_nat (Z.min (Z.max deleteCount 0) (len l - relative (len l) start)).

(** [l.slice(start, end)] *)
Definition slice (l : list A) (start end_ : Z) : list A :=
  let k := relative (len l) start in
  let final := relative (len l) end_ in
  take (Z.to_nat (Z.max (final - k) 0)) (drop (Z.to_nat k) l).
End Arrays.

End JS.

(** Callbacks are function objects; two callbacks are the same when they are
    the same object. *)
Definition Callback : Type := nat.

(** [callbacks.includes(cb)] *)
Definition includes (l : list Callback) (cb : Callback) : bool :=
  existsb (Nat.eqb cb) l.

(** A JavaScript [Set] of callbacks is kept as the list of its members in
    insertion order; [Set_add] is [Set.prototype.add]. *)
Definition Set_add (cb : Callback) (s : list Callback) : list Callback :=
  if includes s cb then s else s ++ [cb].

(** [!==] and [===] on the values a cell holds. *)
Class StrictEq (T : Type) := strict_eq : T → T → bool.

#[export] Instance value_StrictEq : StrictEq JS.value := JS.strict_equals.
#[export] Instance Z_StrictEq : StrictEq Z := Z.eqb.

(* ===================================================================== *)
(** ** ReactivePrimitive *)
(* ===================================================================== *)

Module ReactivePrimitive.

Section Cell.
Context {T : Type} `{StrictEq T}.

(** The private fields [#value] and [#callbacks]. *)
Record t : Type := make {
  value : T;
  callbacks : list Callback;
}.

(** One synchronous call [cb(v)]. *)
Definition Call : Type := Callback * T.

(** [new ReactivePrimitive(initialValue)] *)
Definition new (initialValue : T) : t :=
  {| value := initialValue; callbacks := [] |}.

(** [bind(callback, noFirstCall = false)] *)
Definition bind (c : t) (callback : Callback) (noFirstCall : bool)
  : t * list Call :=
  ({| value := value c; callbacks := Set_add callback (callbacks c) |},
   if negb noFirstCall then [(callback, value c)] else []).

(** [set(value, ...noUpdate)] *)
Definition set (c : t) (v : T) (noUpdate : list Callback) : t * list Call :=
  if negb (strict_eq v (value c)) then
    ({| value := v; callbacks := callbacks c |},
     map (λ cb, (cb, v))
         (List.filter (λ cb, negb (includes noUpdate cb)) (callbacks c)))
  else (c, []).

(** [update()] *)
Definition update (c : t) : t * list Call :=
  set c (value c) [].

(** The calls made to one subscriber, in order. *)
Definition calls_to (cb : Callback) (log : list Call) : list Call :=
  List.filter (λ e, Nat.eqb (fst e) cb) log.

(** [c.set(x); c.set(x)] with the calls of both. *)
Definition set_twice (c : t) (x : T) : t * list Call :=
  let '(c1, log1) := set c x [] in
  let '(c2, log2) := set c1 x [] in
  (c2, log1 ++ log2).
End Cell.

Arguments t T : clear implicits.

End ReactivePrimitive.

(* ===================================================================== *)
(** ** Rendering of interpolated values *)
(* ===================================================================== *)

Module Render.
Import JS.

Definition nonRenderedValues : list value :=
  [Undefined; Null; Boolean true; Boolean false].

Definition shouldBeRendered (input : value) : bool :=
  negb (Set_has nonRenderedValues input).

(** DOM nodes, as far as rendering a value needs them. *)
Inductive Node : Type :=
| Text (data : string)
| Element (id : nat).

(** What can be interpolated into content, by the tests [valueToFragment]
    makes: a template result (with the nodes its [content] getter yields),
    a document fragment, a node, an array, or anything else. *)
#[warnings="-register-all"]
Inductive Interpolated : Type :=
| TemplateResult (content : list Node)
| DocumentFragment (childNodes : list Node)
| ANode (node : Node)
| Array (values : list Interpolated)
| Plain (v : value).

Section Stringify.
(** The built-in conversion [String(input)]. *)
Variable String_ : value → string.

Definition stringifyValue (input : value) : string :=
  if shouldBeRendered input then String_ input else EmptyString.

(** [shouldBeRendered] applied to an array element; only plain values
    can be in [nonRenderedValues]. *)
Definition shouldBeRendered_item (x : Interpolated) : bool :=
  match x with
  | Plain v => shouldBeRendered v
  | _ => true
  end.

Definition nodeToFragment (node : Node) : list Node := [node].

(** [valueToFragment], with [arrayToFragment] as its inner loop; a
    fragment is the list of its child nodes. *)
Fixpoint valueToFragment (x : Interpolated) : list Node :=
  match x with
  | TemplateResult content => content
  | DocumentFragment childNodes => childNodes
  | ANode node => nodeToFragment node
  | Array values =>
      (fix arrayToFragment (vs : list Interpolated) : list Node :=
         match vs with
         | [] => []
         | v :: rest =>
             if shouldBeRendered_item v
             then valueToFragment v ++ arrayToFragment rest
             else arrayToFragment rest
         end) values
  | Plain v => nodeToFragment (Text (stringifyValue v))
  end.
End Stringify.

(** Values built from plain values and arrays only. Rendering them makes
    a new text node for each plain value, so that no node is appended
    twice; a node that is appended a second time moves, which the lists
    of [valueToFragment] do not show. *)
Fixpoint plain_only (x : Interpolated) : bool :=
  match x with
  | Plain _ => true
  | Array values =>
      (fix all_plain (vs : list Interpolated) : bool :=
         match vs with
         | [] => true
         | v :: rest => plain_only v && all_plain rest
         end) values
  | _ => false
  end.

End Render.

(* ===================================================================== *)
(** ** ReactiveArray *)
(* ===================================================================== *)

Module ReactiveArray.

(** Addresses of index handles in the store. *)
Abbreviation addr := nat (only parsing).

(** *** Deep reactivity of inserted items

    [makeNonPrimitiveItemsReactive] consults [isReactive], [isObject] and
    [isSpecialCaseObject] and converts the remaining objects with
    [reactive]. On primitives these tests are decided by [typeof]; what
    they answer on an object, and the object [reactive] returns for it,
    belong to the deep-reactivity component and are an interface here.

    The interface gives the value of a conversion that returns. A
    conversion can also throw, and it notifies the array it converts for;
    [splice_converting] below takes both into account. Where a property of
    a method written with [splice] depends on that, it is stated for items
    that [makeNonPrimitiveItemsReactive] leaves as they are
    ([settled_items]): primitives, reactive values, functions and the other
    special cases, and objects converted before. On those nothing is
    converted. *)
Class DeepReactivity : Type := {
  is_reactive_object : nat → bool;
  is_special_case_object : nat → bool;
  reactive_object : nat → JS.value;
}.

Section Array.
Context `{DeepReactivity}.

(** [!!input && typeof input === "object"] *)
Definition isObject (input : JS.value) : bool :=
  match input with
  | JS.Object _ => true
  | _ => false
  end.

Definition isReactive (input : JS.value) : bool :=
  match input with
  | JS.Object r => is_reactive_object r
  | _ => false
  end.

Definition isSpecialCaseObject (input : JS.value) : bool :=
  match input with
  | JS.Function _ => true
  | JS.Object r => is_special_case_object r
  | _ => false
  end.

(** The value that [reactive(v, {parent})] returns, on the inputs that
    reach it from [makeNonPrimitiveItemsReactive], when it returns. *)
Definition reactive (v : JS.value) : JS.value :=
  match v with
  | JS.Object r => reactive_object r
  | _ => v
  end.

Definition makeItemReactive (v : JS.value) : JS.value :=
  if isReactive v || negb (isObject v) || isSpecialCaseObject v
  then v
  else reactive v.

Definition makeNonPrimitiveItemsReactive (items : list JS.value)
  : list JS.value :=
  map makeItemReactive items.

(** *** The store of index handles

    An index handle is a [ReactivePrimitive<number>] object that the
    array, the callbacks of [map] and the callers of [indexOf] share, and
    that outlives its removal from the array. Handles therefore live in a
    store and are named by their address, a number ([addr]). *)

Record Store : Type := mkStore {
  cells : gmap addr (ReactivePrimitive.t Z);
  next : addr;
  (** calls made to the subscribers of handles: handle, callback, value *)
  notified : list (addr * Callback * Z);
}.

Definition empty_store : Store :=
  {| cells := ∅; next := O; notified := [] |}.

(** [new ReactivePrimitive(v)] *)
Definition alloc (σ : Store) (v : Z) : addr * Store :=
  (next σ,
   {| cells := <[next σ := ReactivePrimitive.new v]> (cells σ);
      next := S (next σ);
      notified := notified σ |}).

(** The value of the handle at [a]. *)
Definition read (σ : Store) (a : addr) : option Z :=
  ReactivePrimitive.value <$> cells σ !! a.

(** [handle.value = v], which is [handle.set(v)]. An address that names
    no handle cannot arise; the store is then left as it is. *)
Definition assign (σ : Store) (a : addr) (v : Z) : Store :=
  match cells σ !! a with
  | Some c =>
      let '(c', log) := ReactivePrimitive.set c v [] in
      {| cells := <[a := c']> (cells σ);
         next := next σ;
         notified := notified σ ++ map (λ e, (a, fst e, snd e)) log |}
  | None => σ
  end.

(** [handle.value += k] *)
Definition add_assign (σ : Store) (a : addr) (k : Z) : Store :=
  match cells σ !! a with
  | Some c => assign σ a (ReactivePrimitive.value c + k)
  | None => σ
  end.

(** *** The array *)

(** The private fields [#value], [#indices] and [#callbacks]. The derived
    cell [#length] is represented by its subscription only. *)
Record t : Type := make {
  value : list JS.value;
  indices : list addr;
  callbacks : list Callback;
}.

(** The arguments [(start, deleteCount, ...items)] a listener receives. *)
Record Update : Type := mkUpdate {
  u_start : Z;
  u_deleteCount : Z;
  u_items : list JS.value;
}.

(** A call of a listener, synchronous (from [bind]) or queued as a
    microtask (from [_dispatchUpdateEvents]). *)
Definition Task : Type := Callback * Update.

(** The closure that [ReactivePrimitive.from] binds to the array to
    refresh [#length]. *)
Definition lengthWatcher : Callback := O.

(** [items.map((_, i) => new ReactivePrimitive(i + start))], from
    position [i] on. *)
Fixpoint new_handles (items : list JS.value) (i start : Z) (σ : Store)
  : list addr * Store :=
  match items with
  | [] => ([], σ)
  | _ :: rest =>
      let '(a, σ1) := alloc σ (i + start) in
      let '(others, σ2) := new_handles rest (i + 1) start σ1 in
      (a :: others, σ2)
  end.

(** [new ReactiveArray(...input)] *)
Definition new (input : list JS.value) (σ : Store) : t * Store :=
  let '(handles, σ1) := new_handles input 0 0 σ in
  ({| value := makeNonPrimitiveItemsReactive input;
      indices := handles;
      callbacks := Set_add lengthWatcher [] |}, σ1).

(** [get value()] returns a copy of [#value]. *)
Definition get_value (a : t) : list JS.value := JS.slice (value a) 0 (JS.len (value a)).

(** [bind(callback, noFirstRun = false)]: the array with the listener
    registered and the synchronous first call, if any. *)
Definition bind (a : t) (callback : Callback) (noFirstRun : bool)
  : t * list Task :=
  ({| value := value a; indices := indices a;
      callbacks := Set_add callback (callbacks a) |},
   if negb noFirstRun
   then [(callback, {| u_start := 0; u_deleteCount := 0; u_items := value a |})]
   else []).

(** [_dispatchUpdateEvents(start, deleteCount, newItems)]: one microtask
    per listener, in the order of the set. *)
Definition _dispatchUpdateEvents (a : t) (start deleteCount : Z)
  (newItems : list JS.value) : list Task :=
  map (λ callback,
         (callback, {| u_start := start; u_deleteCount := deleteCount;
                       u_items := newItems |}))
      (callbacks a).

(** The loop of [_adjustIndices]:
    [for (let i = ...; i < this.#indices.length; i++)
       this.#indices[i].value += shiftedBy].
    Reading [.value] of an absent element throws a [TypeError]. The fuel
    is the number of iterations the loop can make. *)
Fixpoint shift_from (fuel : nat) (idx : list addr) (i shiftedBy : Z)
  (σ : Store) : Store * JS.Outcome unit :=
  match fuel with
  | O => (σ, JS.Returns tt)
  | S fuel' =>
      if i <? JS.len idx then
        match JS.index idx i with
        | None => (σ, JS.Throws JS.TypeError)
        | Some a => shift_from fuel' idx (i + 1) shiftedBy (add_assign σ a shiftedBy)
        end
      else (σ, JS.Returns tt)
  end.

(** [_adjustIndices(start, deleteCount, items)] *)
Definition _adjustIndices (a : t) (σ : Store) (start deleteCount : Z)
  (items : list JS.value) : t * Store * JS.Outcome unit :=
  let shiftedBy := JS.len items - deleteCount in
  let '(σ1, o) :=
    if shiftedBy =? 0 then (σ, JS.Returns tt)
    else shift_from (Z.to_nat (JS.len (indices a) - (start + deleteCount)))
                    (indices a) (start + deleteCount) shiftedBy σ in
  match o with
  | JS.Throws e => (a, σ1, JS.Throws e)
  | JS.Returns _ =>
      let '(fresh, σ2) := new_handles items 0 start σ1 in
      let '(indices', removedIndices) :=
        JS.splice (indices a) start deleteCount fresh in
      let σ3 := fold_left (λ σ removedIndex, assign σ removedIndex (-1))
                          removedIndices σ2 in
      ({| value := value a; indices := indices'; callbacks := callbacks a |},
       σ3, JS.Returns tt)
  end.

(** [splice(start, deleteCount = this.#value.length - start, ...items)]:
    the array and the store afterwards, and either the deleted items
    with the queued notifications, or the error thrown. *)
Definition splice (a : t) (σ : Store) (start : Z) (deleteCount : option Z)
  (items : list JS.value)
  : t * Store * JS.Outcome (list JS.value * list Task) :=
  let deleteCount := default (JS.len (value a) - start) deleteCount in
  if start >? JS.len (value a) then (a, σ, JS.Throws JS.RangeError)
  else
    match _adjustIndices a σ start deleteCount items with
    | (a1, σ1, JS.Throws e) => (a1, σ1, JS.Throws e)
    | (a1, σ1, JS.Returns _) =>
        let reactiveItems := makeNonPrimitiveItemsReactive items in
        let '(value', deletedItems) :=
          JS.splice (value a1) start deleteCount reactiveItems in
        let a2 := {| value := value'; indices := indices a1;
                     callbacks := callbacks a1 |} in
        (a2, σ1,
         JS.Returns (deletedItems,
                     _dispatchUpdateEvents a2 start deleteCount reactiveItems))
    end.

(** [pop()] is [this.splice(-1, 1)[0]]. *)
Definition pop (a : t) (σ : Store)
  : t * Store * JS.Outcome (option JS.value * list Task) :=
  match splice a σ (-1) (Some 1) [] with
  | (a', σ', JS.Returns (deleted, tasks)) =>
      (a', σ', JS.Returns (JS.index deleted 0, tasks))
  | (a', σ', JS.Throws e) => (a', σ', JS.Throws e)
  end.

(** [push(...items)] is [this.splice(this.#value.length, 0, ...items)]. *)
Definition push (a : t) (σ : Store) (items : list JS.value) :=
  splice a σ (JS.len (value a)) (Some 0) items.

(** [unshift(...items)] is [this.splice(0, 0, ...items)]. *)
Definition unshift (a : t) (σ : Store) (items : list JS.value) :=
  splice a σ 0 (Some 0) items.

(** *** [splice] with any run of the conversion

    [makeNonPrimitiveItemsReactive(items, this)] hands every object that is
    not reactive yet to [reactive(v, {parent: this})]. That call binds
    [() => parent.update()] to each cell it creates for the parent, and
    [bind] calls it at once: [this.update()], which is
    [this._dispatchUpdateEvents(0, 0)], runs once per cell. The call also
    throws, a [TypeError] when [reactiveObject] defines properties on a
    plain object that is not extensible. A run of the conversion is
    described by the number of calls of [update] it makes and by how it
    ends: with the converted items, or with an error. *)
Record Conversion : Type := mkConversion {
  parent_updates : nat;
  converted : JS.Outcome (list JS.value);
}.

(** The notifications that [n] calls of [update()] queue: each call queues
    [(0, 0)] for every listener. *)
Definition forced_updates (a : t) (n : nat) : list Task :=
  concat (replicate n (_dispatchUpdateEvents a 0 0 [])).

(** [splice(start, deleteCount, ...items)] when the conversion of the items
    runs as [conversion] says: the array and the store afterwards, the
    notifications queued, and the deleted items or the error thrown. The
    conversion runs after [_adjustIndices] and before [#value] is
    touched. *)
Definition splice_converting (conversion : Conversion) (a : t) (σ : Store)
  (start : Z) (deleteCount : option Z) (items : list JS.value)
  : t * Store * list Task * JS.Outcome (list JS.value) :=
  let deleteCount := default (JS.len (value a) - start) deleteCount in
  if start >? JS.len (value a) then (a, σ, [], JS.Throws JS.RangeError)
  else
    match _adjustIndices a σ start deleteCount items with
    | (a1, σ1, JS.Throws e) => (a1, σ1, [], JS.Throws e)
    | (a1, σ1, JS.Returns _) =>
        let queued := forced_updates a1 (parent_updates conversion) in
        match converted conversion with
        | JS.Throws e => (a1, σ1, queued, JS.Throws e)
        | JS.Returns reactiveItems =>
            let '(value', deletedItems) :=
              JS.splice (value a1) start deleteCount reactiveItems in
            let a2 := {| value := value'; indices := indices a1;
                         callbacks := callbacks a1 |} in
            (a2, σ1,
             queued ++ _dispatchUpdateEvents a2 start deleteCount reactiveItems,
             JS.Returns deletedItems)
        end
    end.

(** Every handle of the store was allocated, below [next]. *)
Definition store_wf (σ : Store) : Prop := ∀ a, is_Some (read σ a) → (a < next σ)%nat.

(** [handle.value += k] on each handle of a list. *)
Definition shift_all (k : Z) (l : list addr) (σ : Store) : Store :=
  fold_left (λ σ a, add_assign σ a k) l σ.

(** [handle.value = -1] on each handle of a list. *)
Definition detach_all (l : list addr) (σ : Store) : Store :=
  fold_left (λ σ r, assign σ r (-1)) l σ.

(** *** What the index handles are meant to satisfy

    One handle per item, no handle used twice, and the handle at position
    [i] holds [i]. *)
Definition handles_ok (a : t) (σ : Store) : Prop :=
  length (indices a) = length (value a) ∧
  NoDup (indices a) ∧
  (∀ (i : nat) (h : addr), indices a !! i = Some h → read σ h = Some (Z.of_nat i)) ∧
  store_wf σ.

(** A call [splice(start, deleteCount, ...items)]. *)
Record Call : Type := mkCall {
  c_start : Z;
  c_deleteCount : option Z;
  c_items : list JS.value;
}.

(** The call addresses existing positions: [start] is a position of the
    array or its end, and the count is not negative. *)
Definition in_range (a : t) (c : Call) : Prop :=
  0 ≤ c_start c ≤ JS.len (value a) ∧
  0 ≤ default (JS.len (value a) - c_start c) (c_deleteCount c).

(** The handles that a call removes from [#indices]. *)
Definition removed_handles (a : t) (c : Call) : list addr :=
  snd (JS.splice (indices a) (c_start c)
                 (default (JS.len (value a) - c_start c) (c_deleteCount c)) []).

(** The states reached from [(a0, σ0)] by calls in range that return, with
    the handles removed on the way. *)
Inductive reached (a0 : t) (σ0 : Store) : t → Store → list addr → Prop :=
| reached_start : reached a0 σ0 a0 σ0 []
| reached_splice a σ detached c a' σ' r :
    reached a0 σ0 a σ detached →
    in_range a c →
    splice a σ (c_start c) (c_deleteCount c) (c_items c) = (a', σ', JS.Returns r) →
    reached a0 σ0 a' σ' (detached ++ removed_handles a c).

(** *** [filter]

    [filter(callback, dependencies = [])] with no dependencies. The
    derived array and the mask live in the closure of the listener that
    [filter] binds to the source. *)
Record MaskEntry : Type := mkMask {
  index : Z;
  show : bool;
}.

Record Filtered : Type := mkFiltered {
  maskArray : list MaskEntry;
  filteredArray : t;
}.

Section Filter.
(** The predicate, called as [callback(item, sourceIndex, this.#value)];
    its result is used for its truthiness. *)
Variable callback : JS.value → Z → list JS.value → bool.

(** [(lastInMask?.index ?? -1)] *)
Definition index_or_minus1 (lastInMask : option MaskEntry) : Z :=
  match lastInMask with
  | Some e => index e
  | None => -1
  end.

(** The loop [for (const [i, item] of items.entries())] of the
    listener, from entry [i] on; it carries [currentIndex], the mask
    and [newItems]. *)
Fixpoint insert_entries (this_value : list JS.value) (start : Z)
  (items : list JS.value) (i : Z)
  (currentIndex : Z) (mask : list MaskEntry) (newItems : list JS.value)
  : Z * list MaskEntry * list JS.value :=
  match items with
  | [] => (currentIndex, mask, newItems)
  | item :: rest =>
      let sourceIndex := start + i in
      let showThis := callback item sourceIndex this_value in
      let currentIndex := if showThis then currentIndex + 1 else currentIndex in
      let current := {| index := currentIndex; show := showThis |} in
      let mask := fst (JS.splice mask sourceIndex 0 [current]) in
      let newItems := if showThis then newItems ++ [item] else newItems in
      insert_entries this_value start rest (i + 1) currentIndex mask newItems
  end.

(** The loop
    [for (let i = start + items.length; i < maskArray.length; i++)
       maskArray[i].index += shiftTailBy]. *)
Fixpoint shift_tail (fuel : nat) (mask : list MaskEntry) (i shiftTailBy : Z)
  : list MaskEntry * JS.Outcome unit :=
  match fuel with
  | O => (mask, JS.Returns tt)
  | S fuel' =>
      if i <? JS.len mask then
        match JS.index mask i with
        | None => (mask, JS.Throws JS.TypeError)
        | Some e =>
            shift_tail fuel'
              (<[Z.to_nat i := {| index := index e + shiftTailBy; show := show e |}]> mask)
              (i + 1) shiftTailBy
        end
      else (mask, JS.Returns tt)
  end.

(** The listener [(start, deletes, ...items) => { ... }] bound by
    [filter]; [this_value] is the source's [#value] when it runs. It
    yields the notifications queued by the derived array. *)
Definition filter_listener (this_value : list JS.value) (f : Filtered)
  (σ : Store) (start deletes : Z) (items : list JS.value)
  : Filtered * Store * JS.Outcome (list Task) :=
  let lastInMask :=
    List.find show (rev (JS.slice (maskArray f) 0 start)) in
  let '(mask1, deletedMaskEntries) :=
    if deletes =? 0 then (maskArray f, [])
    else JS.splice (maskArray f) start deletes [] in
  let '(_, mask2, newItems) :=
    insert_entries this_value start items 0
                   (index_or_minus1 lastInMask) mask1 [] in
  let deletedItemCount := JS.len (List.filter show deletedMaskEntries) in
  let '(filtered1, σ1, o) :=
    if negb (JS.len newItems =? 0) || negb (deletedItemCount =? 0) then
      match splice (filteredArray f) σ (index_or_minus1 lastInMask + 1)
                   (Some deletedItemCount) newItems with
      | (a', σ', JS.Returns (_, tasks)) => (a', σ', JS.Returns tasks)
      | (a', σ', JS.Throws e) => (a', σ', JS.Throws e)
      end
    else (filteredArray f, σ, JS.Returns []) in
  match o with
  | JS.Throws e =>
      ({| maskArray := mask2; filteredArray := filtered1 |}, σ1, JS.Throws e)
  | JS.Returns tasks =>
      let shiftTailBy := JS.len newItems - deletedItemCount in
      let '(mask3, o') :=
        if shiftTailBy =? 0 then (mask2, JS.Returns tt)
        else shift_tail (Z.to_nat (JS.len mask2 - (start + JS.len items)))
                        mask2 (start + JS.len items) shiftTailBy in
      ({| maskArray := mask3; filteredArray := filtered1 |}, σ1,
       match o' with
       | JS.Returns _ => JS.Returns tasks
       | JS.Throws e => JS.Throws e
       end)
  end.

(** [filter(callback)]: the source with the listener [listener]
    registered, and the derived array after the listener's first,
    synchronous run on [(0, 0, ...this.#value)]. *)
Definition filter (a : t) (σ : Store) (listener : Callback)
  : t * Filtered * Store * JS.Outcome (list Task) :=
  let '(filteredArray0, σ0) := new [] σ in
  let maskArray0 := [] in
  let '(a', _) := bind a listener false in
  let '(f, σ1, o) :=
    filter_listener (value a') {| maskArray := maskArray0;
                                  filteredArray := filteredArray0 |}
                    σ0 0 0 (value a') in
  (a', f, σ1, o).

(** The microtask that [_dispatchUpdateEvents] queued for the listener
    of [filter], run when the source is [a]. *)
Definition run_filter_task (a : t) (f : Filtered) (σ : Store) (u : Update)
  : Filtered * Store * JS.Outcome (list Task) :=
  filter_listener (value a) f σ (u_start u) (u_deleteCount u) (u_items u).

(** The microtasks queued for the listener, run one after the other in the
    order of the queue; one that throws does not keep the next from
    running. *)
Definition run_filter_tasks (a : t) (f : Filtered) (σ : Store)
  (us : list Update) : Filtered * Store :=
  fold_left (λ s u, fst (run_filter_task a (fst s) (snd s) u)) us (f, σ).
End Filter.

(** The notifications queued for one listener, in the order of the queue. *)
Definition updates_for (listener : Callback) (tasks : list Task) : list Update :=
  map snd (List.filter (λ task, Nat.eqb (fst task) listener) tasks).

(** *** What the mask of [filter] is meant to be

    For source items [l] and a predicate [p] on items, the entry of an item
    records whether it passes and the position in the filtered array of the
    last item up to it that passes ([k] before the first item). *)
Fixpoint mask_from (p : JS.value → bool) (k : Z) (l : list JS.value)
  : list MaskEntry :=
  match l with
  | [] => []
  | x :: rest =>
      let k' := if p x then k + 1 else k in
      {| index := k'; show := p x |} :: mask_from p k' rest
  end.

(** The mask and the filtered array agree with the source items [src]. *)
Definition filter_ok (p : JS.value → bool) (src : list JS.value) (f : Filtered)
  : Prop :=
  maskArray f = mask_from p (-1) src ∧
  value (filteredArray f) = List.filter p src.

(** Items that [makeNonPrimitiveItemsReactive] leaves as they are. *)
Definition settled_items (l : list JS.value) : Prop :=
  Forall (λ x, makeItemReactive x = x) l.

(** *** [slice] *)

(** The listener [(index, deleteCount, ...values) => newArr.splice(...)]
    bound by [slice(start, end)]. *)
Definition slice_listener (start end_ : Z) (newArr : t) (σ : Store)
  (idx deleteCount : Z) (values : list JS.value)
  : t * Store * JS.Outcome (list JS.value * list Task) :=
  splice newArr σ (idx - start) (Some deleteCount)
         (JS.slice values 0 (end_ - start - idx)).

(** [slice(start = 0, end = this.#value.length - 1)]: the source with
    the listener registered, and the derived array when [slice] returns,
    that is after the first run that [bind] makes of the listener. *)
Definition slice (a : t) (σ : Store) (start end_ : option Z)
  (listener : Callback)
  : t * t * Store * JS.Outcome (list Task) :=
  let start := default 0 start in
  let end_ := default (JS.len (value a) - 1) end_ in
  let '(newArr, σ0) := new (JS.slice (value a) start end_) σ in
  let '(a', _) := bind a listener false in
  match slice_listener start end_ newArr σ0 0 0 (value a') with
  | (newArr', σ1, JS.Returns (_, tasks)) => (a', newArr', σ1, JS.Returns tasks)
  | (newArr', σ1, JS.Throws e) => (a', newArr', σ1, JS.Throws e)
  end.

(** Items that are primitives or already reactive: every object met is
    reported reactive, so nothing is converted. *)
Definition already_reactive : DeepReactivity :=
  {| is_reactive_object := λ _, true;
     is_special_case_object := λ _, false;
     reactive_object := λ r, JS.Object r |}.
End Array.

(** *** Arrays of numbers used as examples *)

(** The predicate "is even" on items. *)
Definition is_even (v : JS.value) : bool :=
  match v with
  | JS.Number (JS.Int z) => Z.even z
  | _ => false
  end.

(** [new ReactiveArray(1, 2, 3)] in an empty store. *)
Definition one_two_three : t * Store :=
  @new already_reactive (map JS.num [1; 2; 3]) empty_store.

(** [new ReactiveArray(1, 2, 3, 4, 5)] in an empty store. *)
Definition one_to_five : t * Store :=
  @new already_reactive (map JS.num [1; 2; 3; 4; 5]) empty_store.

(** A predicate that reads the position, not the item:
    [(_, i) => i % 2 === 0]. *)
Definition at_even_position (v : JS.value) (i : Z) (l : list JS.value) : bool :=
  Z.even i.

(** [new ReactiveArray(5, 10, 20)] in an empty store. *)
Definition five_ten_twenty : t * Store :=
  @new already_reactive (map JS.num [5; 10; 20]) empty_store.

End ReactiveArray.

(* ===================================================================== *)
(** ** Slot *)
(* ===================================================================== *)

Module Slot.

(** Nodes and promises are objects, named by their identity. *)
Definition node : Type := nat.
Definition promise : Type := nat.

(** What an exit callback registered in [deferredElements] returns when it
    is called: something that is not awaited, or a promise. *)
Inductive Returned : Type :=
| NotAwaitable
| Awaitable (p : promise).

(** The private fields [#startAnchor], [#endAnchor] and [#nodes]. *)
Record t : Type := make {
  startAnchor : node;
  endAnchor : node;
  nodes : list node;
}.

(** A call of [_disposeNodes] parked at [await Promise.all(...)]: the
    promises it waits for and the nodes it removes when it resumes. *)
Record Disposal : Type := mkDisposal {
  awaited : list promise;
  nodesToDisposeOf : list node;
}.

Record World : Type := mkWorld {
  (** the children of the anchors' parent, in document order *)
  dom : list node;
  slot : t;
  deferredElements : gmap node Returned;
  (** settled promises: [true] fulfilled, [false] rejected; a promise that
      is absent is pending *)
  settled : gmap promise bool;
  suspended : list Disposal;
  (** the nodes whose exit callback has been called, in order *)
  exited : list node;
}.

(** [anchor.before(...fragment)] on the child list of the parent: nodes of
    the fragment that are already children are moved. Without the anchor
    among the children nothing is inserted. *)
Fixpoint insert_before (anchor : node) (fragment children : list node)
  : list node :=
  match children with
  | [] => []
  | c :: rest =>
      if Nat.eqb c anchor then fragment ++ c :: rest
      else c :: insert_before anchor fragment rest
  end.

Definition before (anchor : node) (fragment children : list node) : list node :=
  if bool_decide (anchor ∈ children) then
    insert_before anchor fragment
      (List.filter (λ c, negb (bool_decide (c ∈ fragment))) children)
  else children.

(** [deferredElements.get(node)?.(node)] for each node, keeping the
    promises among the results: what [Promise.all] has to wait for. *)
Definition exit_promises (w : World) (ns : list node) : list promise :=
  omap (λ n, match deferredElements w !! n with
             | Some (Awaitable p) => Some p
             | _ => None
             end) ns.

(** [_disposeNodes(nodesToDisposeOf)] up to its [await]: the exit callbacks
    are called and the call is suspended. *)
Definition _disposeNodes (w : World) (ns : list node) : World :=
  {| dom := dom w;
     slot := slot w;
     deferredElements := deferredElements w;
     settled := settled w;
     suspended := suspended w ++
                  [{| awaited := exit_promises w ns; nodesToDisposeOf := ns |}];
     exited := exited w ++
               List.filter (λ n, bool_decide (is_Some (deferredElements w !! n))) ns |}.

(** [_disposeCurrentNodes()] up to its [await]:
    [this.#nodes.splice(0, this.#nodes.length)] empties the tracked list
    and hands its former content to [_disposeNodes]. *)
Definition untrack (w : World) : World :=
  {| dom := dom w;
     slot := {| startAnchor := startAnchor (slot w);
                endAnchor := endAnchor (slot w);
                nodes := fst (JS.splice (nodes (slot w)) 0 (JS.len (nodes (slot w))) []) |};
     deferredElements := deferredElements w;
     settled := settled w;
     suspended := suspended w;
     exited := exited w |}.

Definition _disposeCurrentNodes (w : World) : World :=
  let removed := snd (JS.splice (nodes (slot w)) 0 (JS.len (nodes (slot w))) []) in
  _disposeNodes (untrack w) removed.

(** The rest of [update] after [void this._disposeCurrentNodes()]:
    [this.#nodes = Object.values(fragment.childNodes)] and
    [this.#endAnchor.before(fragment)]. The back-reference that
    [_brandNodes] writes into each node plays no part in disposal and is
    left out. *)
Definition track_and_insert (w : World) (fragment : list node) : World :=
  {| dom := before (endAnchor (slot w)) fragment (dom w);
     slot := {| startAnchor := startAnchor (slot w);
                endAnchor := endAnchor (slot w);
                nodes := fragment |};
     deferredElements := deferredElements w;
     settled := settled w;
     suspended := suspended w;
     exited := exited w |}.

(** [update(input)], with the child nodes of the fragment as input. *)
Definition update (w : World) (fragment : list node) : World :=
  track_and_insert (_disposeCurrentNodes w) fragment.

(** A promise is settled by its owner. *)
Definition settle (w : World) (p : promise) (fulfilled : bool) : World :=
  {| dom := dom w; slot := slot w; deferredElements := deferredElements w;
     settled := <[p := fulfilled]> (settled w);
     suspended := suspended w; exited := exited w |}.

Definition all_fulfilled (w : World) (d : Disposal) : bool :=
  forallb (λ p, bool_decide (settled w !! p = Some true)) (awaited d).

Definition some_rejected (w : World) (d : Disposal) : bool :=
  existsb (λ p, bool_decide (settled w !! p = Some false)) (awaited d).

(** The suspended disposal at position [i] leaves the list. *)
Definition unpark (w : World) (i : nat) (dom' : list node) : World :=
  {| dom := dom'; slot := slot w; deferredElements := deferredElements w;
     settled := settled w;
     suspended := delete i (suspended w); exited := exited w |}.

(** [_disposeNodes] after its [await]:
    [for (const node of nodesToDisposeOf) node.remove()]. *)
Definition resume (w : World) (i : nat) (d : Disposal) : World :=
  unpark w i (List.filter (λ c, negb (bool_decide (c ∈ nodesToDisposeOf d))) (dom w)).

(** One turn of the program around a slot: the application updates the
    slot with nodes that are not in the document, a pending promise is
    settled, a disposal whose promises are all fulfilled resumes, or a
    disposal one of whose promises is rejected ends without removing
    anything. *)
Inductive step : World → World → Prop :=
| step_update w fragment :
    (∀ n, n ∈ fragment → n ∉ dom w) →
    step w (update w fragment)
| step_settle w p fulfilled :
    settled w !! p = None →
    step w (settle w p fulfilled)
| step_resume w i d :
    suspended w !! i = Some d →
    all_fulfilled w d = true →
    step w (resume w i d)
| step_reject w i d :
    suspended w !! i = Some d →
    some_rejected w d = true →
    step w (unpark w i (dom w)).

(** Zero or more turns. *)
Inductive steps : World → World → Prop :=
| steps_refl w : steps w w
| steps_step w1 w2 w3 : step w1 w2 → steps w2 w3 → steps w1 w3.

(** A node on its way out: it is in the document, it is no longer tracked,
    and every parked disposal that is to remove it waits for the promise
    [p]. *)
Definition exiting (n : node) (p : promise) (w : World) : Prop :=
  (n ∈ dom w) ∧ (n ∉ nodes (slot w)) ∧
  (∀ d, d ∈ suspended w → n ∈ nodesToDisposeOf d → p ∈ awaited d).

(** A slot with one tracked node, whose exit callback returns the pending
    promise [0]: the anchors are nodes [1] and [2], the tracked node is
    [10]. *)
Definition one_node_world : World :=
  {| dom := [1; 10; 2]%nat;
     slot := {| startAnchor := 1%nat; endAnchor := 2%nat; nodes := [10%nat] |};
     deferredElements := {[ 10%nat := Awaitable 0%nat ]};
     settled := ∅;
     suspended := [];
     exited := [] |}.

(** [this.#nodes.indexOf(whatToReplace)], from position [i] on. *)
Fixpoint indexOf (l : list node) (n : node) (i : Z) : Z :=
  match l with
  | [] => -1
  | x :: rest => if Nat.eqb x n then i else indexOf rest n (i + 1)
  end.

(** [replaceItem(whatToReplace, ...nodes)], with the nodes that [flatMap]
    yields as input; [None] when it throws because the node is not
    tracked. The disposal of the replaced node is parked at its [await]. *)
Definition replaceItem (w : World) (whatToReplace : node) (newNodes : list node)
  : option World :=
  let location := indexOf (nodes (slot w)) whatToReplace 0 in
  if location <? 0 then None
  else
    let w1 := {| dom := before whatToReplace newNodes (dom w);
                 slot := slot w;
                 deferredElements := deferredElements w;
                 settled := settled w;
                 suspended := suspended w;
                 exited := exited w |} in
    let w2 := _disposeNodes w1 [whatToReplace] in
    Some {| dom := dom w2;
            slot := {| startAnchor := startAnchor (slot w2);
                       endAnchor := endAnchor (slot w2);
                       nodes := fst (JS.splice (nodes (slot w2)) location 1 newNodes) |};
            deferredElements := deferredElements w2;
            settled := settled w2;
            suspended := suspended w2;
            exited := exited w2 |}.

(** The slot's region of the document: the tracked nodes stand between the
    anchors, in order, and no node occurs twice. *)
Definition region (w : World) (pre post : list node) : Prop :=
  dom w = pre ++ [startAnchor (slot w)] ++ nodes (slot w) ++
          [endAnchor (slot w)] ++ post ∧
  NoDup (dom w).

End Slot.

(* ===================================================================== *)
(** ** ReactiveArray: the other methods *)
(* ===================================================================== *)

Module Methods.
Import ReactiveArray.

(** The search of [l.indexOf(searchElement, fromIndex)] on native arrays:
    the first position, from [i] on, of an element that passes, or [-1]. *)
Fixpoint first_from {A : Type} (test : A → Z → bool) (l : list A) (i : Z) : Z :=
  match l with
  | [] => -1
  | x :: rest => if test x i then i else first_from test rest (i + 1)
  end.

Definition Array_indexOf (l : list JS.value) (searchElement : JS.value)
  (fromIndex : option Z) : Z :=
  let n := default 0 fromIndex in
  if n >=? JS.len l then -1
  else
    let k := if n <? 0 then Z.max (JS.len l + n) 0 else n in
    first_from (λ x _, JS.strict_equals x searchElement) (drop (Z.to_nat k) l) k.

Section Methods.
Context `{DeepReactivity}.

(** [get(index)] *)
Definition get (a : t) (index : Z) : option JS.value :=
  let i := if index <? 0 then JS.len (value a) + index else index in
  JS.index (value a) i.

(** [set(index, value)] is [this.splice(index, 1, value)]. *)
Definition set (a : t) (σ : Store) (index : Z) (v : JS.value) :=
  splice a σ index (Some 1) [v].

(** [setValue(items)] is [this.splice(0, this.#value.length, ...items)]. *)
Definition setValue (a : t) (σ : Store) (items : list JS.value) :=
  splice a σ 0 (Some (JS.len (value a))) items.

(** [shift()] is [this.splice(0, 1)[0]]. *)
Definition shift (a : t) (σ : Store)
  : t * Store * JS.Outcome (option JS.value * list Task) :=
  match splice a σ 0 (Some 1) [] with
  | (a', σ', JS.Returns (deleted, tasks)) =>
      (a', σ', JS.Returns (JS.index deleted 0, tasks))
  | (a', σ', JS.Throws e) => (a', σ', JS.Throws e)
  end.

(** [fill(value, start = 0, end = this.#value.length)]:
    [Array.from({ length }, () => value)] has no element when [length] is
    negative. *)
Definition fill (a : t) (σ : Store) (v : JS.value) (start end_ : option Z) :=
  let start := default 0 start in
  let end_ := default (JS.len (value a)) end_ in
  let length := end_ - start in
  splice a σ start (Some length) (replicate (Z.to_nat length) v).

(** [reverse()]: [this.#value.reverse()] reverses [#value] in place and
    returns it, and [setValue] is then given that same array. *)
Definition reverse (a : t) (σ : Store) :=
  let reversed := rev (value a) in
  setValue {| value := reversed; indices := indices a; callbacks := callbacks a |}
           σ reversed.

(** [unbind(callback)] *)
Definition unbind (a : t) (callback : Callback) : t :=
  {| value := value a; indices := indices a;
     callbacks := List.filter (λ cb, negb (Nat.eqb cb callback)) (callbacks a) |}.

(** [indexOf(...args)]: the handle of the position found, or a new handle
    holding [-1]. *)
Definition indexOf (a : t) (σ : Store) (searchElement : JS.value)
  (fromIndex : option Z) : option addr * Store :=
  let index := Array_indexOf (value a) searchElement fromIndex in
  if index =? -1 then
    let '(h, σ') := alloc σ (-1) in (Some h, σ')
  else (JS.index (indices a) index, σ).

(** [forEach(args => { this.splice(...args); })] over a list of argument
    lists; a throw ends the loop. The notifications queued by the calls are
    collected. *)
Fixpoint splice_each (a : t) (σ : Store) (calls : list Call)
  : t * Store * JS.Outcome (list Task) :=
  match calls with
  | [] => (a, σ, JS.Returns [])
  | c :: rest =>
      match splice a σ (c_start c) (c_deleteCount c) (c_items c) with
      | (a', σ', JS.Returns (_, tasks)) =>
          match splice_each a' σ' rest with
          | (a'', σ'', JS.Returns tasks') => (a'', σ'', JS.Returns (tasks ++ tasks'))
          | (a'', σ'', JS.Throws e) => (a'', σ'', JS.Throws e)
          end
      | (a', σ', JS.Throws e) => (a', σ', JS.Throws e)
      end
  end.

(** *** [mutFilter] *)

(** [.flatMap((v, i, a) => callback(v, i, a) ? [] : i)], from position
    [i] on; [a] is [this.#value]. *)
Fixpoint indices_to_delete (callback : JS.value → Z → list JS.value → bool)
  (a : list JS.value) (l : list JS.value) (i : Z) : list Z :=
  match l with
  | [] => []
  | v :: rest =>
      (if callback v i a then [] else [i]) ++
      indices_to_delete callback a rest (i + 1)
  end.

(** The reducer of [mutFilter]: the entries of [acc] are [[start, count]],
    the latest first. *)
Definition group_deleted (acc : list (Z * Z)) (indexToDelete : Z) : list (Z * Z) :=
  match acc with
  | [] => [(indexToDelete, 1)]
  | (start, count) :: rest =>
      if negb (start + count =? indexToDelete)
      then (indexToDelete, 1) :: acc
      else (start, count + 1) :: rest
  end.

Definition mutFilter (a : t) (σ : Store)
  (callback : JS.value → Z → list JS.value → bool) :=
  let groups :=
    fold_left group_deleted (indices_to_delete callback (value a) (value a) 0) [] in
  splice_each a σ (List.map (λ g, mkCall (fst g) (Some (snd g)) []) groups).

(** *** [mutMap] *)

(** [.flatMap((v, i, a) => { const newValue = callback(v, i, a);
    return newValue === v ? [] : { index: i, value: newValue }; })] *)
Fixpoint changed_values (callback : JS.value → Z → list JS.value → JS.value)
  (a : list JS.value) (l : list JS.value) (i : Z) : list (Z * JS.value) :=
  match l with
  | [] => []
  | v :: rest =>
      (if JS.strict_equals (callback v i a) v then [] else [(i, callback v i a)]) ++
      changed_values callback a rest (i + 1)
  end.

(** The reducer of [mutMap]: the entries of [acc] are
    [[index, count, ...values]], the latest first. *)
Definition group_changed (acc : list (Z * Z * list JS.value))
  (change : Z * JS.value) : list (Z * Z * list JS.value) :=
  match acc with
  | [] => [(fst change, 1, [snd change])]
  | (start, count, values) :: rest =>
      if negb (start + count =? fst change)
      then (fst change, 1, [snd change]) :: acc
      else (start, count + 1, values ++ [snd change]) :: rest
  end.

Definition mutMap (a : t) (σ : Store)
  (callback : JS.value → Z → list JS.value → JS.value) :=
  let groups :=
    fold_left group_changed (changed_values callback (value a) (value a) 0) [] in
  splice_each a σ
    (List.map (λ g, mkCall (fst (fst g)) (Some (snd (fst g))) (snd g)) groups).

(** *** [map] *)

(** [values.map((v, i) => cb(v, i + index))] with
    [cb = (v, i) => callback(v, this.#indices[i], this)]. *)
Fixpoint map_items (callback : JS.value → option addr → t → JS.value)
  (this : t) (values : list JS.value) (i : Z) : list JS.value :=
  match values with
  | [] => []
  | v :: rest =>
      callback v (JS.index (indices this) i) this ::
      map_items callback this rest (i + 1)
  end.

(** The listener that [map] adds to [#callbacks]; [this] is the source
    when the listener runs. *)
Definition map_listener (callback : JS.value → option addr → t → JS.value)
  (this : t) (newArr : t) (σ : Store) (index deleteCount : Z) (values : list JS.value) :=
  splice newArr σ index (Some deleteCount) (map_items callback this values index).

(** [map(callback)]: the source with the listener registered (without a
    first run) and the derived array. *)
Definition map (a : t) (σ : Store)
  (callback : JS.value → option addr → t → JS.value)
  (listener : Callback) : t * t * Store :=
  let '(newArr, σ') := new (map_items callback a (value a) 0) σ in
  ({| value := value a; indices := indices a;
      callbacks := Set_add listener (callbacks a) |}, newArr, σ').

(** *** [updateFilteredArray], run when a dependency of [filter] changes *)

(** The entries [{ index, show, value }] of the update queue. *)
Record QueueEntry : Type := mkQueueEntry {
  q_index : Z;
  q_show : bool;
  q_value : JS.value;
}.

(** [processUpdateQueue(updateQueue, filteredArray)]: the queue afterwards,
    the filtered array and the store, and the notifications queued. *)
Definition processUpdateQueue (updateQueue : list QueueEntry)
  (filteredArray : t) (σ : Store)
  : list QueueEntry * t * Store * JS.Outcome (list Task) :=
  match updateQueue with
  | [] => (updateQueue, filteredArray, σ, JS.Returns [])
  | first :: _ =>
      let addedItems := List.map q_value (List.filter q_show updateQueue) in
      let deleteCount :=
        JS.len (List.filter (λ item, negb (q_show item)) updateQueue) in
      let startEditingAt :=
        match List.find q_show updateQueue with
        | Some v => q_index v
        | None => q_index first + 1
        end in
      match splice filteredArray σ startEditingAt (Some deleteCount) addedItems with
      | (fa', σ', JS.Returns (_, tasks)) => ([], fa', σ', JS.Returns tasks)
      | (fa', σ', JS.Throws e) => (updateQueue, fa', σ', JS.Throws e)
      end
  end.

(** The loop of [updateFilteredArray] from entry [i] of the source on. An
    entry of the mask that is absent makes the read of its [show] throw. *)
Fixpoint update_entries (callback : JS.value → Z → list JS.value → bool)
  (sourceArray : list JS.value) (items : list JS.value) (i : Z)
  (newIndex : Z) (updateQueue : list QueueEntry)
  (f : Filtered) (σ : Store) (tasks : list Task)
  : Z * list QueueEntry * Filtered * Store * JS.Outcome (list Task) :=
  match items with
  | [] => (newIndex, updateQueue, f, σ, JS.Returns tasks)
  | item :: rest =>
      let showThis := callback item i sourceArray in
      let newIndex := if showThis then newIndex + 1 else newIndex in
      match JS.index (maskArray f) i with
      | None => (newIndex, updateQueue, f, σ, JS.Throws JS.TypeError)
      | Some entry =>
          if negb (Bool.eqb showThis (show entry)) then
            let current := {| q_index := newIndex; q_show := showThis; q_value := item |} in
            update_entries callback sourceArray rest (i + 1) newIndex
              (updateQueue ++ [current])
              {| maskArray := <[Z.to_nat i := {| index := newIndex; show := showThis |}]>
                                (maskArray f);
                 filteredArray := filteredArray f |}
              σ tasks
          else
            match processUpdateQueue updateQueue (filteredArray f) σ with
            | (queue', fa', σ', JS.Returns tasks') =>
                update_entries callback sourceArray rest (i + 1) newIndex queue'
                  {| maskArray := maskArray f; filteredArray := fa' |}
                  σ' (tasks ++ tasks')
            | (queue', fa', σ', JS.Throws e) =>
                (newIndex, queue',
                 {| maskArray := maskArray f; filteredArray := fa' |}, σ', JS.Throws e)
            end
      end
  end.

(** [updateFilteredArray(callback, sourceArray, filteredArray, maskArray)] *)
Definition updateFilteredArray (callback : JS.value → Z → list JS.value → bool)
  (sourceArray : list JS.value) (f : Filtered) (σ : Store)
  : Filtered * Store * JS.Outcome (list Task) :=
  match update_entries callback sourceArray sourceArray 0 (-1) [] f σ [] with
  | (_, updateQueue, f1, σ1, JS.Returns tasks) =>
      match processUpdateQueue updateQueue (filteredArray f1) σ1 with
      | (_, fa', σ', JS.Returns tasks') =>
          ({| maskArray := maskArray f1; filteredArray := fa' |}, σ',
           JS.Returns (tasks ++ tasks'))
      | (_, fa', σ', JS.Throws e) =>
          ({| maskArray := maskArray f1; filteredArray := fa' |}, σ', JS.Throws e)
      end
  | (_, _, f1, σ1, JS.Throws e) => (f1, σ1, JS.Throws e)
  end.
End Methods.

End Methods.

(* ===================================================================== *)
(** ** ReactiveArray: what the methods are to achieve *)
(* ===================================================================== *)

Module Intended.
Import ReactiveArray.

(** The handle [h] follows the item [v]: it is the handle of a position
    that holds [v] and holds that position, or it is no longer a handle of
    the array and holds [-1]. The second case does not say where the item
    is; [followed] below keeps the position of the item as well. *)
Definition tracks (a : t) (σ : Store) (h : addr) (v : JS.value) : Prop :=
  (∃ j : nat, (indices a !! j = Some h) ∧ (value a !! j = Some v) ∧
              (read σ h = Some (Z.of_nat j))) ∨
  ((h ∉ indices a) ∧ read σ h = Some (-1)).

(** The tasks queued for one listener. *)
Definition tasks_to (cb : Callback) (tasks : list Task) : list Task :=
  List.filter (λ t, Nat.eqb (fst t) cb) tasks.

(** [l.filter(callback)] of native arrays, from position [i] on; [a] is the
    whole array. *)
Fixpoint Array_filter (callback : JS.value → Z → list JS.value → bool)
  (a : list JS.value) (l : list JS.value) (i : Z) : list JS.value :=
  match l with
  | [] => []
  | v :: rest =>
      (if callback v i a then [v] else []) ++ Array_filter callback a rest (i + 1)
  end.

(** Runs [[start, count]] of positions below [bound], the highest first,
    that do not overlap. *)
Fixpoint runs_ok (bound : Z) (runs : list (Z * Z)) : Prop :=
  match runs with
  | [] => True
  | (start, count) :: rest =>
      0 ≤ start ∧ 1 ≤ count ∧ start + count ≤ bound ∧ runs_ok start rest
  end.

(** [l.splice(start, count)] for each run in turn. *)
Definition delete_runs {A : Type} (l : list A) (runs : list (Z * Z)) : list A :=
  fold_left (λ l g, fst (JS.splice l (fst g) (snd g) [])) runs l.

(** The array seen as entries, each a handle with its item; of entries
    [l], from position [i] on, those whose item the callback keeps. [a] is
    the whole array of items. *)
Fixpoint kept_entries (callback : JS.value → Z → list JS.value → bool)
  (a : list JS.value) (l : list (addr * JS.value)) (i : Z)
  : list (addr * JS.value) :=
  match l with
  | [] => []
  | e :: rest =>
      (if callback (snd e) i a then [e] else []) ++
      kept_entries callback a rest (i + 1)
  end.

(** Values without identity: a callback that returns one of them cannot
    return an object it has just made. *)
Definition is_primitive (v : JS.value) : bool :=
  match v with
  | JS.Object _ | JS.Function _ => false
  | _ => true
  end.

Section Changes.
Context `{DeepReactivity}.

(** What [mutMap] is to leave at each position, from position [i] on: the
    item itself where the callback returns it, else the value returned,
    made reactive. *)
Fixpoint mutMap_items (callback : JS.value → Z → list JS.value → JS.value)
  (a : list JS.value) (l : list JS.value) (i : Z) : list JS.value :=
  match l with
  | [] => []
  | v :: rest =>
      (if JS.strict_equals (callback v i a) v then v
       else makeItemReactive (callback v i a)) ::
      mutMap_items callback a rest (i + 1)
  end.

(** Runs [[index, count, ...values]] of positions below [bound], the
    highest first, that do not overlap and carry one value per position. *)
Fixpoint changes_ok (bound : Z) (runs : list (Z * Z * list JS.value)) : Prop :=
  match runs with
  | [] => True
  | (start, count, values) :: rest =>
      0 ≤ start ∧ 1 ≤ count ∧ count = JS.len values ∧ start + count ≤ bound ∧
      changes_ok start rest
  end.

(** [l.splice(index, count, ...values)] for each run in turn, the values
    made reactive. *)
Definition replace_runs (l : list JS.value) (runs : list (Z * Z * list JS.value))
  : list JS.value :=
  fold_left (λ l g, fst (JS.splice l (fst (fst g)) (snd (fst g))
                                   (makeNonPrimitiveItemsReactive (snd g))))
            runs l.

(** Where the item at position [j] of [a] is after the call [c] in range:
    in its place when it stands before [start], nowhere when it is in the
    deleted range, and moved by the net change of length when it stands
    behind that range. *)
Definition position_after (a : t) (c : Call) (j : nat) : option nat :=
  let s := Z.to_nat (c_start c) in
  let d := Nat.min (Z.to_nat (default (JS.len (value a) - c_start c)
                                       (c_deleteCount c)))
                   (length (value a) - s) in
  if (j <? s)%nat then Some j
  else if (j <? s + d)%nat then None
  else Some (j + length (c_items c) - d)%nat.

(** The states reached from [(a0, σ0)] by calls in range that return,
    with the position of the item that stood at [j0]: [None] once a call
    has deleted it. *)
Inductive followed (a0 : t) (σ0 : Store) (j0 : nat)
  : t → Store → option nat → Prop :=
| followed_start : followed a0 σ0 j0 a0 σ0 (Some j0)
| followed_splice a σ pos c a' σ' r :
    followed a0 σ0 j0 a σ pos →
    in_range a c →
    splice a σ (c_start c) (c_deleteCount c) (c_items c) = (a', σ', JS.Returns r) →
    followed a0 σ0 j0 a' σ' (pos ≫= position_after a c).
End Changes.

(** The queue that [updateFilteredArray] has built after a run of items
    whose verdict changed; [k] is [newIndex] before the run. *)
Fixpoint queue_of (p' : JS.value → bool) (k : Z) (run : list JS.value)
  : list Methods.QueueEntry :=
  match run with
  | [] => []
  | x :: rest =>
      let k' := if p' x then k + 1 else k in
      {| Methods.q_index := k'; Methods.q_show := p' x; Methods.q_value := x |}
        :: queue_of p' k' rest
  end.

(** A callback for the examples:
    [x => typeof x === "number" ? x * 10 : NaN]. *)
Definition times_ten (v : JS.value) : JS.value :=
  match v with
  | JS.Number (JS.Int z) => JS.Number (JS.Int (z * 10))
  | _ => JS.Number JS.NaN
  end.

End Intended.

(* ===================================================================== *)
(** ** ReactivePrimitive: derived cells *)
(* ===================================================================== *)

Module Derived.
Import ReactivePrimitive.

Section Pipe.
Abbreviation T := JS.value (only parsing).
Abbreviation U := JS.value (only parsing).

(** A cell made by [pipe]: the source, the derived cell [newRef], the
    number of microtasks [() => newRef.value = currentValue()] that are
    queued, and the number of calls of the updater made so far. [watcher]
    is the closure that [from] binds to the source. *)
Record Piped : Type := mkPiped {
  source : t T;
  newRef : t U;
  queued : nat;
  calls : nat;
}.

(** The updater. [currentValue()] calls it afresh each time, and what it
    returns can differ from call to call: [x => [x]] makes a new array at
    every call. [callback k x] is what the call number [k] returns on [x];
    an updater whose result is determined by its argument does not look at
    [k]. *)
Variable callback : nat → T → U.
Variable watcher : Callback.

(** [pipe(callback)], which is [ReactivePrimitive.from(callback, this)]:
    the derived cell starts with [callback(this.value)], and the watcher is
    bound to the source without a first call. *)
Definition pipe (c : t T) : Piped :=
  {| source := fst (bind c watcher true);
     newRef := new (callback 0 (value c));
     queued := 0;
     calls := 1 |}.

(** [source.set(v, ...noUpdate)]: each call of the watcher queues one
    microtask. The calls made to the subscribers are returned. *)
Definition set_source (s : Piped) (v : T) (noUpdate : list Callback)
  : Piped * list (Call (T := T)) :=
  let '(c', log) := set (source s) v noUpdate in
  ({| source := c'; newRef := newRef s;
      queued := queued s + length (calls_to watcher log);
      calls := calls s |}, log).

(** One queued microtask runs: [newRef.value = currentValue()], where
    [currentValue()] calls the updater on the source as it is now. *)
Definition run_microtask (s : Piped) : Piped * list (Call (T := U)) :=
  match queued s with
  | O => (s, [])
  | S n =>
      let '(r', log) :=
        set (newRef s) (callback (calls s) (value (source s))) [] in
      ({| source := source s; newRef := r'; queued := n;
          calls := S (calls s) |}, log)
  end.

(** The microtask queue is drained. *)
Fixpoint drain (fuel : nat) (s : Piped) : Piped * list (Call (T := U)) :=
  match fuel with
  | O => (s, [])
  | S fuel' =>
      let '(s1, log1) := run_microtask s in
      let '(s2, log2) := drain fuel' s1 in
      (s2, log1 ++ log2)
  end.

(** What happens around the two cells: the source is set, a microtask
    runs, or a subscriber is bound to the derived cell. *)
Inductive Event : Type :=
| SetSource (v : T) (noUpdate : list Callback)
| RunMicrotask
| BindNewRef (cb : Callback) (noFirstCall : bool).

(** An event, with the calls it makes to the subscribers of the derived
    cell. *)
Definition run_event (s : Piped) (e : Event) : Piped * list (Call (T := U)) :=
  match e with
  | SetSource v noUpdate => (fst (set_source s v noUpdate), [])
  | RunMicrotask => run_microtask s
  | BindNewRef cb noFirstCall =>
      let '(r', log) := bind (newRef s) cb noFirstCall in
      ({| source := source s; newRef := r'; queued := queued s;
          calls := calls s |}, log)
  end.

Fixpoint run_events (s : Piped) (es : list Event) : Piped * list (Call (T := U)) :=
  match es with
  | [] => (s, [])
  | e :: rest =>
      let '(s1, log1) := run_event s e in
      let '(s2, log2) := run_events s1 rest in
      (s2, log1 ++ log2)
  end.

(** No event excludes the watcher. *)
Definition watcher_kept (es : list Event) : Prop :=
  Forall (λ e, match e with
               | SetSource _ noUpdate => includes noUpdate watcher = false
               | RunMicrotask | BindNewRef _ _ => True
               end) es.

(** The derived cell holds what a call of the updater returned on the
    source's value, or a microtask that will make such a call is queued. *)
Definition fresh_or_queued (s : Piped) : Prop :=
  (watcher ∈ callbacks (source s)) ∧ NoDup (callbacks (source s)) ∧
  NoDup (callbacks (newRef s)) ∧
  ((0 < queued s)%nat ∨ ∃ k, value (newRef s) = callback k (value (source s))).

End Pipe.

(** An updater that makes a new object at every call, as [x => [x]]
    does: the call number [k] returns the object [k]. *)
Definition fresh_object (k : nat) (x : JS.value) : JS.value := JS.Object k.

End Derived.

(* ===================================================================== *)
(** ** Names of components and attributes *)
(* ===================================================================== *)

Module Names.
Import Stdlib.Strings.Ascii.

(** Names are ASCII strings; on them [toLowerCase] and [toUpperCase] act on
    the letters [A-Z] and [a-z] only. *)
Definition is_upper (c : ascii) : bool :=
  (65 <=? nat_of_ascii c)%nat && (nat_of_ascii c <=? 90)%nat.

Definition is_lower (c : ascii) : bool :=
  (97 <=? nat_of_ascii c)%nat && (nat_of_ascii c <=? 122)%nat.

Definition toLowerCase_char (c : ascii) : ascii :=
  if is_upper c then ascii_of_nat (nat_of_ascii c + 32) else c.

Definition toUpperCase_char (c : ascii) : ascii :=
  if is_lower c then ascii_of_nat (nat_of_ascii c - 32) else c.

Fixpoint toLowerCase (s : string) : string :=
  match s with
  | EmptyString => EmptyString
  | String c rest => String (toLowerCase_char c) (toLowerCase rest)
  end.

(** [.replace(/(?<!^)([A-Z])/g, "-$1")] behind the first character. *)
Fixpoint dash_capitals (s : string) : string :=
  match s with
  | EmptyString => EmptyString
  | String c rest =>
      if is_upper c then String "-"%char (String c (dash_capitals rest))
      else String c (dash_capitals rest)
  end.

(** [input.replace(/(?<!^)([A-Z])/g, "-$1").toLowerCase()] *)
Definition pascalToKebab (input : string) : string :=
  toLowerCase (match input with
               | EmptyString => EmptyString
               | String c rest => String c (dash_capitals rest)
               end).

(** [input.replace(/(-[a-z])/g, match => match[1].toUpperCase())] *)
Fixpoint kebabToCamel (input : string) : string :=
  match input with
  | EmptyString => EmptyString
  | String c rest =>
      if Ascii.eqb c "-"%char then
        match rest with
        | String l rest' =>
            if is_lower l then String (toUpperCase_char l) (kebabToCamel rest')
            else String c (kebabToCamel rest)
        | EmptyString => String c EmptyString
        end
      else String c (kebabToCamel rest)
  end.

(** The characters of a name. *)
Fixpoint chars (s : string) : list ascii :=
  match s with
  | EmptyString => []
  | String c rest => c :: chars rest
  end.

End Names.

(* ===================================================================== *)
(** ** Component ids *)
(* ===================================================================== *)

Module Ids.

(** [pseudoRandomEncode(count, coprime)(seed)] on BigInts, whose [%] is the
    remainder of the truncating division. *)
Definition pseudoRandomEncode (count coprime : Z) (seed : Z) : Z :=
  Z.rem (seed * coprime) count.

Definition idEncoder : Z → Z := pseudoRandomEncode (2 ^ 20) 387420489.

(** One [next()] of [pseudoRandomIdGenerator] when its counter is [i]:
    the counter afterwards and the number whose base-36 numeral is
    yielded. *)
Definition next_id (i : Z) : Z * Z := (i + 1, idEncoder (i + 1)).

(** The numbers yielded by the first [n] calls. *)
Fixpoint first_ids (n : nat) (i : Z) : list Z :=
  match n with
  | O => []
  | S n' => let '(i', id) := next_id i in id :: first_ids n' i'
  end.

End Ids.

(* ===================================================================== *)
(** ** The week flag of the application *)
(* ===================================================================== *)

Module Weeks.

(** [localStorage], a map from keys to strings. *)
Abbreviation Storage := (gmap string string) (only parsing).

(** [!!v] for what [getItem] returns: [null] and the empty string are
    falsy. *)
Definition truthy (v : option string) : bool :=
  match v with
  | None => false
  | Some EmptyString => false
  | Some _ => true
  end.

(** [isNoClockInWeek()], with the id that [getCurWeekId()] computes from
    the clock. *)
Definition isNoClockInWeek (weekId : string) (s : Storage) : bool :=
  truthy (s !! weekId).

(** [toggleWeek()]: [weekId] is the id computed by [toggleWeek] itself,
    [weekId'] the one computed inside [isNoClockInWeek]. *)
Definition toggleWeek (weekId weekId' : string) (s : Storage) : Storage * bool :=
  let newState := negb (isNoClockInWeek weekId' s) in
  (if newState then <[weekId := "1"%string]> s else delete weekId s, newState).

End Weeks.

(* ===================================================================== *)
(** * Properties *)
(* ===================================================================== *)

(** ** Sets of callbacks *)

Lemma includes_true (l : list Callback) (cb : Callback) :
  includes l cb = true ↔ cb ∈ l.
Proof.
  unfold includes. rewrite existsb_exists, list_elem_of_In. split.
  - intros (x & Hx & Heq). apply Nat.eqb_eq in Heq. by subst.
  - intros Hin. exists cb. split; [done | apply Nat.eqb_refl].
Qed.

Lemma includes_false (l : list Callback) (cb : Callback) :
  includes l cb = false ↔ cb ∉ l.
Proof.
  rewrite <- includes_true. destruct (includes l cb); split; congruence.
Qed.

Lemma Set_add_NoDup (cb : Callback) (s : list Callback) :
  NoDup s → NoDup (Set_add cb s).
Proof.
  intros Hs. unfold Set_add. destruct (includes s cb) eqn:E; [done|].
  apply includes_false in E. apply NoDup_app. repeat split; try done.
  - intros x Hx Hx'. apply list_elem_of_singleton in Hx'. by subst.
  - apply NoDup_singleton.
Qed.

Lemma Set_add_elem (cb x : Callback) (s : list Callback) :
  x ∈ Set_add cb s ↔ x = cb ∨ x ∈ s.
Proof.
  unfold Set_add. destruct (includes s cb) eqn:E.
  - apply includes_true in E. split; [by right | intros [->|]; done].
  - rewrite elem_of_app, list_elem_of_singleton. tauto.
Qed.

(** ** ReactivePrimitive *)

Module ReactivePrimitiveFacts.
Import ReactivePrimitive.

Section Facts.
Context {T : Type} `{StrictEq T}.
Implicit Types (c : t T) (v x : T) (cb : Callback) (log : list (@Call T)).

(** The callback set of a cell never holds a callback twice. *)
Lemma new_NoDup v : NoDup (callbacks (new v)).
Proof. apply NoDup_nil_2. Qed.

Lemma bind_NoDup c cb b :
  NoDup (callbacks c) → NoDup (callbacks (fst (bind c cb b))).
Proof. apply Set_add_NoDup. Qed.

Lemma set_callbacks c v noUpdate :
  callbacks (fst (set c v noUpdate)) = callbacks c.
Proof. unfold set. by destruct (strict_eq v (value c)). Qed.

Lemma set_value c v noUpdate :
  strict_eq v (value c) = false → value (fst (set c v noUpdate)) = v.
Proof. intros E. unfold set. by rewrite E. Qed.

(** A [set] with a strictly equal value changes nothing and calls
    nobody. *)
Lemma set_same c v noUpdate :
  strict_eq v (value c) = true → set c v noUpdate = (c, []).
Proof. intros E. unfold set. by rewrite E. Qed.

Lemma set_changed c v noUpdate :
  strict_eq v (value c) = false →
  set c v noUpdate =
    ({| value := v; callbacks := callbacks c |},
     map (λ cb, (cb, v))
         (List.filter (λ cb, negb (includes noUpdate cb)) (callbacks c))).
Proof. intros E. unfold set. by rewrite E. Qed.

Lemma calls_to_app cb log1 log2 :
  calls_to cb (log1 ++ log2) = calls_to cb log1 ++ calls_to cb log2.
Proof. apply List.filter_app. Qed.

(** Calling each member of a list once calls [cb] once if it is a
    member that occurs once, and never if it is not a member. *)
Lemma calls_to_absent cb v (l : list Callback) :
  cb ∉ l → calls_to cb (map (λ cb', (cb', v)) l) = [].
Proof.
  induction l as [|y l IH]; intros Hnot; [done|].
  apply not_elem_of_cons in Hnot as [Hne Hnot]. cbn.
  destruct (Nat.eqb_spec y cb) as [->|_]; [done|]. by apply IH.
Qed.

Lemma calls_to_member cb v (l : list Callback) :
  NoDup l → cb ∈ l → calls_to cb (map (λ cb', (cb', v)) l) = [(cb, v)].
Proof.
  induction l as [|y l IH]; intros Hnd Hin; [by apply elem_of_nil in Hin|].
  apply NoDup_cons in Hnd as [Hy Hnd]. cbn.
  destruct (Nat.eqb_spec y cb) as [->|Hne].
  - f_equal. by apply calls_to_absent.
  - apply elem_of_cons in Hin as [->|Hin]; [done|]. by apply IH.
Qed.

Lemma filter_keeps_NoDup (f : Callback → bool) (l : list Callback) :
  NoDup l → NoDup (List.filter f l).
Proof.
  intros Hnd. apply NoDup_ListNoDup. apply List.NoDup_filter.
  by apply NoDup_ListNoDup.
Qed.

Lemma elem_of_bool_filter (f : Callback → bool) (l : list Callback) cb :
  cb ∈ List.filter f l ↔ cb ∈ l ∧ f cb = true.
Proof. rewrite !list_elem_of_In. apply filter_In. Qed.

(** The calls of a [set] that changes the value, for one subscriber. *)
Lemma set_calls_subscriber c v noUpdate cb :
  NoDup (callbacks c) →
  strict_eq v (value c) = false →
  cb ∈ callbacks c → cb ∉ noUpdate →
  calls_to cb (snd (set c v noUpdate)) = [(cb, v)].
Proof.
  intros Hnd E Hin Hex. rewrite (set_changed _ _ _ E). cbn [snd].
  apply calls_to_member; [by apply filter_keeps_NoDup|].
  apply elem_of_bool_filter. split; [done|].
  apply negb_true_iff. by apply includes_false.
Qed.

Lemma set_calls_excluded c v noUpdate cb :
  cb ∈ noUpdate → calls_to cb (snd (set c v noUpdate)) = [].
Proof.
  intros Hex. unfold set. destruct (strict_eq v (value c)); [done|].
  cbn [negb snd]. apply calls_to_absent. intros Hin.
  apply elem_of_bool_filter in Hin as [_ Hin].
  apply negb_true_iff, includes_false in Hin. done.
Qed.

(** [update()] is [set] with the stored value: unless that value differs
    from itself, nothing is emitted. *)
Lemma update_silent c :
  strict_eq (value c) (value c) = true → update c = (c, []).
Proof. intros E. unfold update. by apply set_same. Qed.
End Facts.

(** Every value but [NaN] is strictly equal to itself. *)
Lemma strict_equals_refl (v : JS.value) :
  v ≠ JS.Number JS.NaN → JS.strict_equals v v = true.
Proof.
  destruct v as [| |b|[|z]|s|r|r]; cbn; intros Hne; try done.
  - by destruct b.
  - apply Z.eqb_refl.
  - apply String.eqb_refl.
  - apply Nat.eqb_refl.
  - apply Nat.eqb_refl.
Qed.

Lemma update_silent_value (c : t JS.value) :
  value c ≠ JS.Number JS.NaN → update c = (c, []).
Proof. intros Hne. apply update_silent. by apply strict_equals_refl. Qed.

(** Only a cell that holds [NaN] has [update()] emit: [NaN !== NaN]. *)
Lemma update_NaN_emits (c : t JS.value) :
  value c = JS.Number JS.NaN →
  update c = (c, map (λ cb, (cb, JS.Number JS.NaN)) (callbacks c)).
Proof.
  intros E. unfold update. rewrite set_changed by (by rewrite E).
  destruct c as [v cbs]. cbn in *. subst v. f_equal. f_equal.
  induction cbs as [|cb cbs IH]; [done|]. cbn. by rewrite IH.
Qed.

(** C1. [update()] should re-emit the current value to every subscriber.
    On a cell that holds the number 1 and has one subscriber, [update()]
    calls nobody: [set] is given the stored value, finds it strictly equal
    to itself and returns. *)
Theorem update_emits_nothing :
  let c := fst (bind (new (JS.Number (JS.Int 1))) 7%nat true) in
  callbacks c = [7%nat] ∧ update c = (c, []).
Proof. split; reflexivity. Qed.

(** C2, as stated, fails for [NaN]: a cell that holds 0 and has one
    subscriber is set to [NaN] twice; [NaN] differs from the prior value,
    and the subscriber is called twice, since [NaN !== NaN]. *)
Lemma set_twice_NaN_calls_twice :
  let c := fst (bind (new (JS.Number (JS.Int 0))) 7%nat true) in
  let x := JS.Number JS.NaN in
  NoDup (callbacks c) ∧ 7%nat ∈ callbacks c ∧
  strict_eq x (value c) = false ∧
  calls_to 7%nat (snd (set_twice c x)) = [(7%nat, x); (7%nat, x)].
Proof.
  cbn. repeat split.
  - apply NoDup_singleton.
  - apply list_elem_of_singleton. reflexivity.
Qed.

(** C2, amended. A [set] with a value strictly equal to the stored one
    changes nothing and notifies nobody. Consequently, when [x] differs
    from the stored value and is strictly equal to itself (it is not
    [NaN]), [c.set(x); c.set(x)] calls each subscriber exactly once, with
    [x]. *)
Theorem set_same_value_suppressed {T : Type} `{StrictEq T} (c : t T) (x : T) :
  (∀ noUpdate, strict_eq x (value c) = true → set c x noUpdate = (c, [])) ∧
  (NoDup (callbacks c) →
   strict_eq x (value c) = false →
   strict_eq x x = true →
   ∀ cb, cb ∈ callbacks c → calls_to cb (snd (set_twice c x)) = [(cb, x)]).
Proof.
  split.
  - intros noUpdate E. by apply set_same.
  - intros Hnd Hne Hrefl cb Hin. unfold set_twice.
    pose proof (set_calls_subscriber c x [] cb Hnd Hne Hin) as Hfirst.
    rewrite (set_changed c x [] Hne) in *. cbn [snd] in Hfirst.
    rewrite set_same by done. cbn [snd].
    rewrite calls_to_app, Hfirst; [done | apply not_elem_of_nil].
Qed.

Lemma set_same_value_suppressed_witness :
  let c := fst (bind (new (JS.Number (JS.Int 0))) 7%nat true) in
  let x := JS.Str "a" in
  set (fst (set c x [])) x [7%nat] = (fst (set c x []), []) ∧
  calls_to 7%nat (snd (set_twice c x)) = [(7%nat, x)].
Proof.
  cbn zeta. split.
  - apply (proj1 (set_same_value_suppressed _ _)). reflexivity.
  - apply (proj2 (set_same_value_suppressed _ _)).
    + apply NoDup_singleton.
    + reflexivity.
    + reflexivity.
    + apply list_elem_of_singleton. reflexivity.
Defined.

(** C3. [set(v, cbA)] with [v] different from the stored value stores [v],
    calls every subscriber other than [cbA] exactly once, with [v], and
    does not call [cbA]. *)
Theorem set_skips_excluded_callback {T : Type} `{StrictEq T}
  (c : t T) (v : T) (cbA : Callback) :
  NoDup (callbacks c) →
  strict_eq v (value c) = false →
  value (fst (set c v [cbA])) = v ∧
  (∀ cb, cb ∈ callbacks c → cb ≠ cbA →
         calls_to cb (snd (set c v [cbA])) = [(cb, v)]) ∧
  calls_to cbA (snd (set c v [cbA])) = [].
Proof.
  intros Hnd Hne. split; [by apply set_value|]. split.
  - intros cb Hin Hcb. apply set_calls_subscriber; try done.
    intros Hx. apply list_elem_of_singleton in Hx. done.
  - apply set_calls_excluded. by apply list_elem_of_singleton.
Qed.

Lemma set_skips_excluded_callback_witness :
  let c := fst (bind (fst (bind (new (JS.Number (JS.Int 0))) 7%nat true)) 8%nat true) in
  let v := JS.Number JS.NaN in
  callbacks c = [7%nat; 8%nat] ∧
  value (fst (set c v [7%nat])) = v ∧
  (∀ cb, cb ∈ callbacks c → cb ≠ 7%nat →
         calls_to cb (snd (set c v [7%nat])) = [(cb, v)]) ∧
  calls_to 7%nat (snd (set c v [7%nat])) = [].
Proof.
  cbn zeta. split; [reflexivity|].
  apply set_skips_excluded_callback.
  - cbn. apply NoDup_cons. split.
    + intros Hx. apply list_elem_of_singleton in Hx. discriminate.
    + apply NoDup_singleton.
  - reflexivity.
Defined.
End ReactivePrimitiveFacts.

(** ** Rendering *)

Module RenderFacts.
Import JS Render.

Lemma shouldBeRendered_false (input : value) :
  shouldBeRendered input = false ↔
  input ∈ [Undefined; Null; Boolean true; Boolean false].
Proof.
  rewrite !elem_of_cons, elem_of_nil.
  destruct input as [| |[|]|[|z]|s|r|r]; cbn; split;
    (intros; repeat match goal with
                    | Hor : _ ∨ _ |- _ => destruct Hor
                    end; (done || tauto)).
Qed.

(** C10. [stringifyValue] gives the empty string for [undefined], [null],
    [true] and [false], and for those only by its own doing: every other
    value is given as [String(input)]. A value that is neither a template
    result, a fragment, a node nor an array is rendered as one text node
    with that string. *)
Theorem stringifyValue_spec (String_ : value → string) (input : value) :
  stringifyValue String_ input =
    match input with
    | Undefined | Null | Boolean true | Boolean false => EmptyString
    | _ => String_ input
    end ∧
  (shouldBeRendered input = false ↔
   input ∈ [Undefined; Null; Boolean true; Boolean false]) ∧
  valueToFragment String_ (Plain input) = [Text (stringifyValue String_ input)].
Proof.
  split; [|split; [apply shouldBeRendered_false | reflexivity]].
  by destruct input as [| |[|]|[|z]|s|r|r].
Qed.
End RenderFacts.

(** ** JavaScript arrays *)

Module JSFacts.
Import JS.

Section Arrays.
Context {A : Type}.
Implicit Types (l items : list A) (i start deleteCount : Z).

Lemma len_nonneg l : 0 ≤ len l.
Proof. unfold len. lia. Qed.

Lemma len_app l1 l2 : len (l1 ++ l2) = len l1 + len l2.
Proof. unfold len. rewrite length_app. lia. Qed.

Lemma index_nonneg l i : 0 ≤ i → index l i = l !! Z.to_nat i.
Proof. intros Hi. unfold index. destruct (Z.ltb_spec i 0); [lia | done]. Qed.

Lemma index_negative l i : i < 0 → index l i = None.
Proof. intros Hi. unfold index. destruct (Z.ltb_spec i 0); [done | lia]. Qed.

Lemma index_in_range l i : 0 ≤ i < len l → is_Some (index l i).
Proof.
  intros Hi. rewrite index_nonneg by lia. apply lookup_lt_is_Some.
  unfold len in Hi. lia.
Qed.

Lemma splice_unfold l start deleteCount items :
  splice l start deleteCount items =
    (take (actual_start l start) l ++ items ++
       drop (actual_start l start + actual_count l start deleteCount) l,
     take (actual_count l start deleteCount) (drop (actual_start l start) l)).
Proof. reflexivity. Qed.

Lemma relative_bounds n pos : 0 ≤ n → 0 ≤ relative n pos ≤ n.
Proof. intros Hn. unfold relative. destruct (Z.ltb_spec pos 0); lia. Qed.

Lemma actual_start_le l start : (actual_start l start ≤ length l)%nat.
Proof.
  unfold actual_start. pose proof (relative_bounds (len l) start (len_nonneg l)).
  unfold len in *. lia.
Qed.

Lemma actual_count_le l start deleteCount :
  (actual_start l start + actual_count l start deleteCount ≤ length l)%nat.
Proof.
  unfold actual_start, actual_count.
  pose proof (relative_bounds (len l) start (len_nonneg l)).
  unfold len in *. lia.
Qed.

Lemma actual_start_in_range l start :
  0 ≤ start ≤ len l → actual_start l start = Z.to_nat start.
Proof.
  intros Hs. unfold actual_start, relative.
  destruct (Z.ltb_spec start 0); [lia|]. f_equal. lia.
Qed.

Lemma actual_count_in_range l start deleteCount :
  0 ≤ start ≤ len l → 0 ≤ deleteCount →
  actual_count l start deleteCount =
    Nat.min (Z.to_nat deleteCount) (length l - Z.to_nat start).
Proof.
  intros Hs Hd. unfold actual_count, relative.
  destruct (Z.ltb_spec start 0); [lia|]. unfold len in *. lia.
Qed.

Lemma slice_prefix l start :
  slice l 0 start = take (actual_start l start) l.
Proof.
  unfold slice, actual_start. pose proof (len_nonneg l).
  replace (relative (len l) 0) with 0 by (unfold relative; cbn; lia).
  cbn [Z.to_nat drop]. f_equal.
  pose proof (relative_bounds (len l) start). lia.
Qed.

Lemma slice_all l : slice l 0 (len l) = l.
Proof.
  rewrite slice_prefix. unfold actual_start, relative.
  pose proof (len_nonneg l). destruct (Z.ltb_spec (len l) 0); [lia|].
  rewrite Z.min_id. unfold len. rewrite Nat2Z.id. apply firstn_all.
Qed.

Lemma splice_length l start deleteCount items :
  length (fst (splice l start deleteCount items)) =
    (length l - actual_count l start deleteCount + length items)%nat.
Proof.
  rewrite splice_unfold. cbn [fst].
  pose proof (actual_count_le l start deleteCount).
  rewrite !length_app, length_take, length_drop. lia.
Qed.
(** Inserting at the front, and deleting a prefix. *)
Lemma splice_insert_front l items : splice l 0 0 items = (items ++ l, []).
Proof.
  pose proof (len_nonneg l).
  rewrite splice_unfold, actual_start_in_range, actual_count_in_range by lia.
  change (Z.to_nat 0) with 0%nat. by rewrite Nat.min_0_l.
Qed.

Lemma splice_delete_front l1 l2 n :
  n = len l1 → splice (l1 ++ l2) 0 n [] = (l2, l1).
Proof.
  intros ->. pose proof (len_nonneg (l1 ++ l2)). pose proof (len_nonneg l1).
  rewrite splice_unfold, actual_start_in_range, actual_count_in_range by lia.
  change (Z.to_nat 0) with 0%nat. unfold len. rewrite Nat2Z.id, length_app.
  replace (Nat.min (length l1) (length l1 + length l2 - 0)) with (length l1) by lia.
  rewrite Nat.add_0_l, drop_0, take_0, drop_app_length, take_app_length. done.
Qed.
(** Replacing a middle segment, and inserting at a given position. *)
Lemma splice_middle l1 l2 l3 items :
  splice (l1 ++ l2 ++ l3) (len l1) (len l2) items = (l1 ++ items ++ l3, l2).
Proof.
  pose proof (len_nonneg l1). pose proof (len_nonneg l2). pose proof (len_nonneg l3).
  rewrite splice_unfold, actual_start_in_range, actual_count_in_range
    by (rewrite ?len_app; lia).
  unfold len. rewrite !Nat2Z.id, !length_app.
  replace (Nat.min (length l2) (length l1 + (length l2 + length l3) - length l1))
    with (length l2) by lia.
  rewrite take_app_length, drop_app_length.
  rewrite <- drop_drop, drop_app_length, drop_app_length, take_app_length. done.
Qed.

Lemma splice_insert_at l1 l3 pos items :
  0 ≤ pos → length l1 = Z.to_nat pos →
  splice (l1 ++ l3) pos 0 items = (l1 ++ items ++ l3, []).
Proof.
  intros Hpos Hl. pose proof (splice_middle l1 [] l3 items) as Hm.
  cbn [app] in Hm. replace (len l1) with pos in Hm by (unfold len; lia). done.
Qed.

(** The three segments a [splice] distinguishes. *)
Lemma splice_segments l start deleteCount :
  l = take (actual_start l start) l ++
      take (actual_count l start deleteCount) (drop (actual_start l start) l) ++
      drop (actual_start l start + actual_count l start deleteCount) l.
Proof. by rewrite <- drop_drop, !take_drop. Qed.

Lemma actual_count_zero l start : actual_count l start 0 = 0%nat.
Proof.
  unfold actual_count. pose proof (relative_bounds (len l) start (len_nonneg l)). lia.
Qed.
End Arrays.

Section Positions.
Context {A : Type}.
Implicit Types (l f : list A) (s d i j k : nat) (h : A).

(** Where the elements of [take s l ++ f ++ drop (s + d) l] come from. *)
Lemma lookup_spliced l f s d i h :
  (s + d ≤ length l)%nat →
  (take s l ++ f ++ drop (s + d) l) !! i = Some h ↔
    (i < s)%nat ∧ l !! i = Some h ∨
    (s ≤ i < s + length f)%nat ∧ f !! (i - s)%nat = Some h ∨
    (s + length f ≤ i)%nat ∧ l !! (i - length f + d)%nat = Some h.
Proof.
  intros Hsd. destruct (decide (i < s)%nat) as [Hi|Hi].
  - rewrite lookup_app_l by (rewrite length_take; lia).
    rewrite lookup_take_lt by done. split; [auto|].
    intros [[_ ?]|[[? _]|[? _]]]; [done | lia | lia].
  - rewrite lookup_app_r by (rewrite length_take; lia).
    rewrite length_take, Nat.min_l by lia.
    destruct (decide (i - s < length f)%nat) as [Hf|Hf].
    + rewrite lookup_app_l by done. split.
      * intros E. right. left. split; [lia | done].
      * intros [[? _]|[[_ ?]|[? _]]]; [lia | done | lia].
    + rewrite lookup_app_r by lia. rewrite lookup_drop.
      replace (s + d + (i - s - length f))%nat with (i - length f + d)%nat by lia.
      split.
      * intros E. right. right. split; [lia | done].
      * intros [[? _]|[[? _]|[_ ?]]]; [lia | lia | done].
Qed.

Lemma elem_of_drop_lookup l k h :
  h ∈ drop k l ↔ ∃ j, (k ≤ j)%nat ∧ l !! j = Some h.
Proof.
  rewrite list_elem_of_lookup. split.
  - intros [i Hi]. rewrite lookup_drop in Hi. exists (k + i)%nat. split; [lia | done].
  - intros (j & Hj & E). exists (j - k)%nat. rewrite lookup_drop.
    by replace (k + (j - k))%nat with j by lia.
Qed.

Lemma elem_of_take_drop_lookup l s d h :
  h ∈ take d (drop s l) ↔ ∃ j, (s ≤ j < s + d)%nat ∧ l !! j = Some h.
Proof.
  rewrite elem_of_take. split.
  - intros (i & Hi & Hd). rewrite lookup_drop in Hi.
    exists (s + i)%nat. split; [lia | done].
  - intros (j & Hj & E). exists (j - s)%nat. rewrite lookup_drop.
    replace (s + (j - s))%nat with j by lia. split; [done | lia].
Qed.
End Positions.

(** Two arrays of the same length are clamped alike. *)
Lemma actual_start_same_length {A B} (l : list A) (l' : list B) start :
  length l = length l' → actual_start l start = actual_start l' start.
Proof. intros E. unfold actual_start, len. by rewrite E. Qed.

Lemma actual_count_same_length {A B} (l : list A) (l' : list B) start deleteCount :
  length l = length l' →
  actual_count l start deleteCount = actual_count l' start deleteCount.
Proof. intros E. unfold actual_count, len. by rewrite E. Qed.


(** On the values modelled, [===] holds between equal values only. *)
Lemma strict_equals_eq (x y : JS.value) : JS.strict_equals x y = true → x = y.
Proof.
  destruct x as [| |b|[|z]|s|r|r], y as [| |b'|[|z']|s'|r'|r']; cbn; try done.
  - intros Hb. f_equal. by destruct b, b'.
  - by intros ->%Z.eqb_eq.
  - by intros ->%String.eqb_eq.
  - by intros ->%Nat.eqb_eq.
  - by intros ->%Nat.eqb_eq.
Qed.

End JSFacts.

(** ** The store of index handles *)

Module StoreFacts.
Import ReactiveArray.

Implicit Types (σ : Store) (a b h : addr) (v k : Z) (l : list addr).

(** Handles hold integers, on which [!==] is disequality: after
    [handle.set(v)] the handle holds [v]. *)
Lemma set_number_value (c : ReactivePrimitive.t Z) v noUpdate :
  ReactivePrimitive.value (fst (ReactivePrimitive.set c v noUpdate)) = v.
Proof.
  unfold ReactivePrimitive.set, strict_eq, Z_StrictEq.
  destruct (Z.eqb_spec v (ReactivePrimitive.value c)); cbn; congruence.
Qed.

Lemma next_assign σ a v : next (assign σ a v) = next σ.
Proof.
  unfold assign. destruct (cells σ !! a) as [c|]; [|done].
  by destruct (ReactivePrimitive.set c v []).
Qed.

Lemma read_assign σ a v b :
  read (assign σ a v) b =
    if decide (a = b) then (λ _, v) <$> read σ b else read σ b.
Proof.
  unfold assign, read. destruct (decide (a = b)) as [->|Hne].
  - destruct (cells σ !! b) as [c|] eqn:E; [|by rewrite E].
    pose proof (set_number_value c v []) as Hv.
    destruct (ReactivePrimitive.set c v []) as [c' log]. cbn in *.
    rewrite lookup_insert_eq. cbn. by rewrite Hv.
  - destruct (cells σ !! a) as [c|] eqn:E; [|done].
    destruct (ReactivePrimitive.set c v []) as [c' log]. cbn.
    by rewrite lookup_insert_ne.
Qed.

Lemma next_add_assign σ a k : next (add_assign σ a k) = next σ.
Proof.
  unfold add_assign. destruct (cells σ !! a); [apply next_assign | done].
Qed.

Lemma read_add_assign σ a k b :
  read (add_assign σ a k) b =
    if decide (a = b) then (λ x, x + k) <$> read σ b else read σ b.
Proof.
  unfold add_assign. destruct (cells σ !! a) as [c|] eqn:E.
  - rewrite read_assign. destruct (decide (a = b)) as [->|]; [|done].
    unfold read. by rewrite E.
  - destruct (decide (a = b)) as [->|]; [|done]. unfold read. by rewrite E.
Qed.

Lemma read_alloc σ v b :
  read (snd (alloc σ v)) b = if decide (b = next σ) then Some v else read σ b.
Proof.
  unfold alloc, read. cbn. destruct (decide (b = next σ)) as [->|Hne].
  - by rewrite lookup_insert_eq.
  - by rewrite lookup_insert_ne.
Qed.

Lemma empty_store_wf : store_wf empty_store.
Proof. intros a [x Hx]. unfold read, empty_store in Hx. cbn in Hx. by rewrite lookup_empty in Hx. Qed.

Lemma next_shift_all k l σ : next (shift_all k l σ) = next σ.
Proof.
  revert σ. induction l as [|a l IH]; intros σ; [done|].
  cbn. unfold shift_all in IH. by rewrite IH, next_add_assign.
Qed.

Lemma next_detach_all l σ : next (detach_all l σ) = next σ.
Proof.
  revert σ. induction l as [|a l IH]; intros σ; [done|].
  cbn. unfold detach_all in IH. by rewrite IH, next_assign.
Qed.

Lemma read_shift_all k l σ b :
  NoDup l →
  read (shift_all k l σ) b =
    if decide (b ∈ l) then (λ x, x + k) <$> read σ b else read σ b.
Proof.
  revert σ. induction l as [|a l IH]; intros σ Hnd.
  - cbn. destruct (decide (b ∈ [])) as [Hin|]; [by apply elem_of_nil in Hin | done].
  - apply NoDup_cons in Hnd as [Ha Hnd]. cbn. unfold shift_all in IH.
    rewrite IH by done. rewrite read_add_assign.
    destruct (decide (a = b)) as [->|Hne].
    + destruct (decide (b ∈ l)); [done|].
      destruct (decide (b ∈ b :: l)) as [|Hn]; [done|].
      exfalso. apply Hn. by left.
    + destruct (decide (b ∈ l)) as [Hin|Hnin].
      * destruct (decide (b ∈ a :: l)) as [|Hn]; [done|].
        exfalso. apply Hn. by right.
      * destruct (decide (b ∈ a :: l)) as [Hin|]; [|done].
        apply elem_of_cons in Hin as [->|]; done.
Qed.

Lemma read_detach_all l σ b :
  read (detach_all l σ) b =
    if decide (b ∈ l) then (λ _, -1) <$> read σ b else read σ b.
Proof.
  revert σ. induction l as [|a l IH]; intros σ.
  - cbn. destruct (decide (b ∈ [])) as [Hin|]; [by apply elem_of_nil in Hin | done].
  - cbn. unfold detach_all in IH. rewrite IH, read_assign.
    destruct (decide (a = b)) as [->|Hne].
    + destruct (decide (b ∈ b :: l)) as [|Hn]; [|exfalso; apply Hn; by left].
      destruct (decide (b ∈ l)); by destruct (read σ b).
    + destruct (decide (b ∈ l)) as [Hin|Hnin].
      * destruct (decide (b ∈ a :: l)) as [|Hn]; [done|].
        exfalso. apply Hn. by right.
      * destruct (decide (b ∈ a :: l)) as [Hin|]; [|done].
        apply elem_of_cons in Hin as [->|]; done.
Qed.

(** Fresh handles are allocated at consecutive addresses. *)
Lemma new_handles_spec (items : list JS.value) i start σ :
  fst (new_handles items i start σ) = seq (next σ) (length items) ∧
  next (snd (new_handles items i start σ)) = (next σ + length items)%nat ∧
  ∀ b, read (snd (new_handles items i start σ)) b =
         if decide (next σ ≤ b < next σ + length items)%nat
         then Some (i + Z.of_nat (b - next σ) + start)
         else read σ b.
Proof.
  revert i σ. induction items as [|x items IH]; intros i σ.
  - cbn. repeat split; [lia|]. intros b.
    destruct (decide (next σ ≤ b < next σ + 0)%nat); [lia | done].
  - cbn [new_handles length].
    destruct (alloc σ (i + start)) as [a σ1] eqn:Ea.
    pose proof (read_alloc σ (i + start)) as Hr. rewrite Ea in Hr. cbn [snd] in Hr.
    assert (a = next σ ∧ next σ1 = S (next σ)) as [-> Hn1].
    { unfold alloc in Ea. by inversion Ea. }
    specialize (IH (i + 1) σ1) as (IH1 & IH2 & IH3).
    destruct (new_handles items (i + 1) start σ1) as [others σ2]. cbn [fst snd] in *.
    rewrite IH1, IH2, Hn1. repeat split; [lia|]. intros b.
    rewrite IH3, Hr, Hn1.
    destruct (decide (S (next σ) ≤ b < S (next σ) + length items)%nat).
    + destruct (decide (next σ ≤ b < next σ + S (length items))%nat); [|lia].
      f_equal. lia.
    + destruct (decide (b = next σ)) as [->|].
      * destruct (decide (next σ ≤ next σ < next σ + S (length items))%nat); [|lia].
        f_equal. lia.
      * destruct (decide (next σ ≤ b < next σ + S (length items))%nat); [lia | done].
Qed.

(** The loop of [_adjustIndices] from a position that is not negative
    visits the handles from that position on. *)
Lemma shift_from_nonneg fuel l i k σ :
  0 ≤ i → (length l - Z.to_nat i ≤ fuel)%nat →
  shift_from fuel l i k σ = (shift_all k (drop (Z.to_nat i) l) σ, JS.Returns tt).
Proof.
  revert i σ. induction fuel as [|fuel IH]; intros i σ Hi Hfuel.
  - cbn. rewrite drop_ge by lia. done.
  - cbn [shift_from]. unfold JS.len. destruct (Z.ltb_spec i (Z.of_nat (length l))).
    + rewrite JSFacts.index_nonneg by done.
      destruct (l !! Z.to_nat i) as [a|] eqn:E.
      * rewrite IH by lia.
        replace (Z.to_nat (i + 1)) with (S (Z.to_nat i)) by lia.
        by rewrite (drop_S _ _ _ E).
      * apply lookup_ge_None in E. lia.
    + rewrite drop_ge by lia. done.
Qed.

(** From a negative position the first read is of an absent element. *)
Lemma shift_from_negative fuel l i k σ :
  i < 0 → (0 < fuel)%nat →
  shift_from fuel l i k σ = (σ, JS.Throws JS.TypeError).
Proof.
  intros Hi Hfuel. destruct fuel as [|fuel]; [lia|]. cbn [shift_from].
  pose proof (JSFacts.len_nonneg l).
  destruct (Z.ltb_spec i (JS.len l)); [|lia].
  by rewrite JSFacts.index_negative.
Qed.

End StoreFacts.

(** ** ReactiveArray: [splice] and the index handles *)

Module ReactiveArrayFacts.
Import ReactiveArray StoreFacts.

Section Facts.
Context `{DeepReactivity}.
Implicit Types (a : t) (σ : Store) (items : list JS.value) (start dc : Z).

(** What [_adjustIndices] does when its loop does not start at a negative
    position: the handles from [start + deleteCount] on are shifted, fresh
    handles are allocated for the items, and the handles spliced out are
    set to [-1]. *)
Lemma adjustIndices_nonneg a σ start dc items :
  NoDup (indices a) → 0 ≤ start + dc →
  let k := JS.len items - dc in
  let shifted := drop (Z.to_nat (start + dc)) (indices a) in
  let fresh := seq (next σ) (length items) in
  ∃ σ',
    _adjustIndices a σ start dc items =
      ({| value := value a;
          indices := fst (JS.splice (indices a) start dc fresh);
          callbacks := callbacks a |}, σ', JS.Returns tt) ∧
    next σ' = (next σ + length items)%nat ∧
    ∀ b, read σ' b =
      let r1 := if decide (b ∈ shifted)
                then (λ x, x + k) <$> read σ b else read σ b in
      let r2 := if decide (next σ ≤ b < next σ + length items)%nat
                then Some (Z.of_nat (b - next σ) + start) else r1 in
      if decide (b ∈ snd (JS.splice (indices a) start dc fresh))
      then (λ _, -1) <$> r2 else r2.
Proof.
  intros Hnd Hsd k shifted fresh. unfold _adjustIndices. fold k.
  assert (∃ σ1,
    (if k =? 0 then (σ, JS.Returns tt)
     else shift_from (Z.to_nat (JS.len (indices a) - (start + dc)))
                     (indices a) (start + dc) k σ) = (σ1, JS.Returns tt) ∧
    next σ1 = next σ ∧
    ∀ b, read σ1 b = if decide (b ∈ shifted)
                     then (λ x, x + k) <$> read σ b else read σ b)
    as (σ1 & -> & Hn1 & Hr1).
  { destruct (Z.eqb_spec k 0) as [Hk|Hk].
    - exists σ. repeat split. intros b. rewrite Hk.
      destruct (decide (b ∈ shifted)); [|done].
      destruct (read σ b) as [x|]; [|done]. cbn. f_equal. lia.
    - exists (shift_all k shifted σ). rewrite shift_from_nonneg; [| lia |].
      + repeat split; [apply next_shift_all|]. intros b.
        apply read_shift_all. eapply sublist_NoDup; [done | apply sublist_drop].
      + unfold JS.len. lia. }
  pose proof (new_handles_spec items 0 start σ1) as (Hf & Hn2 & Hr2).
  destruct (new_handles items 0 start σ1) as [fresh' σ2]. cbn [fst snd] in *.
  rewrite Hn1 in *. subst fresh'. fold fresh.
  destruct (JS.splice (indices a) start dc fresh) as [indices' removed] eqn:Es.
  cbn [fst snd].
  eexists. split; [reflexivity|]. split.
  - by rewrite next_detach_all.
  - intros b. cbn zeta. rewrite read_detach_all, Hr2, Hr1.
    repeat (case_decide; try done); f_equal; lia.
Qed.

Lemma handle_allocated a σ i h :
  handles_ok a σ → indices a !! i = Some h → (h < next σ)%nat.
Proof.
  intros (_ & _ & Hpos & Hwf) Hi. apply Hwf. rewrite (Hpos _ _ Hi). eauto.
Qed.

(** The handles after a call in range, one by one: a handle of the array
    that is spliced out holds [-1], one behind the deleted range has moved
    by the net change of length, one before it is as it was; the fresh
    handles hold the positions of the inserted items; and no other handle
    of the store is touched. *)
Lemma adjustIndices_in_range a σ start dc items :
  handles_ok a σ → 0 ≤ start ≤ JS.len (value a) → 0 ≤ dc →
  let s := Z.to_nat start in
  let d := Nat.min (Z.to_nat dc) (length (indices a) - s) in
  let n := length items in
  ∃ σ',
    _adjustIndices a σ start dc items =
      ({| value := value a;
          indices := take s (indices a) ++ seq (next σ) n ++ drop (s + d) (indices a);
          callbacks := callbacks a |}, σ', JS.Returns tt) ∧
    next σ' = (next σ + n)%nat ∧
    (∀ j h, indices a !! j = Some h →
       read σ' h = if decide (s ≤ j < s + d)%nat then Some (-1)
                   else if decide (s + d ≤ j)%nat then Some (Z.of_nat (j + n - d))
                   else Some (Z.of_nat j)) ∧
    (∀ m, (m < n)%nat → read σ' (next σ + m)%nat = Some (Z.of_nat (s + m))) ∧
    (∀ h, h ∉ indices a → (h < next σ)%nat → read σ' h = read σ h) ∧
    store_wf σ'.
Proof.
  intros Hok Hs Hd s d n.
  pose proof Hok as (Hlen & Hnd & Hpos & Hwf).
  assert (Hs' : 0 ≤ start ≤ JS.len (indices a)) by (unfold JS.len in *; lia).
  destruct (adjustIndices_nonneg a σ start dc items Hnd ltac:(lia))
    as (σ' & Hadj & Hnext & Hread).
  rewrite JSFacts.splice_unfold in Hadj, Hread. cbn [fst snd] in Hadj, Hread.
  rewrite (JSFacts.actual_start_in_range _ _ Hs') in Hadj, Hread.
  rewrite (JSFacts.actual_count_in_range _ _ _ Hs' Hd) in Hadj, Hread.
  fold s d n in Hadj, Hread.
  exists σ'. split; [done|]. split; [done|].
  assert (Hremoved : ∀ j h, indices a !! j = Some h →
            h ∈ take d (drop s (indices a)) ↔ (s ≤ j < s + d)%nat).
  { intros j h Hj. rewrite JSFacts.elem_of_take_drop_lookup. split.
    - intros (j' & Hj' & E). by rewrite (NoDup_lookup _ _ _ _ Hnd Hj E).
    - intros Hr. by exists j. }
  assert (Hshifted : ∀ j h, indices a !! j = Some h →
            h ∈ drop (Z.to_nat (start + dc)) (indices a) ↔
            (Z.to_nat (start + dc) ≤ j)%nat).
  { intros j h Hj. rewrite JSFacts.elem_of_drop_lookup. split.
    - intros (j' & Hj' & E). by rewrite (NoDup_lookup _ _ _ _ Hnd Hj E).
    - intros Hr. by exists j. }
  split; [|split; [|split]].
  - intros j h Hj. rewrite Hread. cbn zeta.
    pose proof (handle_allocated _ _ _ _ Hok Hj) as Halloc.
    pose proof (lookup_lt_Some _ _ _ Hj) as Hjlt.
    rewrite (Hpos _ _ Hj).
    destruct (decide (next σ ≤ h < next σ + n)%nat); [lia|].
    destruct (decide (s ≤ j < s + d)%nat) as [Hin|Hout].
    + rewrite decide_True by (by apply (Hremoved j)).
      by destruct (decide (h ∈ drop (Z.to_nat (start + dc)) (indices a))).
    + rewrite decide_False by (by rewrite (Hremoved j)).
      destruct (decide (s + d ≤ j)%nat) as [Hafter|Hbefore].
      * rewrite decide_True by (apply (Hshifted j); [done | subst s d; lia]).
        cbn. f_equal. unfold JS.len. fold n. subst s d. lia.
      * rewrite decide_False; [done|]. rewrite (Hshifted j) by done. subst s d. lia.
  - intros m Hm. rewrite Hread. cbn zeta.
    assert (Hnotold : ∀ l', (next σ + m)%nat ∈ l' → l' `sublist_of` indices a → False).
    { intros l' Hin Hsub. eapply elem_of_sublist in Hin; [|done].
      apply list_elem_of_lookup in Hin as [j Hj].
      pose proof (handle_allocated _ _ _ _ Hok Hj). lia. }
    rewrite decide_False.
    + rewrite decide_True by lia. f_equal. subst s. lia.
    + intros Hin. apply (Hnotold _ Hin).
      etrans; [apply sublist_take | apply sublist_drop].
  - intros h Hnot Hlt. rewrite Hread. cbn zeta.
    rewrite decide_False.
    + rewrite decide_False by lia. rewrite decide_False; [done|].
      intros Hin. apply Hnot. eapply elem_of_sublist; [done | apply sublist_drop].
    + intros Hin. apply Hnot. eapply elem_of_sublist; [done|].
      etrans; [apply sublist_take | apply sublist_drop].
  - intros b [x Hx]. rewrite Hnext. rewrite Hread in Hx. cbn zeta in Hx.
    destruct (decide (next σ ≤ b < next σ + n)%nat); [lia|].
    assert (is_Some (read σ b)) as Hb.
    { repeat case_decide; destruct (read σ b); cbn in *; eauto; done. }
    apply Hwf in Hb. lia.
Qed.

(** A call in range returns the deleted items and keeps the handles right:
    the handle at every position holds that position, the handles kept are
    those of the items kept, the handles spliced out hold [-1], and no
    handle outside the array is touched. *)
Lemma splice_in_range a σ c :
  handles_ok a σ → in_range a c →
  let start := c_start c in
  let dc := default (JS.len (value a) - start) (c_deleteCount c) in
  let s := Z.to_nat start in
  let d := Nat.min (Z.to_nat dc) (length (value a) - s) in
  let reactiveItems := makeNonPrimitiveItemsReactive (c_items c) in
  ∃ a' σ' tasks,
    splice a σ start (c_deleteCount c) (c_items c) =
      (a', σ', JS.Returns (take d (drop s (value a)), tasks)) ∧
    value a' = take s (value a) ++ reactiveItems ++ drop (s + d) (value a) ∧
    indices a' = take s (indices a) ++ seq (next σ) (length (c_items c)) ++
                 drop (s + d) (indices a) ∧
    removed_handles a c = take d (drop s (indices a)) ∧
    handles_ok a' σ' ∧
    (∀ h, h ∈ removed_handles a c → read σ' h = Some (-1)) ∧
    (∀ h, h ∉ indices a → (h < next σ)%nat → read σ' h = read σ h) ∧
    (next σ ≤ next σ')%nat.
Proof.
  intros Hok [Hs Hd] start dc s d reactiveItems.
  fold start dc in Hs, Hd.
  pose proof Hok as (Hlen & Hnd & Hpos & Hwf).
  destruct (adjustIndices_in_range a σ start dc (c_items c) Hok Hs Hd)
    as (σ' & Hadj & Hnext & Hold & Hfresh & Hframe & Hwf').
  cbn zeta in Hadj, Hold, Hfresh. rewrite Hlen in Hadj, Hold. fold s d in Hadj, Hold, Hfresh.
  set (n := length (c_items c)) in *.
  assert (Hs' : 0 ≤ start ≤ JS.len (indices a)) by (unfold JS.len in *; lia).
  assert (Hrem : removed_handles a c = take d (drop s (indices a))).
  { unfold removed_handles. fold start dc. rewrite JSFacts.splice_unfold. cbn [snd].
    rewrite (JSFacts.actual_start_in_range _ _ Hs').
    rewrite (JSFacts.actual_count_in_range _ _ _ Hs' Hd). by rewrite Hlen. }
  assert (Hval : JS.splice (value a) start dc reactiveItems =
                 (take s (value a) ++ reactiveItems ++ drop (s + d) (value a),
                  take d (drop s (value a)))).
  { rewrite JSFacts.splice_unfold.
    rewrite (JSFacts.actual_start_in_range _ _ Hs).
    by rewrite (JSFacts.actual_count_in_range _ _ _ Hs Hd). }
  unfold splice. fold dc.
  destruct (Z.gtb_spec start (JS.len (value a))); [lia|].
  rewrite Hadj. cbn [value indices callbacks]. fold reactiveItems. rewrite Hval.
  eexists _, _, _. split; [reflexivity|]. cbn [value indices].
  split; [done|]. split; [done|]. split; [done|].
  assert (Hsd : (s + d ≤ length (indices a))%nat) by (subst s d; unfold JS.len in *; lia).
  split; [|split; [|split]].
  - (* the handles are right afterwards *)
    repeat split; cbn [value indices]; [| |  | done].
    + rewrite !length_app, !length_take, !length_drop, length_seq.
      unfold reactiveItems, makeNonPrimitiveItemsReactive. rewrite length_map.
      lia.
    + apply NoDup_alt. intros i1 i2 h H1 H2.
      apply (JSFacts.lookup_spliced _ _ _ _ _ _ Hsd) in H1, H2.
      rewrite length_seq in H1, H2.
      destruct H1 as [[B1 E1]|[[B1 E1]|[B1 E1]]], H2 as [[B2 E2]|[[B2 E2]|[B2 E2]]];
        try (apply lookup_seq in E1 as [-> _]);
        try (apply lookup_seq in E2 as [E2 _]);
        try (pose proof (handle_allocated _ _ _ _ Hok E1));
        try (pose proof (handle_allocated _ _ _ _ Hok E2));
        try (pose proof (NoDup_lookup _ _ _ _ Hnd E1 E2));
        lia.
    + intros i h Hi.
      apply (JSFacts.lookup_spliced _ _ _ _ _ _ Hsd) in Hi. rewrite length_seq in Hi.
      destruct Hi as [[B E]|[[B E]|[B E]]].
      * rewrite (Hold _ _ E). rewrite decide_False by lia. by rewrite decide_False by lia.
      * apply lookup_seq in E as [-> Hm]. rewrite Hfresh by done. f_equal. lia.
      * rewrite (Hold _ _ E). rewrite decide_False by lia. rewrite decide_True by lia.
        f_equal. lia.
  - intros h Hh. rewrite Hrem in Hh.
    apply JSFacts.elem_of_take_drop_lookup in Hh as (j & Hj & E).
    rewrite (Hold _ _ E). by rewrite decide_True.
  - done.
  - lia.
Qed.

(** [_adjustIndices] touches neither the items nor the listeners. *)
Lemma adjustIndices_keeps a σ start dc items :
  value (fst (fst (_adjustIndices a σ start dc items))) = value a ∧
  callbacks (fst (fst (_adjustIndices a σ start dc items))) = callbacks a.
Proof.
  unfold _adjustIndices.
  destruct (if JS.len items - dc =? 0 then _ else _) as [σ1 [u|e]]; [|done].
  destruct (new_handles items 0 start σ1) as [fresh σ2].
  by destruct (JS.splice (indices a) start dc fresh).
Qed.

(** A call with [start] beyond the end throws a [RangeError] and leaves the
    array and the store as they were. *)
Lemma splice_out_of_bounds a σ start deleteCount items :
  JS.len (value a) < start →
  splice a σ start deleteCount items = (a, σ, JS.Throws JS.RangeError).
Proof.
  intros Hs. unfold splice.
  destruct (Z.gtb_spec start (JS.len (value a))); [done | lia].
Qed.

(** When [splice] returns, the items are those of the native [splice] on
    [#value], the deleted items are returned, and every listener has one
    task queued with the arguments of the call. *)
Lemma splice_returns a σ start deleteCount items a' σ' deleted tasks :
  splice a σ start deleteCount items = (a', σ', JS.Returns (deleted, tasks)) →
  let dc := default (JS.len (value a) - start) deleteCount in
  let reactiveItems := makeNonPrimitiveItemsReactive items in
  start ≤ JS.len (value a) ∧
  value a' = fst (JS.splice (value a) start dc reactiveItems) ∧
  deleted = snd (JS.splice (value a) start dc reactiveItems) ∧
  callbacks a' = callbacks a ∧
  tasks = map (λ callback, (callback, mkUpdate start dc reactiveItems)) (callbacks a).
Proof.
  intros E dc reactiveItems. unfold splice in E.
  change (default (JS.len (value a) - start) deleteCount) with dc in E.
  change (makeNonPrimitiveItemsReactive items) with reactiveItems in E.
  destruct (Z.gtb_spec start (JS.len (value a))); [done|].
  pose proof (adjustIndices_keeps a σ start dc items) as [Hv Hc].
  destruct (_adjustIndices a σ start dc items) as [[a1 σ1] [u|e]]; [|done].
  cbn [fst] in Hv, Hc. rewrite Hv, Hc in E.
  destruct (JS.splice (value a) start dc reactiveItems) as [value' deletedItems].
  unfold _dispatchUpdateEvents in E. cbn in E.
  inversion E; subst. cbn. repeat split. lia.
Qed.
(** [_adjustIndices] returns unless its loop starts at a negative position;
    then it throws a [TypeError] before it has changed anything. *)
Lemma adjustIndices_returns a σ start dc items :
  JS.len items - dc = 0 ∨ 0 ≤ start + dc →
  ∃ a1 σ1, _adjustIndices a σ start dc items = (a1, σ1, JS.Returns tt).
Proof.
  intros Hcase. unfold _adjustIndices.
  assert (∃ σ1,
    (if JS.len items - dc =? 0 then (σ, JS.Returns tt)
     else shift_from (Z.to_nat (JS.len (indices a) - (start + dc)))
                     (indices a) (start + dc) (JS.len items - dc) σ)
    = (σ1, JS.Returns tt)) as [σ1 ->].
  { destruct (Z.eqb_spec (JS.len items - dc) 0) as [|Hk]; [by eexists|].
    destruct Hcase as [|Hsd]; [done|].
    rewrite shift_from_nonneg; [by eexists | lia | unfold JS.len; lia]. }
  destruct (new_handles items 0 start σ1) as [fresh σ2].
  destruct (JS.splice (indices a) start dc fresh). by eexists _, _.
Qed.

Lemma adjustIndices_throws a σ start dc items :
  JS.len items - dc ≠ 0 → start + dc < 0 →
  _adjustIndices a σ start dc items = (a, σ, JS.Throws JS.TypeError).
Proof.
  intros Hk Hsd. unfold _adjustIndices.
  destruct (Z.eqb_spec (JS.len items - dc) 0); [done|].
  rewrite shift_from_negative; [done | done |].
  pose proof (JSFacts.len_nonneg (indices a)). lia.
Qed.

(** The outcome of [splice], case by case. *)
Lemma splice_succeeds a σ start deleteCount items :
  let dc := default (JS.len (value a) - start) deleteCount in
  let reactiveItems := makeNonPrimitiveItemsReactive items in
  start ≤ JS.len (value a) →
  JS.len items - dc = 0 ∨ 0 ≤ start + dc →
  ∃ a' σ' tasks,
    splice a σ start deleteCount items =
      (a', σ', JS.Returns (snd (JS.splice (value a) start dc reactiveItems), tasks)) ∧
    value a' = fst (JS.splice (value a) start dc reactiveItems).
Proof.
  intros dc reactiveItems Hs Hcase.
  destruct (adjustIndices_returns a σ start dc items Hcase) as (a1 & σ1 & Hadj).
  pose proof (adjustIndices_keeps a σ start dc items) as [Hv _].
  rewrite Hadj in Hv. cbn [fst] in Hv.
  unfold splice. fold dc reactiveItems.
  destruct (Z.gtb_spec start (JS.len (value a))); [lia|].
  rewrite Hadj, Hv.
  destruct (JS.splice (value a) start dc reactiveItems) as [value' deleted].
  by eexists _, _, _.
Qed.

Lemma splice_throws_TypeError a σ start deleteCount items :
  let dc := default (JS.len (value a) - start) deleteCount in
  start ≤ JS.len (value a) →
  JS.len items - dc ≠ 0 → start + dc < 0 →
  splice a σ start deleteCount items = (a, σ, JS.Throws JS.TypeError).
Proof.
  intros dc Hs Hk Hsd. unfold splice. fold dc.
  destruct (Z.gtb_spec start (JS.len (value a))); [lia|].
  by rewrite adjustIndices_throws.
Qed.

(** [splice] is [splice_converting] for a conversion that returns what
    [makeNonPrimitiveItemsReactive] yields and notifies nobody. *)
Lemma splice_without_updates a σ start deleteCount items :
  let r := splice_converting
             {| parent_updates := 0;
                converted := JS.Returns (makeNonPrimitiveItemsReactive items) |}
             a σ start deleteCount items in
  splice a σ start deleteCount items =
    (fst (fst (fst r)), snd (fst (fst r)),
     match snd r with
     | JS.Returns deleted => JS.Returns (deleted, snd (fst r))
     | JS.Throws e => JS.Throws e
     end).
Proof.
  cbn zeta. unfold splice, splice_converting. cbn [parent_updates converted].
  destruct (start >? JS.len (value a)); [done|].
  destruct (_adjustIndices a σ start _ items) as [[a1 σ1] [u|e]]; [|done].
  by destruct (JS.splice (value a1) start _ _).
Qed.

(** When [splice_converting] returns, the conversion returned, the items
    are those of the native [splice] on [#value] with the converted items,
    and every listener has the notifications of the conversion queued, and
    then one with the arguments of the call. *)
Lemma splice_converting_returns conversion a σ start deleteCount items
  a' σ' tasks deleted :
  splice_converting conversion a σ start deleteCount items
    = (a', σ', tasks, JS.Returns deleted) →
  let dc := default (JS.len (value a) - start) deleteCount in
  ∃ reactiveItems,
    converted conversion = JS.Returns reactiveItems ∧
    start ≤ JS.len (value a) ∧
    value a' = fst (JS.splice (value a) start dc reactiveItems) ∧
    deleted = snd (JS.splice (value a) start dc reactiveItems) ∧
    callbacks a' = callbacks a ∧
    tasks = forced_updates a (parent_updates conversion) ++
            map (λ callback, (callback, mkUpdate start dc reactiveItems)) (callbacks a).
Proof.
  intros E dc. unfold splice_converting in E.
  change (default (JS.len (value a) - start) deleteCount) with dc in E.
  destruct (Z.gtb_spec start (JS.len (value a))); [done|].
  pose proof (adjustIndices_keeps a σ start dc items) as [Hv Hc].
  destruct (_adjustIndices a σ start dc items) as [[a1 σ1] [u|e]]; [|done].
  cbn [fst] in Hv, Hc.
  destruct (converted conversion) as [reactiveItems|e]; [|done].
  exists reactiveItems. rewrite Hv, Hc in E.
  destruct (JS.splice (value a) start dc reactiveItems) as [value' deletedItems].
  unfold forced_updates, _dispatchUpdateEvents in E. cbn in E.
  inversion E; subst. cbn. unfold forced_updates, _dispatchUpdateEvents.
  rewrite Hc. repeat split. lia.
Qed.

(** The outcome of [splice_converting] once the range check and
    [_adjustIndices] are passed: it is decided by the conversion. *)
Lemma splice_converting_outcome conversion a σ start deleteCount items :
  let dc := default (JS.len (value a) - start) deleteCount in
  start ≤ JS.len (value a) →
  JS.len items - dc = 0 ∨ 0 ≤ start + dc →
  ∃ a1 σ1,
    _adjustIndices a σ start dc items = (a1, σ1, JS.Returns tt) ∧
    value a1 = value a ∧ callbacks a1 = callbacks a ∧
    match converted conversion with
    | JS.Throws e =>
        splice_converting conversion a σ start deleteCount items =
          (a1, σ1, forced_updates a (parent_updates conversion), JS.Throws e)
    | JS.Returns reactiveItems =>
        ∃ a' tasks,
          splice_converting conversion a σ start deleteCount items =
            (a', σ1, tasks,
             JS.Returns (snd (JS.splice (value a) start dc reactiveItems))) ∧
          value a' = fst (JS.splice (value a) start dc reactiveItems) ∧
          indices a' = indices a1
    end.
Proof.
  intros dc Hs Hcase.
  destruct (adjustIndices_returns a σ start dc items Hcase) as (a1 & σ1 & Hadj).
  pose proof (adjustIndices_keeps a σ start dc items) as [Hv Hc].
  rewrite Hadj in Hv, Hc. cbn [fst] in Hv, Hc.
  exists a1, σ1. split; [done|]. split; [done|]. split; [done|].
  unfold splice_converting. fold dc.
  destruct (Z.gtb_spec start (JS.len (value a))); [lia|].
  rewrite Hadj, Hv. unfold forced_updates, _dispatchUpdateEvents. rewrite Hc.
  destruct (converted conversion) as [reactiveItems|e]; [|done].
  destruct (JS.splice (value a) start dc reactiveItems) as [value' deleted].
  by eexists _, _.
Qed.

(** A new array has its handles right. *)
Lemma new_handles_ok (input : list JS.value) σ :
  store_wf σ → handles_ok (fst (new input σ)) (snd (new input σ)).
Proof.
  intros Hwf. unfold new.
  pose proof (new_handles_spec input 0 0 σ) as (Hf & Hn & Hr).
  destruct (new_handles input 0 0 σ) as [handles σ1]. cbn [fst snd] in *.
  subst handles. repeat split; cbn [value indices].
  - unfold makeNonPrimitiveItemsReactive. by rewrite length_seq, length_map.
  - apply NoDup_seq.
  - intros i h Hi. apply lookup_seq in Hi as [-> Hi]. rewrite Hr.
    rewrite decide_True by lia. f_equal. lia.
  - intros b [x Hx]. rewrite Hn. rewrite Hr in Hx.
    destruct (decide (next σ ≤ b < next σ + length input)%nat); [lia|].
    assert (b < next σ)%nat by (apply Hwf; eauto). lia.
Qed.

(** Under calls in range the handles stay right, and a handle that was
    spliced out holds [-1] from then on and is never reused. *)
Lemma reached_handles_ok a0 σ0 a σ detached :
  handles_ok a0 σ0 → reached a0 σ0 a σ detached →
  handles_ok a σ ∧
  ∀ h, h ∈ detached → read σ h = Some (-1) ∧ h ∉ indices a.
Proof.
  intros H0 Hreach.
  induction Hreach as [|a σ detached c a' σ' r Hreach [IHok IHd] Hrange Hsplice].
  - split; [done|]. intros h Hh. by apply elem_of_nil in Hh.
  - destruct (splice_in_range a σ c IHok Hrange)
      as (a1 & σ1 & tasks & Hs & _ & _ & _ & Hok' & Hrem & Hframe & Hnext).
    cbn zeta in Hs. rewrite Hsplice in Hs. inversion Hs; subst a1 σ1.
    split; [done|].
    assert (Hminus : ∀ h, read σ' h = Some (-1) → h ∉ indices a').
    { intros h Hh Hin. apply list_elem_of_lookup in Hin as [i Hi].
      destruct Hok' as (_ & _ & Hpos & _). rewrite (Hpos _ _ Hi) in Hh.
      inversion Hh. lia. }
    intros h Hh. apply elem_of_app in Hh as [Hh|Hh].
    + destruct (IHd h Hh) as [Hread Hnot].
      assert (read σ' h = Some (-1)) as Hread'.
      { rewrite Hframe; [done | done |].
        destruct IHok as (_ & _ & _ & Hwf). apply Hwf. rewrite Hread. eauto. }
      split; [done | by apply Hminus].
    + split; [by apply Hrem | by apply Hminus, Hrem].
Qed.
(** C7, amended. [splice(0, 0, ...X)] followed by [splice(0, X.length)],
    when the conversion of the items of [X] returns (with one item for
    each item of [X], whatever it notifies): both calls return, the first
    puts the converted items in front, and the items read afterwards are
    the items read before. *)
Theorem splice_insert_then_delete_restores a σ (X : list JS.value)
  conversion reactiveItems :
  converted conversion = JS.Returns reactiveItems →
  length reactiveItems = length X →
  ∃ a1 σ1 tasks1 a2 σ2 r2,
    splice_converting conversion a σ 0 (Some 0) X
      = (a1, σ1, tasks1, JS.Returns []) ∧
    value a1 = reactiveItems ++ value a ∧
    splice a1 σ1 0 (Some (JS.len X)) [] = (a2, σ2, JS.Returns r2) ∧
    get_value a2 = get_value a.
Proof.
  intros Hconv HlenX.
  pose proof (JSFacts.len_nonneg (value a)) as Hlen.
  pose proof (JSFacts.len_nonneg X) as HlenX'.
  destruct (splice_converting_outcome conversion a σ 0 (Some 0) X)
    as (a0 & σ1 & _ & _ & _ & Hout); [cbn; lia | cbn; lia |].
  rewrite Hconv in Hout. destruct Hout as (a1 & tasks1 & E1 & V1 & _).
  change (default _ (Some 0)) with 0 in E1, V1.
  rewrite JSFacts.splice_insert_front in E1, V1. cbn [fst snd] in E1, V1.
  pose proof (JSFacts.len_nonneg (value a1)) as Hlen1.
  destruct (splice_succeeds a1 σ1 0 (Some (JS.len X)) []) as (a2 & σ2 & t2 & E2 & V2);
    [cbn; lia | cbn; lia |].
  change (default _ (Some (JS.len X))) with (JS.len X) in E2, V2.
  rewrite V1 in V2. cbn [makeNonPrimitiveItemsReactive map] in V2.
  rewrite JSFacts.splice_delete_front in V2 by (unfold JS.len; by rewrite HlenX).
  eexists _, _, _, _, _, _. split; [exact E1|]. split; [done|].
  split; [exact E2|]. unfold get_value. by rewrite V2.
Qed.
End Facts.

#[local] Existing Instance already_reactive.

(** *** The round trip on [[1, 2, 3]] with a plain object

    The object [0] stands for a plain object such as [{a: 1}]. When it is
    extensible its conversion returns the object, after two calls of
    [update]. *)
Lemma splice_insert_then_delete_restores_witness :
  let a := fst one_two_three in
  let σ := snd one_two_three in
  let X := [JS.Object 0] in
  let conversion := {| parent_updates := 2; converted := JS.Returns [JS.Object 0] |} in
  ∃ a1 σ1 tasks1 a2 σ2 r2,
    splice_converting conversion a σ 0 (Some 0) X
      = (a1, σ1, tasks1, JS.Returns []) ∧
    value a1 = [JS.Object 0] ++ value a ∧
    splice a1 σ1 0 (Some (JS.len X)) [] = (a2, σ2, JS.Returns r2) ∧
    get_value a2 = get_value a.
Proof.
  cbn zeta.
  apply (splice_insert_then_delete_restores (fst one_two_three) (snd one_two_three)
           [JS.Object 0]
           {| parent_updates := 2; converted := JS.Returns [JS.Object 0] |}
           [JS.Object 0]).
  - reflexivity.
  - reflexivity.
Defined.

(** C7, as stated, fails when the conversion throws. On [[1, 2, 3]],
    [splice(0, 0, o)] with a plain object [o] that is not extensible, such
    as [Object.freeze({a: 1})], throws a [TypeError] out of [reactive]: the
    items are as before, but [_adjustIndices] has run, so there are four
    handles for three items. [splice(0, 1)] then returns and removes the
    item [1]: the items read afterwards are [[2, 3]], not the items read
    before. *)
Lemma splice_round_trip_after_failed_conversion :
  let a := fst one_two_three in
  let σ := snd one_two_three in
  let X := [JS.Object 0] in
  let conversion := {| parent_updates := 1; converted := JS.Throws JS.TypeError |} in
  let first := splice_converting conversion a σ 0 (Some 0) X in
  let a1 := fst (fst (fst first)) in
  let σ1 := snd (fst (fst first)) in
  let second := splice a1 σ1 0 (Some (JS.len X)) [] in
  let a2 := fst (fst second) in
  snd first = JS.Throws JS.TypeError ∧
  get_value a1 = get_value a ∧
  map (read σ1) (indices a1) = [Some 0; Some 1; Some 2; Some 3] ∧
  (∃ tasks, snd second = JS.Returns ([JS.num 1], tasks)) ∧
  get_value a2 = [JS.num 2; JS.num 3] ∧
  get_value a = [JS.num 1; JS.num 2; JS.num 3] ∧
  get_value a2 ≠ get_value a.
Proof.
  cbn zeta. split; [by vm_compute|]. split; [by vm_compute|].
  split; [by vm_compute|]. split; [by eexists|].
  split; [by vm_compute|]. split; [by vm_compute|].
  by vm_compute.
Qed.

(** C4. After [pop()], which is [splice(-1, 1)], on [[1, 2, 3]] the items
    are [[1, 2]] but their handles hold [-1] and [0]: the loop of
    [_adjustIndices] starts at [start + deleteCount = 0] and shifts every
    handle, so the handles of the surviving items no longer hold their
    positions. *)
Theorem pop_breaks_index_handles :
  let a := fst one_two_three in
  let σ := snd one_two_three in
  let a' := fst (fst (pop a σ)) in
  let σ' := snd (fst (pop a σ)) in
  handles_ok a σ ∧
  (∃ tasks, snd (pop a σ) = JS.Returns (Some (JS.num 3), tasks)) ∧
  value a' = [JS.num 1; JS.num 2] ∧
  length (indices a') = length (value a') ∧
  map (read σ') (indices a') = [Some (-1); Some 0] ∧
  map (read σ') (indices a) = [Some (-1); Some 0; Some (-1)] ∧
  ¬ handles_ok a' σ'.
Proof.
  cbn zeta. split; [apply new_handles_ok, empty_store_wf|].
  split; [by eexists|]. repeat (split; [by vm_compute|]).
  intros (_ & _ & Hpos & _).
  specialize (Hpos 0%nat 0%nat eq_refl). by vm_compute in Hpos.
Qed.

(** C5. [splice(-2, 1)] on [[1, 2, 3]] has [start] at most the item count,
    and [Array.prototype.splice] would delete and return [[2]]; the call
    throws a [TypeError] instead, from the read of [this.#indices[-1]] in
    [_adjustIndices], and leaves the array as it was. *)
Theorem splice_negative_start_throws :
  let a := fst one_two_three in
  let σ := snd one_two_three in
  -2 ≤ JS.len (value a) ∧
  JS.splice (value a) (-2) 1 [] = ([JS.num 1; JS.num 3], [JS.num 2]) ∧
  splice a σ (-2) (Some 1) [] = (a, σ, JS.Throws JS.TypeError).
Proof. cbn zeta. split; [by vm_compute|]. split; by vm_compute. Qed.

(** The part of C5 that the code keeps: beyond the end a [RangeError] and no
    change; from a position of the array, with a count that is not
    negative, the call returns exactly the items it removed. *)
Lemma splice_range_check `{DeepReactivity} a σ start deleteCount items :
  (JS.len (value a) < start →
   splice a σ start deleteCount items = (a, σ, JS.Throws JS.RangeError)) ∧
  (0 ≤ start ≤ JS.len (value a) →
   0 ≤ default (JS.len (value a) - start) deleteCount →
   ∃ a' σ' tasks,
     splice a σ start deleteCount items =
       (a', σ',
        JS.Returns (snd (JS.splice (value a) start
                           (default (JS.len (value a) - start) deleteCount) []),
                    tasks)) ∧
     value a' = fst (JS.splice (value a) start
                       (default (JS.len (value a) - start) deleteCount)
                       (makeNonPrimitiveItemsReactive items))).
Proof.
  split; [apply splice_out_of_bounds|]. intros Hs Hd.
  destruct (splice_succeeds a σ start deleteCount items) as (a' & σ' & tasks & E & V);
    [lia | right; lia |].
  by exists a', σ', tasks.
Qed.

(** In-range calls keep the handles right whatever their number. *)
Lemma in_range_calls_keep_handles `{DeepReactivity} (input : list JS.value) a σ detached :
  reached (fst (new input empty_store)) (snd (new input empty_store)) a σ detached →
  handles_ok a σ ∧ ∀ h, h ∈ detached → read σ h = Some (-1) ∧ h ∉ indices a.
Proof.
  apply reached_handles_ok, new_handles_ok, empty_store_wf.
Qed.

End ReactiveArrayFacts.

(** ** ReactiveArray: [filter] *)

Module FilterFacts.
Import ReactiveArray StoreFacts ReactiveArrayFacts.

Lemma find_app {A} (f : A → bool) (l1 l2 : list A) :
  List.find f (l1 ++ l2) =
    match List.find f l1 with
    | Some x => Some x
    | None => List.find f l2
    end.
Proof.
  induction l1 as [|x l1 IH]; [done|]. cbn. by destruct (f x).
Qed.

Section Mask.
Variable p : JS.value → bool.
Implicit Types (l : list JS.value) (k c : Z) (n : nat).

(** The number of items that pass. *)
Local Abbreviation shown l := (JS.len (List.filter p l)) (only parsing).

Lemma shown_cons x l : shown (x :: l) = (if p x then 1 else 0) + shown l.
Proof. cbn. destruct (p x); unfold JS.len; cbn [length]; lia. Qed.

Lemma shown_nonneg l : 0 ≤ shown l.
Proof. apply JSFacts.len_nonneg. Qed.

Lemma shown_app l1 l2 : shown (l1 ++ l2) = shown l1 + shown l2.
Proof. by rewrite List.filter_app, JSFacts.len_app. Qed.

Lemma mask_from_length k l : length (mask_from p k l) = length l.
Proof.
  revert k. induction l as [|x l IH]; intros k; [done|]. cbn. by rewrite IH.
Qed.

Lemma mask_from_app k l1 l2 :
  mask_from p k (l1 ++ l2) =
    mask_from p k l1 ++ mask_from p (k + shown l1) l2.
Proof.
  revert k. induction l1 as [|x l1 IH]; intros k.
  - cbn. by rewrite Z.add_0_r.
  - cbn [app mask_from]. rewrite IH, shown_cons. f_equal. f_equal. f_equal.
    destruct (p x); lia.
Qed.

Lemma mask_from_take k l n :
  take n (mask_from p k l) = mask_from p k (take n l).
Proof.
  revert k n. induction l as [|x l IH]; intros k [|n]; try done.
  cbn. by rewrite IH.
Qed.

Lemma mask_from_drop k l n :
  drop n (mask_from p k l) = mask_from p (k + shown (take n l)) (drop n l).
Proof.
  revert k n. induction l as [|x l IH]; intros k [|n]; cbn [drop take mask_from].
  - done.
  - done.
  - by rewrite Z.add_0_r.
  - rewrite IH, shown_cons. f_equal. destruct (p x); lia.
Qed.

(** The entries that show are those of the items that pass. *)
Lemma mask_from_shown k l :
  JS.len (List.filter show (mask_from p k l)) = shown l.
Proof.
  revert k. induction l as [|x l IH]; intros k; [done|].
  cbn [mask_from List.filter show]. specialize (IH (if p x then k + 1 else k)).
  destruct (p x); unfold JS.len in *; cbn [length]; lia.
Qed.

(** Moving the entries by [c] is starting [c] further. *)
Lemma mask_from_shift k c l :
  map (λ e, {| index := index e + c; show := show e |}) (mask_from p k l) =
  mask_from p (k + c) l.
Proof.
  revert k. induction l as [|x l IH]; intros k; [done|].
  cbn [mask_from map index show]. rewrite IH.
  destruct (p x); [by replace (k + 1 + c) with (k + c + 1) by lia | done].
Qed.

(** The last entry that shows, if any, carries the number of items that
    pass. *)
Lemma last_shown_entry k l :
  match List.find show (rev (mask_from p k l)) with
  | Some e => index e = k + shown l ∧ 0 < shown l
  | None => shown l = 0
  end.
Proof.
  revert k. induction l as [|x l IH]; intros k; [done|].
  cbn [mask_from rev]. rewrite find_app. specialize (IH (if p x then k + 1 else k)).
  rewrite shown_cons. pose proof (shown_nonneg l).
  destruct (List.find show (rev (mask_from p (if p x then k + 1 else k) l))) as [e|].
  - destruct (p x); lia.
  - cbn [List.find show]. destruct (p x); cbn [index]; lia.
Qed.

(** [(lastInMask?.index ?? -1)] for the mask of [l]: one less than the
    number of items that pass. *)
Lemma last_shown l :
  index_or_minus1 (List.find show (rev (mask_from p (-1) l))) = shown l - 1.
Proof.
  pose proof (last_shown_entry (-1) l) as Hl.
  destruct (List.find show (rev (mask_from p (-1) l))); cbn [index_or_minus1]; lia.
Qed.
End Mask.

Section Listener.
Context `{DeepReactivity}.
Variable p : JS.value → bool.
Variable callback : JS.value → Z → list JS.value → bool.
Hypothesis callback_by_item : ∀ v i l, callback v i l = p v.
Implicit Types (items src : list JS.value) (mask : list MaskEntry).

Local Abbreviation shown l := (JS.len (List.filter p l)) (only parsing).

Lemma settled_items_map items :
  settled_items items → makeNonPrimitiveItemsReactive items = items.
Proof.
  unfold settled_items, makeNonPrimitiveItemsReactive.
  induction 1 as [|x l Hx _ IH]; [done|]. cbn. by rewrite Hx, IH.
Qed.

Lemma settled_items_filter items :
  settled_items items → settled_items (List.filter p items).
Proof.
  unfold settled_items. induction 1 as [|x l Hx _ IH]; [constructor|].
  cbn. destruct (p x); [by constructor | done].
Qed.

(** Whatever the positions, the loop over the inserted items counts and
    collects the items that pass. *)
Lemma insert_entries_collects this_value start items i cur mask acc :
  fst (fst (insert_entries callback this_value start items i cur mask acc))
    = cur + shown items ∧
  snd (insert_entries callback this_value start items i cur mask acc)
    = acc ++ List.filter p items.
Proof.
  revert i cur mask acc. induction items as [|x items IH]; intros i cur mask acc.
  - cbn. split; [unfold JS.len; cbn; lia | by rewrite app_nil_r].
  - cbn [insert_entries]. rewrite callback_by_item.
    destruct (IH (i + 1) (if p x then cur + 1 else cur)
                 (fst (JS.splice mask (start + i) 0
                         [{| index := (if p x then cur + 1 else cur); show := p x |}]))
                 (if p x then acc ++ [x] else acc)) as [IH1 IH2].
    rewrite IH1, IH2, shown_cons. cbn [List.filter].
    destruct (p x); split; try lia; by rewrite <- ?app_assoc.
Qed.

(** At positions of the mask, the loop inserts the entries of the items in
    a row. *)
Lemma insert_entries_in_range this_value start items i cur (A B : list MaskEntry) acc :
  0 ≤ start + i → length A = Z.to_nat (start + i) →
  insert_entries callback this_value start items i cur (A ++ B) acc =
    (cur + shown items, A ++ mask_from p cur items ++ B, acc ++ List.filter p items).
Proof.
  revert i cur A acc. induction items as [|x items IH]; intros i cur A acc Hi HA.
  - cbn. unfold JS.len. cbn. by rewrite Z.add_0_r, app_nil_r.
  - cbn [insert_entries]. rewrite callback_by_item.
    rewrite JSFacts.splice_insert_at by done. cbn [fst].
    replace (A ++ [{| index := (if p x then cur + 1 else cur); show := p x |}] ++ B)
      with ((A ++ [{| index := (if p x then cur + 1 else cur); show := p x |}]) ++ B)
      by (by rewrite <- app_assoc).
    rewrite IH; [| lia | rewrite length_app; cbn [length]; lia].
    rewrite shown_cons. cbn [mask_from List.filter].
    rewrite <- !app_assoc. cbn [app].
    destruct (p x).
    + rewrite <- app_assoc. cbn [app].
      by replace (cur + 1 + JS.len (List.filter p items))
        with (cur + (1 + JS.len (List.filter p items))) by lia.
    + by replace (cur + (0 + JS.len (List.filter p items)))
        with (cur + JS.len (List.filter p items)) by lia.
Qed.

(** The loop over the tail of the mask moves every entry from [i] on. *)
Lemma shift_tail_spec fuel mask i k :
  0 ≤ i → (length mask - Z.to_nat i ≤ fuel)%nat →
  shift_tail fuel mask i k =
    (take (Z.to_nat i) mask ++
     map (λ e, {| index := index e + k; show := show e |}) (drop (Z.to_nat i) mask),
     JS.Returns tt).
Proof.
  revert mask i. induction fuel as [|fuel IH]; intros mask i Hi Hfuel.
  - cbn. rewrite drop_ge, take_ge by lia. by rewrite app_nil_r.
  - cbn [shift_tail]. unfold JS.len.
    destruct (Z.ltb_spec i (Z.of_nat (length mask))) as [Hlt|Hge].
    + rewrite JSFacts.index_nonneg by done.
      destruct (mask !! Z.to_nat i) as [e|] eqn:E;
        [|apply lookup_ge_None in E; lia].
      rewrite IH; [| lia | rewrite length_insert; lia].
      replace (Z.to_nat (i + 1)) with (S (Z.to_nat i)) by lia.
      rewrite drop_insert_lt by lia.
      erewrite take_S_r by (apply list_lookup_insert_eq; lia).
      rewrite take_insert_ge by lia.
      rewrite (drop_S _ _ _ E). cbn [map]. by rewrite <- app_assoc.
    + rewrite drop_ge, take_ge by lia. by rewrite app_nil_r.
Qed.

(** A [splice] of the filtered array that replaces one segment by items
    that need no conversion. *)
Lemma splice_segment (fa : t) σ (pre del post newItems : list JS.value) :
  value fa = pre ++ del ++ post → settled_items newItems →
  ∃ fa' σ' tasks,
    splice fa σ (JS.len pre) (Some (JS.len del)) newItems =
      (fa', σ', JS.Returns (del, tasks)) ∧
    value fa' = pre ++ newItems ++ post.
Proof.
  intros Hv Hsettled.
  pose proof (JSFacts.len_nonneg pre). pose proof (JSFacts.len_nonneg del).
  pose proof (JSFacts.len_nonneg post).
  destruct (splice_succeeds fa σ (JS.len pre) (Some (JS.len del)) newItems)
    as (fa' & σ' & tasks & E & V).
  - rewrite Hv, !JSFacts.len_app. lia.
  - right. cbn. lia.
  - change (default _ (Some (JS.len del))) with (JS.len del) in E, V.
    rewrite (settled_items_map _ Hsettled), Hv, JSFacts.splice_middle in E, V.
    by exists fa', σ', tasks.
Qed.
(** The listener, run on a mask and a filtered array that agree with the
    source items [src], for the edit [(start, deletes, ...items)] of those
    items: the filtered array afterwards holds the items of the edited
    source that pass, also when the listener ends by throwing; for an edit
    in range the mask agrees with the edited source as well and the
    listener returns. *)
Lemma filter_listener_spec this_value f σ start deletes items src :
  filter_ok p src f → settled_items items →
  let s := JS.actual_start src start in
  let d := JS.actual_count src start deletes in
  let src' := take s src ++ items ++ drop (s + d) src in
  ∃ mask' fa' σ' o,
    filter_listener callback this_value f σ start deletes items =
      ({| maskArray := mask'; filteredArray := fa' |}, σ', o) ∧
    value fa' = List.filter p src' ∧
    (0 ≤ start ≤ JS.len src → 0 ≤ deletes →
     mask' = mask_from p (-1) src' ∧ ∃ tasks, o = JS.Returns tasks).
Proof.
  intros [Hmask Hval] Hitems s d src'. unfold filter_listener.
  assert (Hlen : length (mask_from p (-1) src) = length src)
    by apply mask_from_length.
  rewrite Hmask, JSFacts.slice_prefix.
  rewrite (JSFacts.actual_start_same_length _ src start Hlen). fold s.
  rewrite mask_from_take, last_shown.
  set (pre := take s src). set (del := take d (drop s src)).
  set (post := drop (s + d) src).
  assert (Hsrc : src = pre ++ del ++ post) by apply JSFacts.splice_segments.
  assert (Hpre : length pre = s)
    by (apply length_take_le, JSFacts.actual_start_le).
  assert (Htake : take (s + d) src = pre ++ del)
    by (symmetry; apply take_take_drop).
  (* the mask without the deleted entries, and the deleted entries *)
  assert (Hdel :
    (if deletes =? 0 then (mask_from p (-1) src, [])
     else JS.splice (mask_from p (-1) src) start deletes []) =
    (mask_from p (-1) pre ++ mask_from p (shown pre - 1 + shown del) post,
     mask_from p (shown pre - 1) del)).
  { assert (take s (mask_from p (-1) src) ++ drop (s + d) (mask_from p (-1) src) =
            mask_from p (-1) pre ++ mask_from p (shown pre - 1 + shown del) post) as Hkeep.
    { rewrite mask_from_take, mask_from_drop, Htake, shown_app. fold pre post.
      by replace (-1 + (shown pre + shown del)) with (shown pre - 1 + shown del) by lia. }
    assert (take d (drop s (mask_from p (-1) src)) = mask_from p (shown pre - 1) del) as Hgone.
    { rewrite mask_from_drop, mask_from_take. fold pre del.
      by replace (-1 + shown pre) with (shown pre - 1) by lia. }
    destruct (Z.eqb_spec deletes 0) as [Hz|Hnz].
    - assert (d = 0%nat) as Hd0 by (subst d deletes; apply JSFacts.actual_count_zero).
      rewrite Hd0, Nat.add_0_r, take_drop in Hkeep. rewrite Hd0 in Hgone.
      by rewrite Hkeep, <- Hgone.
    - rewrite JSFacts.splice_unfold.
      rewrite (JSFacts.actual_start_same_length _ src start Hlen).
      rewrite (JSFacts.actual_count_same_length _ src start deletes Hlen).
      fold s d. cbn [app]. by rewrite Hkeep, Hgone. }
  rewrite Hdel. clear Hdel.
  (* the loop over the inserted items *)
  pose proof (insert_entries_collects this_value start items 0 (shown pre - 1)
                (mask_from p (-1) pre ++ mask_from p (shown pre - 1 + shown del) post) [])
    as [_ Hnew].
  destruct (insert_entries callback this_value start items 0 (shown pre - 1)
              (mask_from p (-1) pre ++ mask_from p (shown pre - 1 + shown del) post) [])
    as [[cur mask2] newItems] eqn:Eins.
  cbn [snd app] in Hnew. subst newItems.
  rewrite mask_from_shown.
  (* the splice of the filtered array *)
  assert (Hfa : value (filteredArray f) =
                List.filter p pre ++ List.filter p del ++ List.filter p post).
  { by rewrite Hval, Hsrc at 1; rewrite !List.filter_app. }
  replace (shown pre - 1 + 1) with (shown pre) by lia.
  destruct (splice_segment (filteredArray f) σ _ _ _ (List.filter p items) Hfa
              (settled_items_filter _ Hitems))
    as (fa' & σ' & tasks & Esp & Vsp).
  assert (Hsrc' : List.filter p src' =
                  List.filter p pre ++ List.filter p items ++ List.filter p post).
  { subst src'. fold pre post. by rewrite !List.filter_app. }
  assert (∃ fa1 σ1 tasks1,
    (if negb (shown items =? 0) || negb (shown del =? 0)
     then match splice (filteredArray f) σ (shown pre) (Some (shown del))
                       (List.filter p items) with
          | (a', σ'0, JS.Returns (_, tasks0)) => (a', σ'0, JS.Returns tasks0)
          | (a', σ'0, JS.Throws e) => (a', σ'0, JS.Throws e)
          end
     else (filteredArray f, σ, JS.Returns [])) = (fa1, σ1, JS.Returns tasks1) ∧
    value fa1 = List.filter p src') as (fa1 & σ1 & tasks1 & -> & Hfa1).
  { destruct (negb (shown items =? 0) || negb (shown del =? 0)) eqn:Hany.
    - rewrite Esp. exists fa', σ', tasks. by rewrite Vsp, Hsrc'.
    - exists (filteredArray f), σ, []. split; [done|].
      apply orb_false_elim in Hany as [Hi Hd].
      apply negb_false_iff, Z.eqb_eq in Hi, Hd.
      assert (List.filter p items = []) as Hi0
        by (apply length_zero_iff_nil; unfold JS.len in Hi; lia).
      assert (List.filter p del = []) as Hd0
        by (apply length_zero_iff_nil; unfold JS.len in Hd; lia).
      by rewrite Hfa, Hsrc', Hi0, Hd0. }
  (* the loop over the tail of the mask *)
  destruct (if shown items - shown del =? 0 then (mask2, JS.Returns tt)
            else shift_tail (Z.to_nat (JS.len mask2 - (start + JS.len items)))
                            mask2 (start + JS.len items) (shown items - shown del))
    as [mask3 o'] eqn:Etail.
  eexists _, _, _, _. split; [reflexivity|]. split; [done|].
  intros Hs Hd.
  assert (Hs' : s = Z.to_nat start) by (by apply JSFacts.actual_start_in_range).
  rewrite insert_entries_in_range in Eins by (rewrite ?mask_from_length; lia).
  inversion Eins; subst cur mask2. clear Eins.
  assert (mask3 = mask_from p (-1) src' ∧ o' = JS.Returns tt) as [-> ->]; [|eauto].
  subst src'. fold pre post. rewrite !mask_from_app.
  replace (-1 + shown pre) with (shown pre - 1) by lia.
  destruct (Z.eqb_spec (shown items - shown del) 0) as [Hz|Hnz].
  - inversion Etail. split; [|done].
    by replace (shown pre - 1 + shown items) with (shown pre - 1 + shown del) by lia.
  - pose proof (JSFacts.len_nonneg items).
    rewrite shift_tail_spec in Etail; [| lia | unfold JS.len; lia].
    inversion Etail. split; [|done].
    replace (Z.to_nat (start + JS.len items))
      with (length (mask_from p (-1) pre ++ mask_from p (shown pre - 1) items))
      by (rewrite length_app, !mask_from_length; unfold JS.len; lia).
    rewrite app_assoc, take_app_length, drop_app_length, mask_from_shift.
    rewrite <- app_assoc.
    by replace (shown pre - 1 + shown del + (shown items - shown del))
      with (shown pre - 1 + shown items) by lia.
Qed.

(** [filter] returns with the mask and the filtered array in agreement with
    the source. *)
Lemma filter_creates (a : t) σ listener :
  settled_items (value a) →
  ∃ a1 f1 σ1 tasks,
    filter callback a σ listener = (a1, f1, σ1, JS.Returns tasks) ∧
    value a1 = value a ∧ indices a1 = indices a ∧
    callbacks a1 = Set_add listener (callbacks a) ∧
    filter_ok p (value a) f1.
Proof.
  intros Hsettled. unfold filter, new, bind. cbn [new_handles value].
  destruct (filter_listener_spec (value a)
              {| maskArray := [];
                 filteredArray := {| value := makeNonPrimitiveItemsReactive [];
                                     indices := [];
                                     callbacks := Set_add lengthWatcher [] |} |}
              σ 0 0 (value a) [])
    as (mask' & fa' & σ' & o & E & V & Hin); [by split | done |].
  destruct Hin as [Hmask [tasks ->]]; [done | done |].
  cbn [JS.actual_start JS.actual_count take drop app] in V, Hmask.
  rewrite app_nil_r in V, Hmask. rewrite E.
  eexists _, _, _, _. split; [reflexivity|]. by repeat split.
Qed.

(** The listener keeps the agreement under edits in range. *)
Lemma filter_ok_preserved this_value f σ start deletes items src :
  filter_ok p src f → settled_items items →
  0 ≤ start ≤ JS.len src → 0 ≤ deletes →
  ∃ f' σ' tasks,
    filter_listener callback this_value f σ start deletes items =
      (f', σ', JS.Returns tasks) ∧
    filter_ok p (fst (JS.splice src start deletes items)) f'.
Proof.
  intros Hok Hitems Hs Hd.
  destruct (filter_listener_spec this_value f σ start deletes items src Hok Hitems)
    as (mask' & fa' & σ' & o & E & V & Hin).
  destruct (Hin Hs Hd) as [Hmask [tasks ->]].
  eexists _, _, _. split; [exact E|]. rewrite JSFacts.splice_unfold. by split.
Qed.

(** A notification [(0, 0)] without items leaves the mask and the view as
    they are. *)
Lemma filter_listener_idle this_value f σ :
  filter_listener callback this_value f σ 0 0 [] = (f, σ, JS.Returns []).
Proof.
  destruct f as [mask fa]. unfold filter_listener. cbn [maskArray filteredArray].
  rewrite JSFacts.slice_prefix. by cbn.
Qed.

Lemma run_filter_tasks_idle (a : t) f σ n :
  run_filter_tasks callback a f σ (replicate n (mkUpdate 0 0 [])) = (f, σ).
Proof.
  unfold run_filter_tasks. induction n as [|n IH]; [done|].
  cbn [replicate fold_left]. unfold run_filter_task at 2.
  cbn [u_start u_deleteCount u_items fst snd].
  by rewrite filter_listener_idle.
Qed.

Lemma updates_for_app listener (l1 l2 : list Task) :
  updates_for listener (l1 ++ l2) = updates_for listener l1 ++ updates_for listener l2.
Proof. unfold updates_for. by rewrite List.filter_app, map_app. Qed.

Lemma updates_for_absent listener (u : Update) (l : list Callback) :
  listener ∉ l → updates_for listener (map (λ cb, (cb, u)) l) = [].
Proof.
  induction l as [|x l IH]; [done|]. intros [Hne Hn]%not_elem_of_cons.
  unfold updates_for in *. cbn.
  destruct (Nat.eqb_spec x listener) as [->|_]; [done|]. by apply IH.
Qed.

Lemma updates_for_member listener (u : Update) (l : list Callback) :
  NoDup l → listener ∈ l → updates_for listener (map (λ cb, (cb, u)) l) = [u].
Proof.
  induction 1 as [|x l Hx Hl IH]; [by intros ?%elem_of_nil|].
  intros Hin. unfold updates_for in *. cbn.
  destruct (Nat.eqb_spec x listener) as [->|Hne].
  - cbn. f_equal. by apply updates_for_absent.
  - apply IH. apply elem_of_cons in Hin as [->|Hin]; done.
Qed.

(** Each call of [update()] queues one notification [(0, 0)] for a
    listener of the array. *)
Lemma updates_for_forced (a : t) listener n :
  NoDup (callbacks a) → listener ∈ callbacks a →
  updates_for listener (forced_updates a n) = replicate n (mkUpdate 0 0 []).
Proof.
  intros Hnd Hin. unfold forced_updates. induction n as [|n IH]; [done|].
  cbn [replicate concat]. rewrite updates_for_app, IH.
  unfold _dispatchUpdateEvents. by rewrite updates_for_member.
Qed.

(** After [filter], any edit of the source that returns, whatever the
    conversion of the inserted items notifies, queues its notifications for
    the listener, the last of them carrying the edit; and once they have
    run the filtered array holds the source items that pass, in source
    order. *)
Lemma filter_after_edit (a : t) σ listener :
  NoDup (callbacks a) → settled_items (value a) →
  ∃ a1 f1 σ1 tasks1,
    filter callback a σ listener = (a1, f1, σ1, JS.Returns tasks1) ∧
    value (filteredArray f1) = List.filter p (value a) ∧
    ∀ conversion reactiveItems start deleteCount items a2 σ2 tasks deleted,
      converted conversion = JS.Returns reactiveItems →
      settled_items reactiveItems →
      splice_converting conversion a1 σ1 start deleteCount items
        = (a2, σ2, tasks, JS.Returns deleted) →
      updates_for listener tasks =
        replicate (parent_updates conversion) (mkUpdate 0 0 []) ++
        [mkUpdate start (default (JS.len (value a1) - start) deleteCount)
                  reactiveItems] ∧
      value (filteredArray
               (fst (run_filter_tasks callback a2 f1 σ2 (updates_for listener tasks)))) =
        List.filter p (value a2).
Proof.
  intros Hnd Hsettled.
  destruct (filter_creates a σ listener Hsettled)
    as (a1 & f1 & σ1 & tasks1 & E & Hv & _ & Hcbs & Hok).
  exists a1, f1, σ1, tasks1. split; [done|]. split; [apply Hok|].
  intros conversion reactiveItems start deleteCount items a2 σ2 tasks deleted
         Hconv Hitems Hsplice.
  apply splice_converting_returns in Hsplice
    as (reactiveItems' & Hconv' & _ & Hv2 & _ & _ & Htasks).
  rewrite Hconv in Hconv'. injection Hconv' as <-.
  set (dc := default (JS.len (value a1) - start) deleteCount) in *.
  assert (NoDup (callbacks a1)) as Hnd1 by (rewrite Hcbs; by apply Set_add_NoDup).
  assert (listener ∈ callbacks a1) as Hin
    by (rewrite Hcbs; apply Set_add_elem; by left).
  assert (updates_for listener tasks =
          replicate (parent_updates conversion) (mkUpdate 0 0 []) ++
          [mkUpdate start dc reactiveItems]) as Hups.
  { rewrite Htasks, updates_for_app, updates_for_forced by done.
    by rewrite updates_for_member. }
  split; [exact Hups|]. rewrite Hups.
  unfold run_filter_tasks. rewrite fold_left_app.
  fold (run_filter_tasks callback a2 f1 σ2
          (replicate (parent_updates conversion) (mkUpdate 0 0 []))).
  rewrite run_filter_tasks_idle. cbn [fold_left fst snd].
  unfold run_filter_task. cbn [u_start u_deleteCount u_items].
  rewrite <- Hv in Hok.
  destruct (filter_listener_spec (value a2) f1 σ2 start dc reactiveItems (value a1) Hok)
    as (mask' & fa' & σ' & o & E2 & V & _); [done|].
  rewrite E2. cbn [fst filteredArray]. by rewrite V, Hv2, JSFacts.splice_unfold.
Qed.
End Listener.

#[local] Existing Instance already_reactive.

(** C6, amended. With source [[1,2,3,4,5]] and the predicate "is even" the
    filtered array is [[2,4]]; [splice(5, 0, 6)] on the source queues the
    listener with [(5, 0, 6)], and when that task has run the filtered array
    is [[2,4,6]]. In general, for a predicate that looks at the item only:
    after [filter], and after the notifications of any one source edit that
    returned have run, the filtered array holds the source items that pass,
    in source order. The edit is a call of [splice] with any run of the
    conversion of its items; what comes out of a conversion needs no
    further conversion. *)
Theorem filtered_list_follows_source :
  (let callback := λ v (_ : Z) (_ : list JS.value), is_even v in
   let created := filter callback (fst one_to_five) (snd one_to_five) 9%nat in
   let a1 := fst (fst (fst created)) in
   let f1 := snd (fst (fst created)) in
   let σ1 := snd (fst created) in
   let edited := splice a1 σ1 5 (Some 0) [JS.num 6] in
   let a2 := fst (fst edited) in
   let σ2 := snd (fst edited) in
   let u := mkUpdate 5 0 [JS.num 6] in
   value a1 = map JS.num [1; 2; 3; 4; 5] ∧
   value (filteredArray f1) = map JS.num [2; 4] ∧
   value a2 = map JS.num [1; 2; 3; 4; 5; 6] ∧
   snd edited = JS.Returns ([], [(lengthWatcher, u); (9%nat, u)]) ∧
   value (filteredArray (fst (fst (run_filter_task callback a2 f1 σ2 u)))) =
     map JS.num [2; 4; 6]) ∧
  (∀ (D : DeepReactivity) (p : JS.value → bool)
     (callback : JS.value → Z → list JS.value → bool) (a : t) (σ : Store)
     (listener : Callback),
     (∀ v i l, callback v i l = p v) →
     NoDup (callbacks a) → settled_items (value a) →
     ∃ a1 f1 σ1 tasks1,
       filter callback a σ listener = (a1, f1, σ1, JS.Returns tasks1) ∧
       value (filteredArray f1) = List.filter p (value a) ∧
       ∀ conversion reactiveItems start deleteCount items a2 σ2 tasks deleted,
         converted conversion = JS.Returns reactiveItems →
         settled_items reactiveItems →
         splice_converting conversion a1 σ1 start deleteCount items
           = (a2, σ2, tasks, JS.Returns deleted) →
         updates_for listener tasks =
           replicate (parent_updates conversion) (mkUpdate 0 0 []) ++
           [mkUpdate start (default (JS.len (value a1) - start) deleteCount)
                     reactiveItems] ∧
         value (filteredArray
                  (fst (run_filter_tasks callback a2 f1 σ2
                          (updates_for listener tasks)))) =
           List.filter p (value a2)).
Proof.
  split.
  - cbn zeta. repeat split; by vm_compute.
  - intros D p callback a σ listener Hcb Hnd Hsettled.
    by apply filter_after_edit.
Qed.

Lemma filtered_list_follows_source_witness :
  let callback := λ v (_ : Z) (_ : list JS.value), is_even v in
  ∃ a1 f1 σ1 tasks1,
    filter callback (fst one_to_five) (snd one_to_five) 9%nat
      = (a1, f1, σ1, JS.Returns tasks1) ∧
    value (filteredArray f1) = List.filter is_even (value (fst one_to_five)) ∧
    ∀ conversion reactiveItems start deleteCount items a2 σ2 tasks deleted,
      converted conversion = JS.Returns reactiveItems →
      settled_items reactiveItems →
      splice_converting conversion a1 σ1 start deleteCount items
        = (a2, σ2, tasks, JS.Returns deleted) →
      updates_for 9%nat tasks =
        replicate (parent_updates conversion) (mkUpdate 0 0 []) ++
        [mkUpdate start (default (JS.len (value a1) - start) deleteCount)
                  reactiveItems] ∧
      value (filteredArray
               (fst (run_filter_tasks callback a2 f1 σ2 (updates_for 9%nat tasks)))) =
        List.filter is_even (value a2).
Proof.
  cbn zeta.
  apply (proj2 filtered_list_follows_source already_reactive is_even).
  - reflexivity.
  - vm_compute. repeat constructor. intros Hin. by apply elem_of_nil in Hin.
  - vm_compute. repeat constructor.
Defined.

(** C6, as stated, fails for a predicate that reads the position. On
    [[5, 10, 20]] the predicate "the position is even" gives [[5, 20]].
    [splice(1, 1)] on the source removes [10] and queues the listener with
    [(1, 1)]; the listener evaluates the predicate on inserted items only,
    so the filtered array stays [[5, 20]], while the items of the source
    [[5, 20]] that satisfy the predicate are [[5]]. *)
Lemma filter_by_position_goes_stale :
  let callback := at_even_position in
  let created := filter callback (fst five_ten_twenty) (snd five_ten_twenty) 9%nat in
  let a1 := fst (fst (fst created)) in
  let f1 := snd (fst (fst created)) in
  let σ1 := snd (fst created) in
  let edited := splice a1 σ1 1 (Some 1) [] in
  let a2 := fst (fst edited) in
  let σ2 := snd (fst edited) in
  let u := mkUpdate 1 1 [] in
  let f2 := fst (run_filter_tasks callback a2 f1 σ2 [u]) in
  value (filteredArray f1) = map JS.num [5; 20] ∧
  Intended.Array_filter callback (value a1) (value a1) 0 = map JS.num [5; 20] ∧
  snd edited = JS.Returns ([JS.num 10], [(lengthWatcher, u); (9%nat, u)]) ∧
  value a2 = map JS.num [5; 20] ∧
  value (filteredArray f2) = map JS.num [5; 20] ∧
  Intended.Array_filter callback (value a2) (value a2) 0 = map JS.num [5] ∧
  value (filteredArray f2) ≠ Intended.Array_filter callback (value a2) (value a2) 0.
Proof.
  cbn zeta. repeat (split; [by vm_compute|]). by vm_compute.
Qed.

(** [slice] from the start: the derived array is seeded with the sliced
    items, and the first run of the listener, which [bind] makes at once,
    inserts the same items again in front of them. *)
Lemma slice_from_start_doubles `{DeepReactivity} (a : t) σ end_ listener :
  let sliced := JS.slice (value a) 0 (default (JS.len (value a) - 1) end_) in
  ∃ a' newArr σ' tasks,
    slice a σ (Some 0) end_ listener = (a', newArr, σ', JS.Returns tasks) ∧
    value newArr = makeNonPrimitiveItemsReactive sliced ++
                   makeNonPrimitiveItemsReactive sliced.
Proof.
  intros sliced. unfold slice, slice_listener, bind.
  change (default 0 (Some 0)) with 0. fold sliced.
  destruct (new sliced σ) as [newArr0 σ0] eqn:Enew.
  assert (value newArr0 = makeNonPrimitiveItemsReactive sliced) as Hv0.
  { unfold new in Enew. destruct (new_handles sliced 0 0 σ). by inversion Enew. }
  cbn [value]. change (0 - 0) with 0.
  rewrite !Z.sub_0_r. fold sliced.
  pose proof (JSFacts.len_nonneg (value newArr0)).
  destruct (splice_succeeds newArr0 σ0 0 (Some 0) sliced)
    as (newArr & σ' & tasks & E & V); [cbn; lia | cbn; lia |].
  change (default _ (Some 0)) with 0 in E, V.
  rewrite E. eexists _, _, _, _. split; [reflexivity|].
  by rewrite V, JSFacts.splice_insert_front, Hv0.
Qed.

(** C8. Without an [end] argument [slice] takes [length - 1] as the end, and
    the items it slices from [[1, 2, 3]] are [[1, 2]]; but the array that
    [slice(0)] returns holds [[1, 2, 1, 2]], four items, because of the
    first run of the listener. *)
Theorem slice_default_end_returns_doubled :
  let a := fst one_two_three in
  let σ := snd one_two_three in
  let sliced := slice a σ (Some 0) None 9%nat in
  let newArr := snd (fst (fst sliced)) in
  value a = map JS.num [1; 2; 3] ∧
  JS.slice (value a) 0 (JS.len (value a) - 1) = map JS.num [1; 2] ∧
  (∃ tasks, snd sliced = JS.Returns tasks) ∧
  value newArr = map JS.num [1; 2; 1; 2] ∧
  length (value newArr) = 4%nat.
Proof.
  cbn zeta. split; [by vm_compute|]. split; [by vm_compute|].
  split; [by eexists|]. split; by vm_compute.
Qed.

End FilterFacts.


(** ** Slot: disposal of the tracked nodes *)

Module SlotFacts.
Import Slot.

Implicit Types (w : World) (n m anchor : node) (p q : promise) (d : Disposal)
  (fragment children : list node).

Lemma splice_whole {A} (l : list A) : JS.splice l 0 (JS.len l) [] = ([], l).
Proof.
  pose proof (JSFacts.splice_delete_front l [] (JS.len l) eq_refl) as Hs.
  by rewrite app_nil_r in Hs.
Qed.

(** [_disposeCurrentNodes] empties the tracked list, calls the exit
    callbacks of the nodes that were tracked and parks their removal; the
    document is not touched. *)
Lemma disposeCurrentNodes_spec w :
  nodes (slot (_disposeCurrentNodes w)) = [] ∧
  dom (_disposeCurrentNodes w) = dom w ∧
  settled (_disposeCurrentNodes w) = settled w ∧
  deferredElements (_disposeCurrentNodes w) = deferredElements w ∧
  endAnchor (slot (_disposeCurrentNodes w)) = endAnchor (slot w) ∧
  suspended (_disposeCurrentNodes w) =
    suspended w ++ [{| awaited := exit_promises w (nodes (slot w));
                       nodesToDisposeOf := nodes (slot w) |}] ∧
  exited (_disposeCurrentNodes w) =
    exited w ++ List.filter (λ n, bool_decide (is_Some (deferredElements w !! n)))
                            (nodes (slot w)).
Proof.
  unfold _disposeCurrentNodes, _disposeNodes, untrack, exit_promises.
  rewrite splice_whole. by cbn.
Qed.

Lemma elem_of_insert_before anchor fragment children m :
  m ∈ insert_before anchor fragment children ↔
  m ∈ children ∨ (anchor ∈ children ∧ m ∈ fragment).
Proof.
  induction children as [|c rest IH]; cbn.
  - rewrite !elem_of_nil. tauto.
  - destruct (Nat.eqb_spec c anchor) as [->|Hne].
    + rewrite elem_of_app, !elem_of_cons. tauto.
    + rewrite !elem_of_cons, IH. split; [tauto|].
      intros [[->|?]|[[->|?] ?]]; tauto.
Qed.

(** A node that is not in the fragment is in the document after
    [anchor.before(fragment)] exactly if it was before. *)
Lemma before_keeps anchor fragment children m :
  m ∉ fragment → m ∈ before anchor fragment children ↔ m ∈ children.
Proof.
  intros Hm. unfold before. case_bool_decide as Hanchor; [|done].
  rewrite elem_of_insert_before, !list_elem_of_In, filter_In, <- !list_elem_of_In.
  rewrite negb_true_iff, bool_decide_eq_false. tauto.
Qed.

(** The nodes of the fragment are in the document afterwards, when the
    anchor is, and is not itself part of the fragment. *)
Lemma before_inserts anchor fragment children m :
  anchor ∈ children → anchor ∉ fragment → m ∈ fragment →
  m ∈ before anchor fragment children.
Proof.
  intros Hanchor Hnot Hm. unfold before. rewrite bool_decide_eq_true_2 by done.
  apply elem_of_insert_before. right. split; [|done].
  rewrite list_elem_of_In, filter_In, <- list_elem_of_In.
  split; [done|]. by rewrite negb_true_iff, bool_decide_eq_false.
Qed.

Lemma exit_promises_elem w (ns : list node) n p :
  n ∈ ns → deferredElements w !! n = Some (Awaitable p) →
  p ∈ exit_promises w ns.
Proof.
  intros Hn Hp. unfold exit_promises. apply list_elem_of_omap.
  exists n. by rewrite Hp.
Qed.

(** A settled promise stays as it is. *)
Lemma step_settled_mono w w' p b :
  step w w' → settled w !! p = Some b → settled w' !! p = Some b.
Proof.
  intros Hstep Hp. destruct Hstep as [w fragment _|w q b' Hq|w i d _ _|w i d _ _].
  - unfold update, track_and_insert. cbn [settled].
    by rewrite (proj1 (proj2 (proj2 (disposeCurrentNodes_spec w)))).
  - cbn. rewrite lookup_insert_ne; [done|]. intros ->. congruence.
  - done.
  - done.
Qed.

Lemma steps_pending w w' p :
  steps w w' → settled w' !! p = None → settled w !! p = None.
Proof.
  induction 1 as [|w1 w2 w3 Hstep _ IH]; [done|]. intros Hp.
  specialize (IH Hp). destruct (settled w1 !! p) as [b|] eqn:E; [|done].
  apply (step_settled_mono _ _ _ _ Hstep) in E. congruence.
Qed.

(** While its promise is pending, an exiting node remains one through a
    turn. *)
Lemma step_keeps_exiting n p w w' :
  step w w' → settled w !! p = None → exiting n p w → exiting n p w'.
Proof.
  intros Hstep Hp (Hdom & Htracked & Hwait).
  destruct Hstep as [w fragment Hfresh|w q b Hq|w i d Hd Hall|w i d Hd Hrej].
  - pose proof (disposeCurrentNodes_spec w) as (Hn & Hdm & _ & _ & Hend & Hsus & _).
    assert (n ∉ fragment) as Hnf by (intros Hin; by apply (Hfresh n)).
    unfold exiting, update, track_and_insert. cbn [dom slot nodes suspended].
    rewrite Hdm, Hsus. repeat split; [by apply before_keeps | done |].
    intros d Hd Hnd. apply elem_of_app in Hd as [Hd|Hd]; [by apply Hwait|].
    apply list_elem_of_singleton in Hd. subst d. cbn in Hnd. done.
  - done.
  - unfold exiting, resume, unpark. cbn [dom slot nodes suspended].
    assert (n ∉ nodesToDisposeOf d) as Hnd.
    { intros Hnd.
      assert (p ∈ awaited d) as Hpd
        by (apply Hwait; [by eapply list_elem_of_lookup_2 | done]).
      unfold all_fulfilled in Hall. rewrite forallb_forall in Hall.
      apply list_elem_of_In, Hall, bool_decide_eq_true in Hpd. congruence. }
    repeat split; [| done |].
    + rewrite list_elem_of_In, filter_In, <- list_elem_of_In.
      split; [done|]. by rewrite negb_true_iff, bool_decide_eq_false.
    + intros d' Hd'. apply Hwait. by eapply list_elem_of_delete_inv.
  - unfold exiting, unpark. cbn [dom slot nodes suspended].
    repeat split; [done | done |].
    intros d' Hd'. apply Hwait. by eapply list_elem_of_delete_inv.
Qed.

Lemma steps_keep_exiting n p w w' :
  steps w w' → settled w' !! p = None → exiting n p w → exiting n p w'.
Proof.
  induction 1 as [|w1 w2 w3 Hstep Hsteps IH]; [done|]. intros Hp Hex.
  apply IH; [done|]. eapply step_keeps_exiting; [done | | done].
  eapply steps_pending; [|done]. by eapply steps_step.
Qed.

(** When a disposal resumes, its nodes leave the document. *)
Lemma resume_removes w i d n :
  n ∈ nodesToDisposeOf d → n ∉ dom (resume w i d).
Proof.
  intros Hn. unfold resume, unpark. cbn [dom].
  rewrite list_elem_of_In, filter_In, negb_true_iff, bool_decide_eq_false.
  tauto.
Qed.

(** C9. A slot tracks a node [n] that is in the document and whose exit
    callback returns the pending promise [p]; no earlier disposal is to
    remove [n]; the slot is updated with nodes that are not in the
    document. Then: [update] first empties the tracked list and calls the
    exit callback, without touching the document, and only then tracks and
    inserts the new nodes, so that the new nodes and [n] are in the
    document together; [n] stays in the document through any further turns
    for as long as [p] is pending; and [n] leaves the document when the
    disposal parked by this update resumes. *)
Theorem slot_update_keeps_exiting_node w n p fragment :
  n ∈ nodes (slot w) → n ∈ dom w →
  deferredElements w !! n = Some (Awaitable p) →
  settled w !! p = None →
  (∀ d, d ∈ suspended w → n ∉ nodesToDisposeOf d) →
  (∀ m, m ∈ fragment → m ∉ dom w) →
  let w1 := _disposeCurrentNodes w in
  let w2 := update w fragment in
  let parked := {| awaited := exit_promises w (nodes (slot w));
                   nodesToDisposeOf := nodes (slot w) |} in
  (nodes (slot w1) = [] ∧ n ∈ exited w1 ∧ dom w1 = dom w ∧
   w2 = track_and_insert w1 fragment) ∧
  (nodes (slot w2) = fragment ∧ n ∈ dom w2 ∧
   (endAnchor (slot w) ∈ dom w → ∀ m, m ∈ fragment → m ∈ dom w2)) ∧
  (suspended w2 = suspended w ++ [parked] ∧ p ∈ awaited parked) ∧
  (∀ w', steps w2 w' → settled w' !! p = None → n ∈ dom w') ∧
  (∀ w' i, n ∉ dom (resume w' i parked)).
Proof.
  intros Htracked Hdom Hexit Hpending Hearlier Hfresh w1 w2 parked.
  pose proof (disposeCurrentNodes_spec w) as (Hn & Hdm & Hst & Hde & Hend & Hsus & Hex).
  fold w1 in Hn, Hdm, Hst, Hde, Hend, Hsus, Hex. fold parked in Hsus.
  assert (n ∉ fragment) as Hnf by (intros Hin; by apply (Hfresh n)).
  assert (p ∈ awaited parked) as Hp by (by eapply exit_promises_elem).
  assert (exiting n p w2) as Hexiting.
  { unfold exiting, w2, update, track_and_insert. cbn [dom slot nodes suspended].
    fold w1. rewrite Hdm, Hsus. repeat split; [by apply before_keeps | done |].
    intros d Hd Hnd. apply elem_of_app in Hd as [Hd|Hd].
    - by apply Hearlier in Hd.
    - apply list_elem_of_singleton in Hd. by subst d. }
  repeat split.
  - done.
  - rewrite Hex. apply elem_of_app. right.
    rewrite list_elem_of_In, filter_In, <- list_elem_of_In. split; [done|].
    apply bool_decide_eq_true. by rewrite Hexit.
  - apply Hexiting.
  - intros Hanchor m Hm. unfold w2, update, track_and_insert. cbn [dom].
    fold w1. rewrite Hdm, Hend. apply before_inserts; [done | | done].
    intros Hin. by apply (Hfresh _ Hin).
  - unfold w2, update, track_and_insert. cbn [suspended]. by fold w1.
  - done.
  - intros w' Hsteps Hp'. by apply (steps_keep_exiting n p w2 w' Hsteps Hp' Hexiting).
  - intros w' i. by apply resume_removes.
Qed.

Lemma slot_update_keeps_exiting_node_witness :
  let w := one_node_world in
  let w2 := update w [11%nat] in
  let parked := {| awaited := [0%nat]; nodesToDisposeOf := [10%nat] |} in
  dom w2 = [1; 10; 11; 2]%nat ∧
  nodes (slot w2) = [11%nat] ∧
  suspended w2 = [parked] ∧
  (∀ w', steps w2 w' → settled w' !! 0%nat = None → 10%nat ∈ dom w') ∧
  dom (resume (settle w2 0%nat true) 0 parked) = [1; 11; 2]%nat.
Proof.
  cbn zeta.
  destruct (slot_update_keeps_exiting_node one_node_world 10%nat 0%nat [11%nat])
    as (_ & _ & _ & Hstays & _).
  - vm_compute. by left.
  - vm_compute. by right; left.
  - by vm_compute.
  - by vm_compute.
  - intros d Hd. vm_compute in Hd. by apply elem_of_nil in Hd.
  - intros m Hm. apply list_elem_of_singleton in Hm. subst m. vm_compute.
    intros Hin. repeat (apply elem_of_cons in Hin as [Hin|Hin]; [discriminate|]).
    by apply elem_of_nil in Hin.
  - repeat split; first [exact Hstays | by vm_compute].
Defined.

End SlotFacts.


(** ** ReactiveArray: the methods built on [splice] *)

Module MethodsFacts.
Import ReactiveArray JSFacts StoreFacts ReactiveArrayFacts FilterFacts.
Import Intended.

Lemma first_from_spec {A} (test : A → Z → bool) (l : list A) i :
  0 ≤ i →
  (Methods.first_from test l i = -1 ∧
   ∀ (j : nat) y, l !! j = Some y → test y (i + Z.of_nat j) = false) ∨
  (∃ (j : nat) y, Methods.first_from test l i = i + Z.of_nat j ∧ l !! j = Some y ∧
     test y (i + Z.of_nat j) = true ∧
     ∀ (j' : nat) y', (j' < j)%nat → l !! j' = Some y' →
                      test y' (i + Z.of_nat j') = false).
Proof.
  revert i. induction l as [|x l IH]; intros i Hi; cbn.
  { left. split; [done|]. by intros j y. }
  destruct (test x i) eqn:Ex.
  { right. exists 0%nat, x. rewrite Z.add_0_r. repeat split; [done..|]. lia. }
  destruct (IH (i + 1)) as [[E Hno]|(j & y & E & Hj & Hy & Hno)]; [lia|..].
  - left. split; [done|]. intros [|j] y Hj; cbn in Hj.
    + injection Hj as <-. by rewrite Z.add_0_r.
    + specialize (Hno j y Hj). by replace (i + Z.of_nat (S j)) with (i + 1 + Z.of_nat j) by lia.
  - right. exists (S j), y. replace (i + Z.of_nat (S j)) with (i + 1 + Z.of_nat j) by lia.
    repeat split; [done..|]. intros [|j'] y' Hlt Hj'; cbn in Hj'.
    + injection Hj' as <-. by rewrite Z.add_0_r.
    + replace (i + Z.of_nat (S j')) with (i + 1 + Z.of_nat j') by lia.
      apply Hno; [lia|done].
Qed.

(** [indexOf] of native arrays: the first position, from the clamped
    [fromIndex] on, of an element strictly equal to the one searched. *)
Lemma Array_indexOf_spec (l : list JS.value) x fromIndex :
  let n := default 0 fromIndex in
  let k := Z.to_nat (if n <? 0 then Z.max (JS.len l + n) 0 else n) in
  (Methods.Array_indexOf l x fromIndex = -1 ∧
   ∀ (j : nat) y, (k ≤ j)%nat → l !! j = Some y → JS.strict_equals y x = false) ∨
  (∃ (j : nat) y, Methods.Array_indexOf l x fromIndex = Z.of_nat j ∧ (k ≤ j)%nat ∧
     l !! j = Some y ∧ JS.strict_equals y x = true ∧
     ∀ (j' : nat) y', (k ≤ j' < j)%nat → l !! j' = Some y' →
                      JS.strict_equals y' x = false).
Proof.
  intros n k. unfold Methods.Array_indexOf. fold n.
  destruct (Z.geb_spec n (JS.len l)) as [Hge|Hlt].
  { left. split; [done|]. intros j y Hk Hj. apply lookup_lt_Some in Hj.
    unfold JS.len in Hge. subst k. destruct (Z.ltb_spec n 0); lia. }
  set (kz := if n <? 0 then Z.max (JS.len l + n) 0 else n) in *.
  assert (0 ≤ kz) as Hkz by (subst kz; destruct (Z.ltb_spec n 0); lia).
  destruct (first_from_spec (λ y _, JS.strict_equals y x) (drop (Z.to_nat kz) l) kz Hkz)
    as [[E Hno]|(j & y & E & Hj & Hy & Hno)].
  - left. split; [done|]. intros j y Hk Hj.
    apply (Hno (j - k)%nat y). rewrite lookup_drop. subst k.
    by replace (Z.to_nat kz + (j - Z.to_nat kz))%nat with j by lia.
  - right. rewrite lookup_drop in Hj. exists (Z.to_nat kz + j)%nat, y.
    repeat split; [rewrite E; lia | subst k; lia | done | done |].
    intros j' y' Hj' Hy'. apply (Hno (j' - k)%nat y'); [subst k; lia|].
    rewrite lookup_drop. subst k.
    by replace (Z.to_nat kz + (j' - Z.to_nat kz))%nat with j' by lia.
Qed.

Section Facts.
Context `{DeepReactivity}.
Implicit Types (a : t) (σ : Store) (h : addr) (items : list JS.value) (v x : JS.value).

Lemma settled_singleton v : makeItemReactive v = v → settled_items [v].
Proof. intros Hv. by repeat constructor. Qed.

Lemma settled_replicate n v : makeItemReactive v = v → settled_items (replicate n v).
Proof. intros Hv. by apply Forall_replicate. Qed.



Lemma handles_ok_alloc a σ z : handles_ok a σ → handles_ok a (snd (alloc σ z)).
Proof.
  intros Hok. pose proof Hok as (Hlen & Hnd & Hpos & Hwf).
  repeat split; [done..| |].
  - intros i h Hi. rewrite read_alloc.
    pose proof (handle_allocated _ _ _ _ Hok Hi). case_decide; [lia|]. by apply Hpos.
  - intros b. rewrite read_alloc. cbn. case_decide; [lia|].
    intros Hb. specialize (Hwf b Hb). lia.
Qed.

(** One call in range keeps a handle on its item. *)
Lemma tracks_splice a σ c h v a' σ' r :
  handles_ok a σ → in_range a c → tracks a σ h v →
  splice a σ (c_start c) (c_deleteCount c) (c_items c) = (a', σ', JS.Returns r) →
  tracks a' σ' h v.
Proof.
  intros Hok Hrange Htr E.
  destruct (splice_in_range a σ c Hok Hrange)
    as (a1 & σ1 & tasks & E1 & Hval & Hidx & Hrem & Hok' & Hdet & Hout & Hnext).
  rewrite E in E1. injection E1 as <- <- _.
  pose proof Hok as (Hlen & Hnd & Hpos & Hwf).
  pose proof Hok' as (Hlen' & Hnd' & Hpos' & Hwf').
  destruct Hrange as [Hs Hd].
  set (s := Z.to_nat (c_start c)) in *.
  set (d := Nat.min (Z.to_nat (default (JS.len (value a) - c_start c) (c_deleteCount c)))
                    (length (value a) - s)) in *.
  set (n := length (c_items c)) in *.
  assert (s + d ≤ length (value a))%nat as Hsd by (unfold JS.len in Hs; lia).
  assert (∀ g, g ∈ indices a' → g ∈ indices a ∨ (next σ ≤ g)%nat) as Hfrom.
  { intros g. rewrite Hidx, !elem_of_app, elem_of_seq.
    intros [Hg|[Hg|Hg]]; [left | right; lia | left].
    - apply elem_of_take in Hg as (i & Hi & _). by eapply list_elem_of_lookup_2.
    - apply elem_of_drop_lookup in Hg as (i & _ & Hi). by eapply list_elem_of_lookup_2. }
  destruct Htr as [(j & Hj & Hv & Hr)|[Hnot Hr]].
  - destruct (decide (s ≤ j < s + d)%nat) as [Hin|Hout'].
    + right. assert (h ∈ removed_handles a c) as Hh.
      { rewrite Hrem. apply elem_of_take_drop_lookup. by exists j. }
      split; [|by apply Hdet].
      intros Hh'. rewrite Hidx in Hh'. apply list_elem_of_lookup in Hh' as [i Hi].
      apply lookup_spliced in Hi; [|lia].
      pose proof (handle_allocated _ _ _ _ Hok Hj) as Halloc.
      destruct Hi as [[Hlt Hi]|[[Hlt Hi]|[Hlt Hi]]].
      * pose proof (NoDup_lookup _ _ _ _ Hnd Hi Hj). lia.
      * apply lookup_seq in Hi. lia.
      * rewrite length_seq in Hlt, Hi.
        pose proof (NoDup_lookup _ _ _ _ Hnd Hi Hj). lia.
    + left. set (j' := if decide (j < s)%nat then j else (j + n - d)%nat).
      exists j'. assert (indices a' !! j' = Some h) as Hj'.
      { rewrite Hidx. apply lookup_spliced; [lia|]. rewrite length_seq. subst j'.
        case_decide; [by left|]. right; right. split; [lia|].
        by replace (j + n - d - n + d)%nat with j by lia. }
      split; [done|]. split; [|by apply Hpos'].
      rewrite Hval. apply lookup_spliced; [lia|].
      unfold makeNonPrimitiveItemsReactive. rewrite length_map. subst j'.
      case_decide; [by left|]. right; right. split; [fold n; lia|]. fold n.
      by replace (j + n - d - n + d)%nat with j by lia.
  - right. assert (h < next σ)%nat as Hlt by (apply Hwf; by rewrite Hr).
    split; [|by rewrite Hout]. intros Hh. apply Hfrom in Hh as [Hh|Hh]; [done|lia].
Qed.

(** X3. [indexOf(x, fromIndex)] on an array whose handles are right returns
    a handle. When an item strictly equal to [x] stands at or behind the
    clamped [fromIndex], it is the array's own handle of the first such
    position, it holds that position and follows the item, and nothing is
    allocated. Otherwise it is a new handle that holds [-1] and is not a
    handle of the array, and no item from there on is strictly equal to [x]
    (so [NaN] is never found). *)
Theorem indexOf_handle a σ x fromIndex :
  handles_ok a σ →
  let n := default 0 fromIndex in
  let k := Z.to_nat (if n <? 0 then Z.max (JS.len (value a) + n) 0 else n) in
  ∃ h σ',
    Methods.indexOf a σ x fromIndex = (Some h, σ') ∧ handles_ok a σ' ∧
    ((∃ (j : nat) y, σ' = σ ∧ (k ≤ j)%nat ∧
        indices a !! j = Some h ∧ value a !! j = Some y ∧
        JS.strict_equals y x = true ∧ read σ h = Some (Z.of_nat j) ∧
        tracks a σ' h y ∧
        ∀ (j' : nat) y', (k ≤ j' < j)%nat → value a !! j' = Some y' →
                         JS.strict_equals y' x = false) ∨
     ((h ∉ indices a) ∧ read σ' h = Some (-1) ∧ (∀ y, tracks a σ' h y) ∧
      ∀ (j : nat) y, (k ≤ j)%nat → value a !! j = Some y →
                     JS.strict_equals y x = false)).
Proof.
  intros Hok n k. pose proof Hok as (Hlen & Hnd & Hpos & Hwf).
  unfold Methods.indexOf.
  destruct (Array_indexOf_spec (value a) x fromIndex)
    as [[E Hno]|(j & y & E & Hk & Hj & Hy & Hno)]; rewrite E.
  - cbn. exists (next σ), (snd (alloc σ (-1))). split; [done|].
    split; [by apply handles_ok_alloc|]. right.
    assert (next σ ∉ indices a) as Hfresh.
    { intros Hin. apply list_elem_of_lookup in Hin as [i Hi].
      pose proof (handle_allocated _ _ _ _ Hok Hi). lia. }
    assert (read (snd (alloc σ (-1))) (next σ) = Some (-1)) as Hr.
    { rewrite read_alloc. by case_decide. }
    split; [exact Hfresh|]. split; [exact Hr|]. split; [|exact Hno]. intros y. by right.
  - destruct (Z.eqb_spec (Z.of_nat j) (-1)); [lia|].
    destruct (lookup_lt_is_Some_2 (indices a) j) as [h Hh].
    { rewrite Hlen. by eapply lookup_lt_Some. }
    exists h, σ. rewrite index_nonneg, Nat2Z.id by lia.
    split; [by rewrite Hh|]. split; [done|]. left. exists j, y.
    repeat split; [done..|by apply Hpos| |done].
    left. exists j. repeat split; [done..|by apply Hpos].
Qed.

(** A call in range, with the position and the count as numbers of items. *)
Lemma splice_at a σ start dc items (s d : nat) :
  handles_ok a σ → 0 ≤ start ≤ JS.len (value a) → 0 ≤ dc →
  s = Z.to_nat start → d = Nat.min (Z.to_nat dc) (length (value a) - s) →
  ∃ a' σ' tasks,
    splice a σ start (Some dc) items =
      (a', σ', JS.Returns (take d (drop s (value a)), tasks)) ∧
    value a' = take s (value a) ++ makeNonPrimitiveItemsReactive items ++
               drop (s + d) (value a) ∧
    indices a' = take s (indices a) ++ seq (next σ) (length items) ++
                 drop (s + d) (indices a) ∧
    handles_ok a' σ' ∧
    (∀ h, h ∈ take d (drop s (indices a)) → read σ' h = Some (-1)) ∧
    (∀ h, h ∉ indices a → (h < next σ)%nat → read σ' h = read σ h) ∧
    (next σ ≤ next σ')%nat.
Proof.
  intros Hok Hs Hd -> ->.
  destruct (splice_in_range a σ (mkCall start (Some dc) items) Hok)
    as (a' & σ' & tasks & E & Hval & Hidx & Hrem & Hok' & Hdet & Hout & Hnext).
  { by split. }
  cbn [c_start c_deleteCount c_items] in *.
  change (default _ (Some dc)) with dc in *.
  exists a', σ', tasks. rewrite Hrem in Hdet.
  split; [done|]. split; [done|]. split; [done|]. split; [done|]. by split.
Qed.

(** A handle that holds [-1] is not a handle of an array whose handles are
    right. *)
Lemma detached_not_handle a σ h :
  handles_ok a σ → read σ h = Some (-1) → h ∉ indices a.
Proof.
  intros (_ & _ & Hpos & _) Hr Hin. apply list_elem_of_lookup in Hin as [i Hi].
  rewrite (Hpos _ _ Hi) in Hr. injection Hr. lia.
Qed.

(** One call in range moves a handle with its item. *)
Lemma followed_step a σ c a' σ' r (j : nat) h v :
  handles_ok a σ → in_range a c →
  splice a σ (c_start c) (c_deleteCount c) (c_items c) = (a', σ', JS.Returns r) →
  indices a !! j = Some h → value a !! j = Some v →
  match position_after a c j with
  | Some j' => indices a' !! j' = Some h ∧ value a' !! j' = Some v
  | None => read σ' h = Some (-1)
  end.
Proof.
  intros Hok Hrange E Hj Hv.
  destruct (splice_in_range a σ c Hok Hrange)
    as (a1 & σ1 & tasks & E1 & Hval & Hidx & Hrem & Hok' & Hdet & Hout & Hnext).
  rewrite E in E1. injection E1 as <- <- _.
  pose proof Hok as (Hlen & Hnd & Hpos & Hwf).
  destruct Hrange as [Hs Hd]. unfold position_after.
  set (s := Z.to_nat (c_start c)) in *.
  set (d := Nat.min (Z.to_nat (default (JS.len (value a) - c_start c) (c_deleteCount c)))
                    (length (value a) - s)) in *.
  set (n := length (c_items c)) in *.
  assert (s + d ≤ length (value a))%nat as Hsd by (unfold JS.len in Hs; lia).
  assert (length (makeNonPrimitiveItemsReactive (c_items c)) = n) as Hn.
  { unfold makeNonPrimitiveItemsReactive. by rewrite length_map. }
  destruct (Nat.ltb_spec j s) as [Hlt|Hge].
  { split.
    - rewrite Hidx. apply lookup_spliced; [lia|]. by left.
    - rewrite Hval. apply lookup_spliced; [lia|]. by left. }
  destruct (Nat.ltb_spec j (s + d)) as [Hin|Hafter].
  { apply Hdet. rewrite Hrem. apply elem_of_take_drop_lookup. by exists j. }
  split.
  - rewrite Hidx. apply lookup_spliced; [lia|]. rewrite length_seq.
    right; right. split; [lia|]. by replace (j + n - d - n + d)%nat with j by lia.
  - rewrite Hval. apply lookup_spliced; [lia|]. rewrite Hn.
    right; right. split; [lia|]. by replace (j + n - d - n + d)%nat with j by lia.
Qed.

(** X2. Through every sequence of calls of [splice] in range that return,
    the handles stay right and a handle follows its item. The position of
    the item is followed call by call: while the item is in the array the
    handle is the handle of that position, the item stands there, and the
    handle holds the position; once a call has deleted the item the handle
    holds [-1] and is a handle of the array no more. *)
Theorem handle_follows_item a0 σ0 (j0 : nat) h v a σ pos :
  handles_ok a0 σ0 → indices a0 !! j0 = Some h → value a0 !! j0 = Some v →
  followed a0 σ0 j0 a σ pos →
  handles_ok a σ ∧
  match pos with
  | Some j =>
      indices a !! j = Some h ∧ value a !! j = Some v ∧
      read σ h = Some (Z.of_nat j)
  | None => (h ∉ indices a) ∧ read σ h = Some (-1)
  end.
Proof.
  intros Hok Hj Hv Hreach.
  induction Hreach as [|a σ pos c a' σ' r Hreach [IHok IH] Hrange E].
  { split; [done|]. split; [done|]. split; [done|].
    destruct Hok as (_ & _ & Hpos & _). by apply Hpos. }
  destruct (splice_in_range a σ c IHok Hrange)
    as (a1 & σ1 & tasks & E1 & _ & _ & _ & Hok' & _ & Hout & _).
  cbn zeta in E1. rewrite E in E1. injection E1 as <- <- _.
  split; [done|]. destruct pos as [j|]; cbn [mbind option_bind].
  - destruct IH as (Hj' & Hv' & _).
    pose proof (followed_step a σ c a' σ' r j h v IHok Hrange E Hj' Hv') as Hstep.
    destruct (position_after a c j) as [j'|].
    + destruct Hstep as [Hi Hx]. split; [done|]. split; [done|].
      destruct Hok' as (_ & _ & Hpos' & _). by apply Hpos'.
    + split; [|done]. by eapply detached_not_handle.
  - destruct IH as [Hnot Hr].
    assert (read σ' h = Some (-1)) as Hr'.
    { rewrite Hout; [done | done |].
      destruct IHok as (_ & _ & _ & Hwf). apply Hwf. rewrite Hr. eauto. }
    split; [|done]. by eapply detached_not_handle.
Qed.



(** Replacing the whole content: the call [splice(0, length, ...items)]. *)
Lemma splice_whole_array a σ items :
  handles_ok a σ →
  ∃ a' σ' tasks,
    splice a σ 0 (Some (JS.len (value a))) items = (a', σ', JS.Returns (value a, tasks)) ∧
    value a' = makeNonPrimitiveItemsReactive items ∧
    handles_ok a' σ' ∧
    ∀ h, h ∈ indices a → read σ' h = Some (-1).
Proof.
  intros Hok. pose proof Hok as (Hlen & Hnd & Hpos & Hwf).
  pose proof (len_nonneg (value a)) as Hnn.
  destruct (splice_at a σ 0 (JS.len (value a)) items 0 (length (value a)) Hok)
    as (a' & σ' & tasks & E & Hval & Hidx & Hok' & Hdet & Hout & Hnext);
    [unfold JS.len; lia..|].
  rewrite drop_0, take_ge in E by lia. cbn in Hval.
  rewrite drop_ge, app_nil_r in Hval by lia.
  rewrite drop_0, take_ge in Hdet by lia.
  by exists a', σ', tasks.
Qed.


Lemma settled_items_rev (l : list JS.value) : settled_items l → settled_items (rev l).
Proof.
  unfold settled_items. induction 1 as [|x l Hx Hl IH]; [constructor|].
  cbn. apply Forall_app. split; [done|]. by constructor.
Qed.

(** X7. [reverse()] on an array whose handles are right, the items being
    reactive already, leaves the items in reverse order with the handles
    right, and reversing again restores the items. Every handle the array
    had before holds [-1] afterwards, although its item is still there. *)
Theorem reverse_reverses a σ :
  handles_ok a σ → settled_items (value a) →
  ∃ a' σ' r,
    Methods.reverse a σ = (a', σ', JS.Returns r) ∧
    value a' = rev (value a) ∧
    handles_ok a' σ' ∧
    (∀ h, h ∈ indices a → read σ' h = Some (-1) ∧ h ∉ indices a') ∧
    ∃ a'' σ'' r',
      Methods.reverse a' σ' = (a'', σ'', JS.Returns r') ∧ value a'' = value a.
Proof.
  intros Hok Hset. pose proof Hok as (Hlen & Hnd & Hpos & Hwf).
  assert (∀ b τ, handles_ok b τ → settled_items (value b) →
            ∃ b' τ' r, Methods.reverse b τ = (b', τ', JS.Returns r) ∧
              value b' = rev (value b) ∧ handles_ok b' τ' ∧
              ∀ h, h ∈ indices b → read τ' h = Some (-1) ∧ h ∉ indices b') as Hone.
  { intros b τ Hb Hsb. unfold Methods.reverse.
    set (b1 := {| value := rev (value b); indices := indices b; callbacks := callbacks b |}).
    assert (handles_ok b1 τ) as Hb1.
    { destruct Hb as (? & ? & ? & ?). repeat split; [|done..]. cbn. by rewrite length_rev. }
    destruct (splice_whole_array b1 τ (rev (value b)) Hb1)
      as (b' & τ' & tasks & E & Hval & Hok' & Hdet).
    exists b', τ', (value b1, tasks). split; [exact E|]. split.
    { rewrite Hval. unfold makeNonPrimitiveItemsReactive.
      apply settled_items_rev in Hsb. clear -Hsb.
      induction Hsb as [|x l Hx Hl IH]; [done|]. cbn. by rewrite Hx, IH. }
    split; [done|]. intros h Hh. split; [by apply Hdet|].
    eapply detached_not_handle; [done|by apply Hdet]. }
  destruct (Hone a σ Hok Hset) as (a' & σ' & r & E & Hval & Hok' & Hdet).
  exists a', σ', r. split; [done|]. split; [done|]. split; [done|]. split; [done|].
  destruct (Hone a' σ' Hok') as (a'' & σ'' & r' & E' & Hval' & _).
  { rewrite Hval. by apply settled_items_rev. }
  exists a'', σ'', r'. split; [done|]. by rewrite Hval', Hval, rev_involutive.
Qed.


End Facts.
#[local] Existing Instance already_reactive.

(** *** The theorems on [[1, 2, 3]] and [[1, 2, 3, 4, 5]] *)


Lemma handle_follows_item_witness :
  let a0 := fst one_two_three in
  let σ0 := snd one_two_three in
  let r := splice a0 σ0 0 (Some 1) [] in
  let a := fst (fst r) in
  let σ := snd (fst r) in
  handles_ok a σ ∧
  indices a !! 0%nat = Some 1%nat ∧ value a !! 0%nat = Some (JS.num 2) ∧
  read σ 1%nat = Some 0.
Proof.
  cbn zeta.
  assert (followed (fst one_two_three) (snd one_two_three) 1
            (fst (fst (splice (fst one_two_three) (snd one_two_three) 0 (Some 1) [])))
            (snd (fst (splice (fst one_two_three) (snd one_two_three) 0 (Some 1) [])))
            (Some 1%nat ≫= position_after (fst one_two_three) (mkCall 0 (Some 1) [])))
    as Hfollowed.
  { eapply (followed_splice _ _ _ _ _ _ (mkCall 0 (Some 1) []));
      [apply followed_start | split; by vm_compute | by vm_compute]. }
  refine (handle_follows_item (fst one_two_three) (snd one_two_three)
            1%nat 1%nat (JS.num 2) _ _ _ _ _ _ Hfollowed).
  - apply new_handles_ok, empty_store_wf.
  - reflexivity.
  - reflexivity.
Defined.

Lemma indexOf_handle_witness :
  let a := fst one_two_three in
  let σ := snd one_two_three in
  let x := JS.num 2 in
  ∃ h σ',
    Methods.indexOf a σ x None = (Some h, σ') ∧ handles_ok a σ' ∧
    ((∃ (j : nat) y, σ' = σ ∧ (0 ≤ j)%nat ∧
        indices a !! j = Some h ∧ value a !! j = Some y ∧
        JS.strict_equals y x = true ∧ read σ h = Some (Z.of_nat j) ∧
        tracks a σ' h y ∧
        ∀ (j' : nat) y', (0 ≤ j' < j)%nat → value a !! j' = Some y' →
                         JS.strict_equals y' x = false) ∨
     ((h ∉ indices a) ∧ read σ' h = Some (-1) ∧ (∀ y, tracks a σ' h y) ∧
      ∀ (j : nat) y, (0 ≤ j)%nat → value a !! j = Some y →
                     JS.strict_equals y x = false)).
Proof.
  cbn zeta.
  apply (indexOf_handle (fst one_two_three) (snd one_two_three) (JS.num 2) None).
  apply new_handles_ok, empty_store_wf.
Defined.




Lemma reverse_reverses_witness :
  let a := fst one_two_three in
  let σ := snd one_two_three in
  ∃ a' σ' r,
    Methods.reverse a σ = (a', σ', JS.Returns r) ∧
    value a' = rev (value a) ∧
    handles_ok a' σ' ∧
    (∀ h, h ∈ indices a → read σ' h = Some (-1) ∧ h ∉ indices a') ∧
    ∃ a'' σ'' r',
      Methods.reverse a' σ' = (a'', σ'', JS.Returns r') ∧ value a'' = value a.
Proof.
  cbn zeta.
  apply (reverse_reverses (fst one_two_three) (snd one_two_three)).
  - apply new_handles_ok, empty_store_wf.
  - vm_compute. repeat constructor.
Defined.


End MethodsFacts.


(** ** ReactiveArray: listeners and [slice] *)

Module ListenerFacts.
Import ReactiveArray JSFacts StoreFacts ReactiveArrayFacts FilterFacts.
Import Intended.

Lemma tasks_to_absent cb (u : Update) (l : list Callback) :
  cb ∉ l → tasks_to cb (map (λ c, (c, u)) l) = [].
Proof.
  induction l as [|x l IH]; [done|]. intros [Hne Hn]%not_elem_of_cons. cbn.
  destruct (Nat.eqb_spec x cb) as [->|_]; [done|]. by apply IH.
Qed.

Lemma tasks_to_member cb (u : Update) (l : list Callback) :
  NoDup l → cb ∈ l → tasks_to cb (map (λ c, (c, u)) l) = [(cb, u)].
Proof.
  induction 1 as [|x l Hx Hl IH]; [by intros ?%elem_of_nil|].
  intros Hin. cbn. destruct (Nat.eqb_spec x cb) as [->|Hne].
  - f_equal. by apply tasks_to_absent.
  - apply IH. apply elem_of_cons in Hin as [->|Hin]; done.
Qed.

Section Facts.
Context `{DeepReactivity}.


(** From a positive start the first run of the listener of [slice] throws. *)
Lemma slice_positive_start a σ start end_ listener :
  let e := default (JS.len (value a) - 1) end_ in
  0 < start → start < e → value a ≠ [] →
  ∃ a' newArr σ',
    slice a σ (Some start) end_ listener = (a', newArr, σ', JS.Throws JS.TypeError) ∧
    value newArr = makeNonPrimitiveItemsReactive (JS.slice (value a) start e) ∧
    (listener ∈ callbacks a').
Proof.
  intros e Hs He Hne. unfold slice. change (default 0 (Some start)) with start. fold e.
  destruct (new (JS.slice (value a) start e) σ) as [newArr σ0] eqn:Enew.
  cbn [bind value fst]. unfold slice_listener.
  assert (value newArr = makeNonPrimitiveItemsReactive (JS.slice (value a) start e)) as Hval.
  { unfold new in Enew. destruct (new_handles _ 0 0 σ). by injection Enew as <- _. }
  assert (0 < JS.len (JS.slice (value a) 0 (e - start - 0))) as Hitems.
  { rewrite slice_prefix. unfold JS.actual_start, JS.relative.
    destruct (Z.ltb_spec (e - start - 0) 0); [lia|].
    unfold JS.len. rewrite length_take.
    assert (0 < length (value a))%nat by (destruct (value a); [done|cbn; lia]).
    lia. }
  rewrite splice_throws_TypeError.
  - exists {| value := value a; indices := indices a;
             callbacks := Set_add listener (callbacks a) |}, newArr, σ0.
    split; [done|]. split; [done|]. cbn. apply Set_add_elem. by left.
  - pose proof (len_nonneg (value newArr)). lia.
  - change (default _ (Some 0)) with 0. lia.
  - change (default _ (Some 0)) with 0. lia.
Qed.

End Facts.
#[local] Existing Instance already_reactive.

(** *** A listener on [[1, 2, 3]] *)


End ListenerFacts.


(** ** ReactiveArray: the views [filter] and [slice] *)

Module ViewFacts.
Import ReactiveArray JSFacts StoreFacts ReactiveArrayFacts FilterFacts ListenerFacts.

Section Facts.
Context `{DeepReactivity}.

(** X10. For a predicate that depends on the item only, [filter] returns
    the items that pass together with a mask that records, for every item
    of the source, its verdict and the position in the view of the last
    item up to it that passes; and a run of the listener for an edit in
    range brings the view and the mask in the same agreement with the
    edited source. So the view stays exact over any number of such
    edits. *)
Theorem filter_stays_exact (p : JS.value → bool)
  (callback : JS.value → Z → list JS.value → bool) :
  (∀ v i l, callback v i l = p v) →
  (∀ a σ listener,
     settled_items (value a) →
     ∃ a1 f1 σ1 tasks,
       filter callback a σ listener = (a1, f1, σ1, JS.Returns tasks) ∧
       value a1 = value a ∧ filter_ok p (value a) f1) ∧
  (∀ this_value f σ start deletes items src,
     filter_ok p src f → settled_items items →
     0 ≤ start ≤ JS.len src → 0 ≤ deletes →
     ∃ f' σ' tasks,
       filter_listener callback this_value f σ start deletes items =
         (f', σ', JS.Returns tasks) ∧
       filter_ok p (fst (JS.splice src start deletes items)) f').
Proof.
  intros Hcb. split.
  - intros a σ listener Hset.
    destruct (filter_creates p callback Hcb a σ listener Hset)
      as (a1 & f1 & σ1 & tasks & E & Hv & _ & _ & Hok).
    by exists a1, f1, σ1, tasks.
  - intros this_value f σ start deletes items src Hok Hset Hs Hd.
    by apply (filter_ok_preserved p callback Hcb).
Qed.

(** X11. [slice(start, end)]: the listener is bound with a first run, which
    splices the slice into the new array a second time. From [start = 0]
    the call returns the sliced items twice; from a positive [start] below
    [end], on an array that is not empty, that first run starts its splice
    at a negative position and the call throws a [TypeError], after the
    listener has been added to the source. *)
Theorem slice_outcomes a σ start end_ listener :
  let e := default (JS.len (value a) - 1) end_ in
  (start = 0 →
   ∃ a' newArr σ' tasks,
     slice a σ (Some start) end_ listener = (a', newArr, σ', JS.Returns tasks) ∧
     value newArr = makeNonPrimitiveItemsReactive (JS.slice (value a) 0 e) ++
                    makeNonPrimitiveItemsReactive (JS.slice (value a) 0 e)) ∧
  (0 < start → start < e → value a ≠ [] →
   ∃ a' newArr σ',
     slice a σ (Some start) end_ listener = (a', newArr, σ', JS.Throws JS.TypeError) ∧
     value newArr = makeNonPrimitiveItemsReactive (JS.slice (value a) start e) ∧
     (listener ∈ callbacks a')).
Proof.
  intros e. split.
  - intros ->. apply slice_from_start_doubles.
  - apply slice_positive_start.
Qed.

End Facts.

#[local] Existing Instance already_reactive.

(** *** The even items *)

Lemma filter_stays_exact_witness :
  let p := is_even in
  let callback := λ v (_ : Z) (_ : list JS.value), is_even v in
  (∀ a σ listener,
     settled_items (value a) →
     ∃ a1 f1 σ1 tasks,
       filter callback a σ listener = (a1, f1, σ1, JS.Returns tasks) ∧
       value a1 = value a ∧ filter_ok p (value a) f1) ∧
  (∀ this_value f σ start deletes items src,
     filter_ok p src f → settled_items items →
     0 ≤ start ≤ JS.len src → 0 ≤ deletes →
     ∃ f' σ' tasks,
       filter_listener callback this_value f σ start deletes items =
         (f', σ', JS.Returns tasks) ∧
       filter_ok p (fst (JS.splice src start deletes items)) f').
Proof.
  cbn zeta. apply (filter_stays_exact is_even (λ v _ _, is_even v)). reflexivity.
Defined.

End ViewFacts.


(** ** ReactiveArray: [mutFilter] and [mutMap] *)

Module MutFacts.
Import ReactiveArray JSFacts StoreFacts ReactiveArrayFacts FilterFacts.
Import Intended MethodsFacts.

Lemma splice_replace {A} (l : list A) s c items :
  0 ≤ s → 0 ≤ c → s + c ≤ JS.len l →
  fst (JS.splice l s c items) =
    take (Z.to_nat s) l ++ items ++ drop (Z.to_nat (s + c)) l.
Proof.
  intros Hs Hc Hb. rewrite splice_unfold. cbn [fst].
  rewrite actual_start_in_range by lia.
  rewrite actual_count_in_range by lia. unfold JS.len in Hb.
  do 3 f_equal. lia.
Qed.

Lemma splice_delete {A} (l : list A) s c :
  0 ≤ s → 0 ≤ c → s + c ≤ JS.len l →
  fst (JS.splice l s c []) = take (Z.to_nat s) l ++ drop (Z.to_nat (s + c)) l.
Proof. intros. by rewrite splice_replace. Qed.

Lemma indices_to_delete_snoc callback a l x i :
  Methods.indices_to_delete callback a (l ++ [x]) i =
    Methods.indices_to_delete callback a l i ++
    (if callback x (i + JS.len l) a then [] else [i + JS.len l]).
Proof.
  revert i. induction l as [|y l IH]; intros i; cbn.
  { unfold JS.len; cbn. rewrite Z.add_0_r. by rewrite app_nil_r. }
  rewrite IH. unfold JS.len. cbn [length].
  replace (i + 1 + Z.of_nat (length l)) with (i + Z.of_nat (S (length l))) by lia.
  by rewrite app_assoc.
Qed.

Lemma Array_filter_snoc callback a l x i :
  Array_filter callback a (l ++ [x]) i =
    Array_filter callback a l i ++
    (if callback x (i + JS.len l) a then [x] else []).
Proof.
  revert i. induction l as [|y l IH]; intros i; cbn.
  { unfold JS.len; cbn. rewrite Z.add_0_r. by rewrite app_nil_r. }
  rewrite IH. unfold JS.len. cbn [length].
  replace (i + 1 + Z.of_nat (length l)) with (i + Z.of_nat (S (length l))) by lia.
  by rewrite app_assoc.
Qed.

Lemma runs_ok_mono b b' runs : b ≤ b' → runs_ok b runs → runs_ok b' runs.
Proof. destruct runs as [|[s c] rest]; [done|]. cbn. intros ? (?&?&?&?). repeat split; (done || lia). Qed.

Lemma delete_runs_cons {A} (l : list A) s c rest :
  delete_runs l ((s, c) :: rest) = delete_runs (fst (JS.splice l s c [])) rest.
Proof. done. Qed.

(** Runs below the end of [l] are deleted from [l ++ t] as from [l]. *)
Lemma delete_runs_app {A} (l t : list A) b runs :
  runs_ok b runs → b ≤ JS.len l →
  delete_runs (l ++ t) runs = delete_runs l runs ++ t.
Proof.
  revert l b. induction runs as [|[s c] rest IH]; intros l b Hok Hb; [done|].
  destruct Hok as (Hs & Hc & Hsc & Hrest). rewrite !delete_runs_cons.
  rewrite !splice_delete by (rewrite ?len_app; pose proof (len_nonneg t); lia).
  unfold JS.len in Hb.
  rewrite take_app_le by lia. rewrite drop_app_le by lia.
  rewrite app_assoc. apply (IH _ s Hrest).
  unfold JS.len. rewrite length_app, length_take, length_drop. lia.
Qed.

(** The runs that [mutFilter] computes, deleted in its order, leave
    [l.filter(callback)]. *)
Lemma grouped_runs_delete callback a l :
  let runs := fold_left Methods.group_deleted
                        (Methods.indices_to_delete callback a l 0) [] in
  runs_ok (JS.len l) runs ∧ delete_runs l runs = Array_filter callback a l 0.
Proof.
  induction l as [|x l IH] using rev_ind; [done|].
  cbn zeta in *. rewrite indices_to_delete_snoc, Array_filter_snoc, fold_left_app.
  rewrite len_app. change (JS.len [x]) with 1.
  destruct IH as [Hok Hdel]. pose proof (len_nonneg l) as Hnn.
  set (runs := fold_left Methods.group_deleted _ []) in *.
  rewrite Z.add_0_l. destruct (callback x (JS.len l) a); cbn [fold_left].
  { split; [eapply runs_ok_mono; [|done]; lia|].
    rewrite (delete_runs_app _ _ _ _ Hok) by lia. by rewrite Hdel. }
  rewrite app_nil_r. unfold Methods.group_deleted.
  destruct runs as [|[s c] rest].
  { split; [cbn; lia|]. rewrite delete_runs_cons.
    rewrite splice_delete by (rewrite ?len_app; change (JS.len [x]) with 1; lia).
    unfold JS.len. rewrite Nat2Z.id, take_app_length.
    rewrite drop_ge by (rewrite length_app; cbn; lia). rewrite app_nil_r.
    exact Hdel. }
  destruct Hok as (Hs & Hc & Hsc & Hrest).
  destruct (Z.eqb_spec (s + c) (JS.len l)) as [Heq|Hne]; cbn [negb].
  - split; [cbn; repeat split; (done || lia)|].
    rewrite <- Hdel. rewrite !delete_runs_cons. f_equal.
    rewrite !splice_delete by (rewrite ?len_app; change (JS.len [x]) with 1; lia).
    unfold JS.len in *.
    rewrite take_app_le by lia.
    rewrite !drop_ge by (rewrite ?length_app; cbn; lia). done.
  - split; [cbn; repeat split; (done || lia)|].
    rewrite <- Hdel. rewrite (delete_runs_cons (l ++ [x])). f_equal.
    rewrite splice_delete by (rewrite ?len_app; change (JS.len [x]) with 1; lia).
    unfold JS.len. rewrite Nat2Z.id, take_app_length.
    rewrite drop_ge by (rewrite length_app; cbn; lia). by rewrite app_nil_r.
Qed.

(** Deleting from a list and from its image under a function agree. *)
Lemma splice_delete_fmap {A B} (g : A → B) (l : list A) s c :
  fst (JS.splice (g <$> l) s c []) = g <$> fst (JS.splice l s c []).
Proof.
  rewrite !splice_unfold. cbn [fst app].
  rewrite (actual_start_same_length (g <$> l) l) by apply length_fmap.
  rewrite (actual_count_same_length (g <$> l) l) by apply length_fmap.
  by rewrite fmap_app, fmap_take, fmap_drop.
Qed.

Lemma delete_runs_fmap {A B} (g : A → B) (l : list A) runs :
  delete_runs (g <$> l) runs = g <$> delete_runs l runs.
Proof.
  revert l. induction runs as [|[s c] rest IH]; intros l; [done|].
  rewrite !delete_runs_cons, splice_delete_fmap. apply IH.
Qed.

Lemma kept_entries_snoc callback a (l : list (addr * JS.value)) e i :
  kept_entries callback a (l ++ [e]) i =
    kept_entries callback a l i ++
    (if callback (snd e) (i + JS.len l) a then [e] else []).
Proof.
  revert i. induction l as [|y l IH]; intros i; cbn.
  { unfold JS.len; cbn. rewrite Z.add_0_r. by rewrite app_nil_r. }
  rewrite IH. unfold JS.len. cbn [length].
  replace (i + 1 + Z.of_nat (length l)) with (i + Z.of_nat (S (length l))) by lia.
  by rewrite app_assoc.
Qed.

(** The entries that are kept are those at the positions where the
    callback accepts the item. *)
Lemma elem_of_kept_entries callback a (l : list (addr * JS.value)) i e :
  e ∈ kept_entries callback a l i ↔
  ∃ j : nat, l !! j = Some e ∧ callback (snd e) (i + Z.of_nat j) a = true.
Proof.
  revert i. induction l as [|y l IH]; intros i; cbn [kept_entries].
  { split; [by intros ?%elem_of_nil | by intros (j & ? & _)]. }
  rewrite elem_of_app, IH. split.
  - intros [Hy|(j & Hj & Hc)].
    + destruct (callback (snd y) i a) eqn:Ey; [|by apply elem_of_nil in Hy].
      apply list_elem_of_singleton in Hy as ->. exists 0%nat.
      by rewrite Z.add_0_r.
    + exists (S j). split; [done|].
      by replace (i + Z.of_nat (S j)) with (i + 1 + Z.of_nat j) by lia.
  - intros ([|j] & Hj & Hc); cbn in Hj.
    + injection Hj as ->. rewrite Z.add_0_r in Hc. rewrite Hc. left.
      by apply list_elem_of_singleton.
    + right. exists j. split; [done|].
      by replace (i + 1 + Z.of_nat j) with (i + Z.of_nat (S j)) by lia.
Qed.

(** The runs that [mutFilter] computes from the items, deleted from the
    entries in its order, leave the entries whose item the callback
    keeps. *)
Lemma grouped_runs_delete_entries callback a (l : list (addr * JS.value)) :
  let runs := fold_left Methods.group_deleted
                        (Methods.indices_to_delete callback a (l.*2) 0) [] in
  runs_ok (JS.len l) runs ∧ delete_runs l runs = kept_entries callback a l 0.
Proof.
  induction l as [|x l IH] using rev_ind; [done|].
  cbn zeta in *. rewrite fmap_app. cbn [fmap list_fmap].
  rewrite indices_to_delete_snoc, kept_entries_snoc, fold_left_app.
  rewrite len_app. change (JS.len [x]) with 1.
  assert (JS.len (l.*2) = JS.len l) as -> by (unfold JS.len; by rewrite length_fmap).
  destruct IH as [Hok Hdel]. pose proof (len_nonneg l) as Hnn.
  set (runs := fold_left Methods.group_deleted _ []) in *.
  rewrite Z.add_0_l. destruct (callback (snd x) (JS.len l) a); cbn [fold_left].
  { split; [eapply runs_ok_mono; [|done]; lia|].
    rewrite (delete_runs_app _ _ _ _ Hok) by lia. by rewrite Hdel. }
  rewrite app_nil_r. unfold Methods.group_deleted.
  destruct runs as [|[s c] rest].
  { split; [cbn; lia|]. rewrite delete_runs_cons.
    rewrite splice_delete by (rewrite ?len_app; change (JS.len [x]) with 1; lia).
    unfold JS.len. rewrite Nat2Z.id, take_app_length.
    rewrite drop_ge by (rewrite length_app; cbn; lia). rewrite app_nil_r.
    exact Hdel. }
  destruct Hok as (Hs & Hc & Hsc & Hrest).
  destruct (Z.eqb_spec (s + c) (JS.len l)) as [Heq|Hne]; cbn [negb].
  - split; [cbn; repeat split; (done || lia)|].
    rewrite <- Hdel. rewrite !delete_runs_cons. f_equal.
    rewrite !splice_delete by (rewrite ?len_app; change (JS.len [x]) with 1; lia).
    unfold JS.len in *.
    rewrite take_app_le by lia.
    rewrite !drop_ge by (rewrite ?length_app; cbn; lia). done.
  - split; [cbn; repeat split; (done || lia)|].
    rewrite <- Hdel. rewrite (delete_runs_cons (l ++ [x])). f_equal.
    rewrite splice_delete by (rewrite ?len_app; change (JS.len [x]) with 1; lia).
    unfold JS.len. rewrite Nat2Z.id, take_app_length.
    rewrite drop_ge by (rewrite length_app; cbn; lia). by rewrite app_nil_r.
Qed.

Lemma Array_filter_item (p : JS.value → bool) callback a l i :
  (∀ v j, callback v j a = p v) → Array_filter callback a l i = List.filter p l.
Proof.
  intros Hp. revert i. induction l as [|x l IH]; intros i; [done|].
  cbn. rewrite Hp, IH. by destruct (p x).
Qed.

Section Facts.
Context `{DeepReactivity}.

(** Calls that delete non-overlapping runs, the highest first, all return
    and keep the handles right; the handles are deleted with their
    items. *)
Lemma splice_each_runs a σ b runs :
  handles_ok a σ → runs_ok b runs → b ≤ JS.len (value a) →
  ∃ a' σ' tasks,
    Methods.splice_each a σ (map (λ g, mkCall (fst g) (Some (snd g)) []) runs) =
      (a', σ', JS.Returns tasks) ∧
    value a' = delete_runs (value a) runs ∧
    indices a' = delete_runs (indices a) runs ∧
    handles_ok a' σ' ∧
    ∀ h v, tracks a σ h v → tracks a' σ' h v.
Proof.
  revert a σ b. induction runs as [|[s c] rest IH]; intros a σ b Hok Hruns Hb.
  { by exists a, σ, []. }
  destruct Hruns as (Hs & Hc & Hsc & Hrest). cbn [map Methods.splice_each fst snd].
  cbn [c_start c_deleteCount c_items].
  destruct (splice_at a σ s c [] (Z.to_nat s)
              (Nat.min (Z.to_nat c) (length (value a) - Z.to_nat s)) Hok)
    as (a1 & σ1 & tasks1 & E & Hval & Hidx & Hok1 & _); [lia..|].
  rewrite E.
  destruct (splice_returns _ _ _ _ _ _ _ _ _ E) as (_ & Hv & _).
  change (makeNonPrimitiveItemsReactive []) with (@nil JS.value) in Hv.
  change (default _ (Some c)) with c in Hv.
  assert (indices a1 = fst (JS.splice (indices a) s c [])) as Hi.
  { destruct Hok as (Hlen & _). rewrite Hidx, splice_delete; [|lia|lia|].
    - cbn [length seq app]. unfold JS.len in Hb. do 2 f_equal. lia.
    - unfold JS.len in *. lia. }
  destruct (IH a1 σ1 s Hok1 Hrest) as (a' & σ' & tasks & E' & Hval' & Hidx' & Hok' & Htr).
  { rewrite Hv, splice_delete by lia. unfold JS.len in *.
    rewrite length_app, length_take, length_drop. lia. }
  rewrite E'. exists a', σ', (tasks1 ++ tasks). split; [done|]. split.
  { by rewrite Hval', Hv. }
  split. { by rewrite Hidx', Hi. }
  split; [done|]. intros h v Hh. apply Htr.
  eapply (tracks_splice a σ (mkCall s (Some c) [])); [done| |done|exact E].
  split; cbn [c_start c_deleteCount]; [lia|]. change (default _ (Some c)) with c. lia.
Qed.

(** X12. [mutFilter(callback)] on an array whose handles are right returns
    and leaves exactly the items that [#value.filter(callback)] keeps (the
    callback sees the items, positions and array as they were before the
    call), in their order. The handles are right afterwards, and each
    handle has gone with its item: the handle of an item that is kept is
    the handle of a position that holds that item, and holds that position;
    the handle of an item that is deleted holds [-1] and is a handle of the
    array no more. *)
Theorem mutFilter_filters a σ callback :
  handles_ok a σ →
  ∃ a' σ' tasks,
    Methods.mutFilter a σ callback = (a', σ', JS.Returns tasks) ∧
    value a' = Array_filter callback (value a) (value a) 0 ∧
    (∀ p : JS.value → bool, (∀ v i, callback v i (value a) = p v) →
                            value a' = List.filter p (value a)) ∧
    handles_ok a' σ' ∧
    ∀ (j : nat) h v, indices a !! j = Some h → value a !! j = Some v →
      if callback v (Z.of_nat j) (value a)
      then ∃ j' : nat, indices a' !! j' = Some h ∧ value a' !! j' = Some v ∧
                       read σ' h = Some (Z.of_nat j')
      else (h ∉ indices a') ∧ read σ' h = Some (-1).
Proof.
  intros Hok. pose proof Hok as (Hlen & Hnd & Hpos & Hwf). unfold Methods.mutFilter.
  destruct (grouped_runs_delete callback (value a) (value a)) as [Hruns Hdel].
  destruct (splice_each_runs a σ _ _ Hok Hruns)
    as (a' & σ' & tasks & E & Hval & Hidx & Hok' & Htr); [lia|].
  exists a', σ', tasks. split; [exact E|]. split; [by rewrite Hval, Hdel|].
  split; [intros p Hp; rewrite Hval, Hdel; by apply Array_filter_item|].
  split; [done|].
  (* the handles and the items, entry by entry *)
  set (entries := zip (indices a) (value a)).
  assert (entries.*1 = indices a) as H1 by (apply fst_zip; lia).
  assert (entries.*2 = value a) as H2 by (apply snd_zip; lia).
  pose proof (grouped_runs_delete_entries callback (value a) entries) as [_ Hkept].
  cbn zeta in Hkept. rewrite H2 in Hkept.
  set (runs := fold_left Methods.group_deleted _ []) in *.
  assert (indices a' = (kept_entries callback (value a) entries 0).*1) as Hidx'.
  { by rewrite Hidx, <- H1, delete_runs_fmap, Hkept. }
  assert (value a' = (kept_entries callback (value a) entries 0).*2) as Hval'.
  { by rewrite Hval, <- H2 at 1; rewrite delete_runs_fmap, Hkept. }
  intros j h v Hj Hv.
  assert (entries !! j = Some (h, v)) as He.
  { unfold entries. rewrite lookup_zip_with, Hj. cbn. by rewrite Hv. }
  destruct (callback v (Z.of_nat j) (value a)) eqn:Ecb.
  - assert ((h, v) ∈ kept_entries callback (value a) entries 0) as Hin.
    { apply elem_of_kept_entries. exists j. by split. }
    apply list_elem_of_lookup in Hin as [j' Hj'].
    assert (indices a' !! j' = Some h) as Hh.
    { by rewrite Hidx', list_lookup_fmap, Hj'. }
    exists j'. split; [done|]. split.
    + by rewrite Hval', list_lookup_fmap, Hj'.
    + destruct Hok' as (_ & _ & Hpos' & _). by apply Hpos'.
  - assert (h ∉ indices a') as Hnot.
    { rewrite Hidx'. intros Hin. apply list_elem_of_fmap in Hin as ([h' v'] & Heq & Hin).
      cbn in Heq. subst h'. apply elem_of_kept_entries in Hin as (j2 & Hj2 & Hc2).
      assert (indices a !! j2 = Some h) as Hj2'.
      { by rewrite <- H1, list_lookup_fmap, Hj2. }
      pose proof (NoDup_lookup _ _ _ _ Hnd Hj Hj2') as <-.
      rewrite He in Hj2. injection Hj2 as <-. cbn in Hc2.
      rewrite Z.add_0_l in Hc2. congruence. }
    split; [done|].
    destruct (Htr h v) as [(j' & Hj' & _)|[_ Hr]]; [|by apply list_elem_of_lookup_2 in Hj'|done].
    left. exists j. split; [done|]. split; [done|]. by apply Hpos.
Qed.

(** *** [mutMap] *)

Lemma changed_values_snoc callback a l x i :
  Methods.changed_values callback a (l ++ [x]) i =
    Methods.changed_values callback a l i ++
    (if JS.strict_equals (callback x (i + JS.len l) a) x then []
     else [(i + JS.len l, callback x (i + JS.len l) a)]).
Proof.
  revert i. induction l as [|y l IH]; intros i; cbn.
  { unfold JS.len; cbn. rewrite Z.add_0_r. by rewrite app_nil_r. }
  rewrite IH. unfold JS.len. cbn [length].
  replace (i + 1 + Z.of_nat (length l)) with (i + Z.of_nat (S (length l))) by lia.
  by rewrite app_assoc.
Qed.

Lemma mutMap_items_snoc callback a l x i :
  mutMap_items callback a (l ++ [x]) i =
    mutMap_items callback a l i ++
    [if JS.strict_equals (callback x (i + JS.len l) a) x then x
     else makeItemReactive (callback x (i + JS.len l) a)].
Proof.
  revert i. induction l as [|y l IH]; intros i; cbn.
  { unfold JS.len; cbn. by rewrite Z.add_0_r. }
  rewrite IH. unfold JS.len. cbn [length].
  by replace (i + 1 + Z.of_nat (length l)) with (i + Z.of_nat (S (length l))) by lia.
Qed.

Lemma changes_ok_mono b b' runs : b ≤ b' → changes_ok b runs → changes_ok b' runs.
Proof.
  destruct runs as [|[[s c] vs] rest]; [done|]. cbn.
  intros ? (?&?&?&?&?). repeat split; (done || lia).
Qed.

Lemma replace_runs_cons l s c vs rest :
  replace_runs l ((s, c, vs) :: rest) =
    replace_runs (fst (JS.splice l s c (makeNonPrimitiveItemsReactive vs))) rest.
Proof. done. Qed.

Lemma len_reactive (vs : list JS.value) :
  JS.len (makeNonPrimitiveItemsReactive vs) = JS.len vs.
Proof. unfold JS.len, makeNonPrimitiveItemsReactive. by rewrite length_map. Qed.

Lemma replace_runs_app l t b runs :
  changes_ok b runs → b ≤ JS.len l →
  replace_runs (l ++ t) runs = replace_runs l runs ++ t.
Proof.
  revert l b. induction runs as [|[[s c] vs] rest IH]; intros l b Hok Hb; [done|].
  destruct Hok as (Hs & Hc & Hcv & Hsc & Hrest). rewrite !replace_runs_cons.
  rewrite !splice_replace by (rewrite ?len_app; pose proof (len_nonneg t); lia).
  unfold JS.len in Hb.
  rewrite take_app_le by lia. rewrite drop_app_le by lia.
  replace ((take (Z.to_nat s) l ++ makeNonPrimitiveItemsReactive vs ++
            drop (Z.to_nat (s + c)) l ++ t))
    with ((take (Z.to_nat s) l ++ makeNonPrimitiveItemsReactive vs ++
            drop (Z.to_nat (s + c)) l) ++ t) by (by rewrite <- !app_assoc).
  apply (IH _ s Hrest).
  unfold JS.len. rewrite length_app, length_take. lia.
Qed.

(** The runs that [mutMap] computes, written in its order, leave each item
    that the callback returns as it is and replace the others. *)
Lemma grouped_runs_replace callback a l :
  let runs := fold_left Methods.group_changed
                        (Methods.changed_values callback a l 0) [] in
  changes_ok (JS.len l) runs ∧ replace_runs l runs = mutMap_items callback a l 0.
Proof.
  induction l as [|x l IH] using rev_ind; [done|].
  cbn zeta in *. rewrite changed_values_snoc, mutMap_items_snoc, fold_left_app.
  rewrite len_app. change (JS.len [x]) with 1.
  destruct IH as [Hok Hrep]. pose proof (len_nonneg l) as Hnn.
  set (runs := fold_left Methods.group_changed _ []) in *.
  rewrite Z.add_0_l. set (nv := callback x (JS.len l) a).
  destruct (JS.strict_equals nv x); cbn [fold_left].
  { split; [eapply changes_ok_mono; [|done]; lia|].
    rewrite (replace_runs_app _ _ _ _ Hok) by lia. by rewrite Hrep. }
  unfold Methods.group_changed. cbn [fst snd].
  destruct runs as [|[[s c] vs] rest].
  { split; [cbn; repeat split; (done || lia)|]. rewrite replace_runs_cons.
    rewrite splice_replace by (rewrite ?len_app; change (JS.len [x]) with 1; lia).
    unfold JS.len. rewrite Nat2Z.id, take_app_length.
    rewrite drop_ge by (rewrite length_app; cbn; lia). rewrite app_nil_r.
    cbn in Hrep. by rewrite <- Hrep. }
  destruct Hok as (Hs & Hc & Hcv & Hsc & Hrest).
  destruct (Z.eqb_spec (s + c) (JS.len l)) as [Heq|Hne]; cbn [negb].
  - split.
    { cbn. rewrite len_app. change (JS.len [nv]) with 1. repeat split; (done || lia). }
    rewrite <- Hrep. rewrite !replace_runs_cons.
    rewrite !splice_replace by (rewrite ?len_app; change (JS.len [x]) with 1; lia).
    unfold JS.len in Hs, Hc, Hcv, Hsc, Heq, Hnn.
    rewrite take_app_le by lia.
    rewrite !drop_ge by (rewrite ?length_app; cbn; lia). rewrite !app_nil_r.
    unfold makeNonPrimitiveItemsReactive. rewrite map_app. cbn [map].
    rewrite app_assoc. apply (replace_runs_app _ _ s _ Hrest).
    unfold JS.len. rewrite length_app, length_take. lia.
  - split; [cbn; repeat split; (done || lia)|].
    rewrite (replace_runs_cons (l ++ [x])).
    rewrite splice_replace by (rewrite ?len_app; change (JS.len [x]) with 1; lia).
    unfold JS.len at 1 2. rewrite Nat2Z.id, take_app_length.
    rewrite drop_ge by (rewrite length_app; cbn; lia). rewrite app_nil_r.
    rewrite <- Hrep. apply (replace_runs_app _ _ (JS.len l)); [|lia].
    cbn. repeat split; (done || lia).
Qed.

(** Calls that replace non-overlapping runs all return and keep the
    handles right. *)
Lemma splice_each_changes a σ b runs :
  handles_ok a σ → changes_ok b runs → b ≤ JS.len (value a) →
  ∃ a' σ' tasks,
    Methods.splice_each a σ
      (map (λ g, mkCall (fst (fst g)) (Some (snd (fst g))) (snd g)) runs) =
      (a', σ', JS.Returns tasks) ∧
    value a' = replace_runs (value a) runs ∧
    handles_ok a' σ' ∧
    ∀ h v, tracks a σ h v → tracks a' σ' h v.
Proof.
  revert a σ b. induction runs as [|[[s c] vs] rest IH]; intros a σ b Hok Hruns Hb.
  { by exists a, σ, []. }
  destruct Hruns as (Hs & Hc & Hcv & Hsc & Hrest). cbn [map Methods.splice_each fst snd].
  cbn [c_start c_deleteCount c_items].
  destruct (splice_at a σ s c vs (Z.to_nat s)
              (Nat.min (Z.to_nat c) (length (value a) - Z.to_nat s)) Hok)
    as (a1 & σ1 & tasks1 & E & Hval & Hidx & Hok1 & _); [lia..|].
  rewrite E.
  destruct (splice_returns _ _ _ _ _ _ _ _ _ E) as (_ & Hv & _).
  change (default _ (Some c)) with c in Hv.
  destruct (IH a1 σ1 s Hok1 Hrest) as (a' & σ' & tasks & E' & Hval' & Hok' & Htr).
  { rewrite Hv, splice_replace by lia. unfold JS.len in *.
    rewrite length_app, length_take. lia. }
  rewrite E'. exists a', σ', (tasks1 ++ tasks). split; [done|]. split.
  { by rewrite Hval', Hv. }
  split; [done|]. intros h v Hh. apply Htr.
  eapply (tracks_splice a σ (mkCall s (Some c) vs)); [done| |done|exact E].
  split; cbn [c_start c_deleteCount]; [lia|]. change (default _ (Some c)) with c. lia.
Qed.

(** With a callback whose results need no conversion, every position is
    left with the value the callback returns for it. *)
Lemma mutMap_items_lookup callback a l i (j : nat) v :
  (∀ x k, makeItemReactive (callback x k a) = callback x k a) →
  l !! j = Some v →
  mutMap_items callback a l i !! j = Some (callback v (i + Z.of_nat j) a).
Proof.
  intros Hset. revert i j. induction l as [|x l IH]; intros i j Hj; [done|].
  destruct j as [|j]; cbn [mutMap_items].
  - injection Hj as ->. cbn. rewrite Z.add_0_r, Hset.
    destruct (JS.strict_equals (callback v i a) v) eqn:E; [|done].
    by rewrite (JSFacts.strict_equals_eq _ _ E).
  - change (mutMap_items callback a l (i + 1) !! j =
            Some (callback v (i + Z.of_nat (S j)) a)).
    rewrite (IH (i + 1) j Hj). do 2 f_equal. lia.
Qed.


End Facts.
#[local] Existing Instance already_reactive.

(** *** Keeping the even items of [[1, 2, 3, 4, 5]], and multiplying the
    even items of [[1, 2, 3]] by ten *)

Lemma mutFilter_filters_witness :
  let a := fst one_to_five in
  let σ := snd one_to_five in
  let callback := λ v (_ : Z) (_ : list JS.value), is_even v in
  ∃ a' σ' tasks,
    Methods.mutFilter a σ callback = (a', σ', JS.Returns tasks) ∧
    value a' = Array_filter callback (value a) (value a) 0 ∧
    (∀ p : JS.value → bool, (∀ v i, callback v i (value a) = p v) →
                            value a' = List.filter p (value a)) ∧
    handles_ok a' σ' ∧
    ∀ (j : nat) h v, indices a !! j = Some h → value a !! j = Some v →
      if callback v (Z.of_nat j) (value a)
      then ∃ j' : nat, indices a' !! j' = Some h ∧ value a' !! j' = Some v ∧
                       read σ' h = Some (Z.of_nat j')
      else (h ∉ indices a') ∧ read σ' h = Some (-1).
Proof.
  cbn zeta.
  apply (mutFilter_filters (fst one_to_five) (snd one_to_five) (λ v _ _, is_even v)).
  apply new_handles_ok, empty_store_wf.
Defined.


End MutFacts.


(** ** ReactiveArray: [map] *)

Module MapFacts.
Import ReactiveArray JSFacts StoreFacts ReactiveArrayFacts FilterFacts.
Import Intended.

Lemma splice_map {A B} (g : A → B) (l items : list A) s c :
  fst (JS.splice (map g l) s c (map g items)) = map g (fst (JS.splice l s c items)).
Proof.
  rewrite !splice_unfold. cbn [fst].
  rewrite (actual_start_same_length (map g l) l) by apply length_map.
  rewrite (actual_count_same_length (map g l) l) by apply length_map.
  by rewrite !map_app, <- fmap_take, <- fmap_drop.
Qed.

Section Facts.
Context `{DeepReactivity}.

(** When [splice] returns, its arguments passed the range check and its
    loop over the handles did not start at a negative position. *)
Lemma splice_returned a σ start deleteCount items a' σ' r :
  splice a σ start deleteCount items = (a', σ', JS.Returns r) →
  let dc := default (JS.len (value a) - start) deleteCount in
  start ≤ JS.len (value a) ∧ (JS.len items - dc = 0 ∨ 0 ≤ start + dc).
Proof.
  intros E dc.
  destruct (decide (JS.len (value a) < start)) as [Hout|Hin].
  { by rewrite splice_out_of_bounds in E. }
  split; [lia|].
  destruct (decide (JS.len items - dc = 0)) as [|Hne]; [by left|right].
  destruct (decide (0 ≤ start + dc)) as [|Hneg]; [done|].
  rewrite splice_throws_TypeError in E; [done|lia|done|]. fold dc. lia.
Qed.

Lemma map_items_item (f : JS.value → JS.value) callback this values i :
  (∀ v h, callback v h this = f v) →
  Methods.map_items callback this values i = map f values.
Proof.
  intros Hf. revert i. induction values as [|v values IH]; intros i; [done|].
  cbn. by rewrite Hf, IH.
Qed.

(** Allocating the handles of a new array leaves the arrays that exist as
    they are. *)
Lemma handles_ok_new a σ (input : list JS.value) :
  handles_ok a σ → handles_ok a (snd (new input σ)).
Proof.
  intros Hok. pose proof Hok as (Hlen & Hnd & Hpos & Hwf).
  destruct (new_handles_ok input σ Hwf) as (_ & _ & _ & Hwf').
  split; [done|]. split; [done|]. split; [|done].
  intros i h Hi. unfold new.
  pose proof (new_handles_spec input 0 0 σ) as (_ & _ & Hread).
  destruct (new_handles input 0 0 σ) as [hs σ1]. cbn in *.
  rewrite Hread. pose proof (handle_allocated _ _ _ _ Hok Hi).
  case_decide; [lia|]. by apply Hpos.
Qed.

(** A primitive needs no conversion. *)
Lemma primitive_settled v : is_primitive v = true → makeItemReactive v = v.
Proof. unfold makeItemReactive. by destruct v. Qed.

Lemma primitives_settled (f : JS.value → JS.value) (l : list JS.value) :
  (∀ v, is_primitive (f v) = true) → makeNonPrimitiveItemsReactive (map f l) = map f l.
Proof.
  intros Hf. apply settled_items_map, Forall_map, Forall_forall.
  intros x _. cbn. apply primitive_settled, Hf.
Qed.

(** X14. For a callback whose result is a primitive determined by the
    item, [map] returns the mapped items and registers its listener
    without a first run; and after every call of [splice] on the source
    that returns, with items that need no conversion, a notification for
    the listener is queued, the listener's run on it returns, and the view
    is again the mapped items of the source. For [x => x * 10] on
    [[1, 2, 3]] the view is [[10, 20, 30]]. *)
Theorem map_view_follows_source (f : JS.value → JS.value) callback listener :
  (∀ v h this, callback v h this = f v) →
  (∀ v, is_primitive (f v) = true) →
  (∀ a σ,
     let a1 := fst (fst (Methods.map a σ callback listener)) in
     let newArr := snd (fst (Methods.map a σ callback listener)) in
     let σ1 := snd (Methods.map a σ callback listener) in
     value a1 = value a ∧ indices a1 = indices a ∧ listener ∈ callbacks a1 ∧
     value newArr = map f (value a) ∧
     (handles_ok a σ → handles_ok a1 σ1 ∧ handles_ok newArr σ1)) ∧
  (∀ a1 newArr σ1 start deleteCount items a2 σ2 deleted tasks,
     listener ∈ callbacks a1 → value newArr = map f (value a1) →
     settled_items items →
     splice a1 σ1 start deleteCount items = (a2, σ2, JS.Returns (deleted, tasks)) →
     ∃ u newArr' σ' r,
       (listener, u) ∈ tasks ∧
       Methods.map_listener callback a2 newArr σ2
         (u_start u) (u_deleteCount u) (u_items u) = (newArr', σ', JS.Returns r) ∧
       value newArr' = map f (value a2) ∧
       listener ∈ callbacks a2).
Proof.
  intros Hf Hprim. split.
  - intros a σ. cbn zeta. unfold Methods.map.
    pose proof (new_handles_ok (Methods.map_items callback a (value a) 0) σ) as Hnew.
    pose proof (handles_ok_new a σ (Methods.map_items callback a (value a) 0)) as Hold.
    assert (value (fst (new (Methods.map_items callback a (value a) 0) σ)) = map f (value a))
      as Hval.
    { unfold new. destruct (new_handles _ 0 0 σ). cbn.
      rewrite (map_items_item f) by (intros; apply Hf).
      by apply primitives_settled. }
    destruct (new _ σ) as [newArr σ1]. cbn in *.
    split; [done|]. split; [done|]. split.
    { unfold Set_add. destruct (includes (callbacks a) listener) eqn:Ein.
      - apply existsb_exists in Ein as (x & Hx & Heq). apply Nat.eqb_eq in Heq as ->.
        by apply list_elem_of_In.
      - apply elem_of_app. right. by apply list_elem_of_singleton. }
    split; [done|]. intros Hok. pose proof Hok as (Hlen & Hnd & Hpos & Hwf).
    split; [|by apply Hnew]. destruct (Hold Hok) as (_ & _ & Hpos' & Hwf').
    by repeat split.
  - intros a1 newArr σ1 start deleteCount items a2 σ2 deleted tasks Hin Hinv Hset E.
    destruct (splice_returned _ _ _ _ _ _ _ _ E) as [Hstart Hloop].
    destruct (splice_returns _ _ _ _ _ _ _ _ _ E) as (_ & Hv & _ & Hcb & Htasks).
    cbn zeta in Hv, Htasks.
    rewrite (settled_items_map _ Hset) in Hv, Htasks.
    set (dc := default (JS.len (value a1) - start) deleteCount) in *.
    exists (mkUpdate start dc items). cbn [u_start u_deleteCount u_items].
    unfold Methods.map_listener.
    rewrite (map_items_item f) by (intros; apply Hf).
    assert (JS.len (value newArr) = JS.len (value a1)) as Hlen.
    { unfold JS.len. by rewrite Hinv, length_map. }
    assert (JS.len (map f items) = JS.len items) as Hlen'.
    { unfold JS.len. by rewrite !length_map. }
    destruct (splice_succeeds newArr σ2 start (Some dc) (map f items))
      as (newArr' & σ' & tasks' & E' & Hv').
    { lia. }
    { change (default _ (Some dc)) with dc. lia. }
    change (default _ (Some dc)) with dc in E', Hv'.
    rewrite (primitives_settled f items Hprim) in E', Hv'.
    exists newArr', σ'. eexists. split.
    { rewrite Htasks. apply list_elem_of_fmap. by exists listener. }
    split; [exact E'|]. split; [|by rewrite Hcb].
    rewrite Hv', Hv, Hinv. apply splice_map.
Qed.

End Facts.

Lemma map_view_follows_source_witness :
  let callback := λ v (_ : option nat) (_ : t), times_ten v in
  let m := @Methods.map already_reactive (fst one_two_three) (snd one_two_three)
                        callback 7%nat in
  value (snd (fst m)) = map JS.num [10; 20; 30] ∧
  ∀ a2 σ2 deleted tasks,
    @splice already_reactive (fst (fst m)) (snd m) 1 (Some 1) [JS.num 9]
      = (a2, σ2, JS.Returns (deleted, tasks)) →
    ∃ u newArr' σ' r,
      (7%nat, u) ∈ tasks ∧
      @Methods.map_listener already_reactive callback a2 (snd (fst m)) σ2
        (u_start u) (u_deleteCount u) (u_items u) = (newArr', σ', JS.Returns r) ∧
      value newArr' = map times_ten (value a2) ∧
      7%nat ∈ callbacks a2.
Proof.
  cbn zeta. split; [reflexivity|].
  intros a2 σ2 deleted tasks.
  apply (proj2 (@map_view_follows_source already_reactive times_ten
                  (λ v _ _, times_ten v) 7%nat (λ _ _ _, eq_refl)
                  (λ v, match v with
                        | JS.Number (JS.Int _) => eq_refl
                        | _ => eq_refl
                        end))).
  - vm_compute. apply list_elem_of_In. cbn. tauto.
  - reflexivity.
  - vm_compute. repeat constructor.
Defined.

End MapFacts.


(** ** ReactiveArray: [updateFilteredArray] *)

Module UpdFacts.
Import ReactiveArray JSFacts StoreFacts ReactiveArrayFacts FilterFacts.
Import Intended.

Section Queue.
Variable p' : JS.value → bool.
Implicit Types (run : list JS.value) (k : Z).

Lemma queue_of_snoc k run x :
  queue_of p' k (run ++ [x]) =
    queue_of p' k run ++
    [{| Methods.q_index := k + JS.len (List.filter p' (run ++ [x]));
        Methods.q_show := p' x; Methods.q_value := x |}].
Proof.
  revert k. induction run as [|y run IH]; intros k.
  { cbn. destruct (p' x); cbn; do 3 f_equal; unfold JS.len; cbn; lia. }
  cbn [app queue_of]. rewrite IH. cbn [app]. do 4 f_equal.
  cbn [List.filter]. destruct (p' y); unfold JS.len; cbn [length]; lia.
Qed.

Lemma queue_of_added k run :
  map Methods.q_value (List.filter Methods.q_show (queue_of p' k run)) =
    List.filter p' run.
Proof.
  revert k. induction run as [|x run IH]; intros k; [done|].
  cbn. destruct (p' x); cbn; by rewrite IH.
Qed.

Lemma queue_of_deleted k run :
  JS.len (List.filter (λ item, negb (Methods.q_show item)) (queue_of p' k run)) =
    JS.len (List.filter (λ x, negb (p' x)) run).
Proof.
  revert k. induction run as [|x run IH]; intros k; [done|].
  cbn. specialize (IH (if p' x then k + 1 else k)).
  destruct (p' x); cbn; unfold JS.len in *; cbn [length]; lia.
Qed.

Lemma queue_of_first_shown k run v :
  List.find Methods.q_show (queue_of p' k run) = Some v → Methods.q_index v = k + 1.
Proof.
  revert k. induction run as [|x run IH]; intros k; [done|].
  cbn. destruct (p' x) eqn:E; cbn.
  - by intros [= <-].
  - apply IH.
Qed.

(** [updateQueue.find(v => v.show)?.index ?? updateQueue[0].index + 1] *)
Lemma queue_of_start k x run :
  match List.find Methods.q_show (queue_of p' k (x :: run)) with
  | Some v => Methods.q_index v
  | None => (if p' x then k + 1 else k) + 1
  end = k + 1.
Proof.
  destruct (List.find _ _) as [v|] eqn:E.
  - by eapply queue_of_first_shown.
  - cbn in E. destruct (p' x); [done|lia].
Qed.
End Queue.

Section Facts.
Context `{DeepReactivity}.
Variables p p' : JS.value → bool.
Implicit Types (seen run rest src : list JS.value) (f : Filtered) (σ : Store).

Local Abbreviation shown' l := (JS.len (List.filter p' l)) (only parsing).

Lemma filter_toggled run :
  Forall (λ x, p x = negb (p' x)) run →
  List.filter (λ x, negb (p' x)) run = List.filter p run.
Proof.
  induction 1 as [|x run Hx Hrun IH]; [done|]. cbn. by rewrite <- Hx, IH.
Qed.

(** [processUpdateQueue] writes a run of changed verdicts into the
    filtered array: the items of the run that were shown leave, those that
    are shown now enter. *)
Lemma processUpdateQueue_spec seen run tail fa σ :
  handles_ok fa σ →
  value fa = List.filter p' seen ++ List.filter p run ++ tail →
  Forall (λ x, p x = negb (p' x)) run → settled_items run →
  ∃ fa' σ' tasks,
    Methods.processUpdateQueue (queue_of p' (shown' seen - 1) run) fa σ =
      ([], fa', σ', JS.Returns tasks) ∧
    value fa' = List.filter p' seen ++ List.filter p' run ++ tail ∧
    handles_ok fa' σ'.
Proof.
  intros Hok Hval Htog Hset. destruct run as [|x run].
  { by exists fa, σ, []. }
  unfold Methods.processUpdateQueue.
  change (queue_of p' (shown' seen - 1) (x :: run))
    with ({| Methods.q_index := if p' x then shown' seen - 1 + 1 else shown' seen - 1;
             Methods.q_show := p' x; Methods.q_value := x |}
          :: queue_of p' (if p' x then shown' seen - 1 + 1 else shown' seen - 1) run) at 1.
  cbv iota. cbn [Methods.q_index].
  pose proof (queue_of_start p' (shown' seen - 1) x run) as Hstart.
  rewrite Hstart. rewrite queue_of_added, queue_of_deleted, (filter_toggled _ Htog).
  set (added := List.filter p' (x :: run)). set (gone := List.filter p (x :: run)) in *.
  destruct (MethodsFacts.splice_at fa σ (shown' seen - 1 + 1) (JS.len gone) added
              (length (List.filter p' seen)) (length gone) Hok)
    as (fa' & σ' & tasks & E & Hval' & _ & Hok' & _).
  { rewrite Hval, !len_app.
    pose proof (len_nonneg (List.filter p' seen)). pose proof (len_nonneg gone).
    pose proof (len_nonneg tail). lia. }
  { apply len_nonneg. }
  { unfold JS.len. lia. }
  { rewrite Hval, !length_app. unfold JS.len. lia. }
  rewrite E. exists fa', σ', tasks. split; [done|]. split; [|done].
  rewrite Hval', Hval. rewrite take_app_length.
  rewrite (app_assoc _ gone tail).
  rewrite drop_app_length' by (rewrite length_app; lia).
  rewrite settled_items_map; [done|]. by apply settled_items_filter.
Qed.


Lemma shown_snoc (l : list JS.value) x :
  shown' (l ++ [x]) = shown' l + (if p' x then 1 else 0).
Proof.
  rewrite List.filter_app, len_app. cbn. by destruct (p' x).
Qed.

(** The loop of [updateFilteredArray]: [seen] are the items whose verdict
    is written into the filtered array, [run] the pending run of changed
    verdicts, [rest] the items still to visit. *)
Lemma update_entries_spec callback src :
  (∀ v i, callback v i src = p' v) → settled_items src →
  ∀ rest seen run f σ tasks0 i newIndex queue,
    src = seen ++ run ++ rest →
    i = JS.len (seen ++ run) →
    newIndex = shown' (seen ++ run) - 1 →
    queue = queue_of p' (shown' seen - 1) run →
    Forall (λ x, p x = negb (p' x)) run →
    map show (maskArray f) = map p' (seen ++ run) ++ map p rest →
    value (filteredArray f) = List.filter p' seen ++ List.filter p (run ++ rest) →
    handles_ok (filteredArray f) σ →
    ∃ newIndex' f' σ' tasks' seen' run',
      Methods.update_entries callback src rest i newIndex queue f σ tasks0 =
        (newIndex', queue_of p' (shown' seen' - 1) run', f', σ', JS.Returns tasks') ∧
      src = seen' ++ run' ∧
      Forall (λ x, p x = negb (p' x)) run' ∧
      map show (maskArray f') = map p' src ∧
      value (filteredArray f') = List.filter p' seen' ++ List.filter p run' ∧
      handles_ok (filteredArray f') σ'.
Proof.
  intros Hcb Hset. induction rest as [|x rest IH];
    intros seen run f σ tasks0 i newIndex queue Hsrc Hi Hn Hq Htog Hmask Hval Hok.
  { rewrite app_nil_r in *. subst queue. cbn.
    exists newIndex, f, σ, tasks0, seen, run.
    split; [done|]. split; [done|]. split; [done|]. split; [by rewrite Hsrc|].
    by split. }
  cbn [Methods.update_entries]. rewrite Hcb.
  assert (length (maskArray f) = length src) as Hlen.
  { rewrite <- (length_map show), Hmask, Hsrc. rewrite !length_app, !length_map.
    rewrite length_app. cbn. lia. }
  assert (∃ entry, maskArray f !! length (seen ++ run) = Some entry ∧ show entry = p x)
    as (entry & Hentry & Hshow).
  { assert (map show (maskArray f) !! length (seen ++ run) = Some (p x)) as Hl.
    { rewrite Hmask. rewrite lookup_app_r by (rewrite length_map; lia).
      by rewrite length_map, Nat.sub_diag. }
    rewrite list_lookup_fmap in Hl.
    destruct (maskArray f !! length (seen ++ run)) as [entry|]; [|done].
    exists entry. split; [done|]. by injection Hl. }
  rewrite index_nonneg by (subst i; apply len_nonneg).
  replace (Z.to_nat i) with (length (seen ++ run)) by (subst i; unfold JS.len; lia).
  rewrite Hentry, Hshow.
  assert (settled_items run) as Hsrun.
  { rewrite Hsrc in Hset. apply Forall_app in Hset as [_ Hset].
    by apply Forall_app in Hset as [Hset _]. }
  destruct (Bool.eqb (p' x) (p x)) eqn:Eeq; cbn [negb].
  - (* the verdict on [x] is as it was: the pending run is written out *)
    apply Bool.eqb_prop in Eeq.
    destruct (processUpdateQueue_spec seen run (List.filter p (x :: rest))
                (filteredArray f) σ Hok) as (fa' & σ' & tasks & E & Hval' & Hok');
      [by rewrite Hval, List.filter_app | done | done |].
    rewrite Hq, E.
    eapply (IH (seen ++ run ++ [x]) []); cbn [filteredArray maskArray].
    + by rewrite Hsrc, <- !app_assoc.
    + rewrite Hi, app_nil_r, !len_app. change (JS.len [x]) with 1. lia.
    + rewrite Hn, app_nil_r, app_assoc, shown_snoc. destruct (p' x); lia.
    + done.
    + constructor.
    + rewrite Hmask, app_nil_r.
      rewrite (app_assoc seen run [x]), (map_app p' (seen ++ run) [x]). cbn [map].
      rewrite <- app_assoc. cbn [app]. by rewrite Eeq.
    + rewrite Hval', !List.filter_app. cbn [List.filter app]. rewrite Eeq.
      destruct (p x); by rewrite <- ?app_assoc.
    + done.
  - (* the verdict on [x] changed: [x] joins the pending run *)
    assert (p x = negb (p' x)) as Hx.
    { destruct (p' x), (p x); done. }
    eapply (IH seen (run ++ [x])); cbn [filteredArray maskArray].
    + by rewrite Hsrc, <- !app_assoc.
    + rewrite Hi, app_assoc, !len_app. by change (JS.len [x]) with 1.
    + rewrite Hn, (app_assoc seen), shown_snoc. destruct (p' x); lia.
    + rewrite queue_of_snoc, Hq. do 3 f_equal.
      rewrite Hn, List.filter_app, len_app, shown_snoc. destruct (p' x); lia.
    + apply Forall_app. split; [done|]. by constructor.
    + rewrite list_fmap_insert.
      change (show <$> maskArray f) with (map show (maskArray f)).
      rewrite Hmask. cbn [show].
      rewrite insert_app_r_alt by (rewrite length_map; lia).
      rewrite length_map, Nat.sub_diag. cbn [map].
      rewrite (app_assoc seen run [x]), (map_app p' (seen ++ run) [x]). cbn [map].
      by rewrite <- app_assoc.
    + by rewrite Hval, <- app_assoc.
    + done.
Qed.

(** X15. [updateFilteredArray], run when a dependency of [filter] changes:
    if the mask records the verdicts of the former predicate and the view
    holds the items that passed it, then for a new predicate that depends
    on the item only the call returns, the view holds exactly the items
    that pass the new predicate, the mask records the new verdicts, and the
    handles of the view are right. *)
Theorem updateFilteredArray_refilters callback src f σ :
  (∀ v i, callback v i src = p' v) →
  settled_items src →
  map show (maskArray f) = map p src →
  value (filteredArray f) = List.filter p src →
  handles_ok (filteredArray f) σ →
  ∃ f' σ' tasks,
    Methods.updateFilteredArray callback src f σ = (f', σ', JS.Returns tasks) ∧
    value (filteredArray f') = List.filter p' src ∧
    map show (maskArray f') = map p' src ∧
    handles_ok (filteredArray f') σ'.
Proof.
  intros Hcb Hset Hmask Hval Hok. unfold Methods.updateFilteredArray.
  destruct (update_entries_spec callback src Hcb Hset src [] [] f σ [] 0 (-1) [])
    as (newIndex' & f1 & σ1 & tasks1 & seen & run & E & Hsrc & Htog & Hmask1 & Hval1 & Hok1);
    [done..|].
  rewrite E.
  destruct (processUpdateQueue_spec seen run [] (filteredArray f1) σ1 Hok1)
    as (fa' & σ' & tasks & E' & Hval' & Hok'); [by rewrite app_nil_r | done | |].
  { rewrite Hsrc in Hset. by apply Forall_app in Hset as [_ Hset]. }
  rewrite E'. eexists _, σ', _. split; [done|]. cbn [filteredArray maskArray].
  split; [|by split]. by rewrite Hval', app_nil_r, Hsrc, List.filter_app.
Qed.

End Facts.
#[local] Existing Instance already_reactive.

(** *** From the even to the odd items of [[1, 2, 3, 4, 5]] *)

Lemma updateFilteredArray_refilters_witness :
  let src := map JS.num [1; 2; 3; 4; 5] in
  let p := is_even in
  let p' := λ v, negb (is_even v) in
  let callback := λ v (_ : Z) (_ : list JS.value), negb (is_even v) in
  let f := {| maskArray := mask_from p (-1) src;
              filteredArray := fst (new (List.filter p src) empty_store) |} in
  let σ := snd (new (List.filter p src) empty_store) in
  ∃ f' σ' tasks,
    Methods.updateFilteredArray callback src f σ = (f', σ', JS.Returns tasks) ∧
    value (filteredArray f') = List.filter p' src ∧
    map show (maskArray f') = map p' src ∧
    handles_ok (filteredArray f') σ'.
Proof.
  cbn zeta.
  apply (updateFilteredArray_refilters is_even (λ v, negb (is_even v))
           (λ v _ _, negb (is_even v)) (map JS.num [1; 2; 3; 4; 5])).
  - reflexivity.
  - vm_compute. repeat constructor.
  - reflexivity.
  - reflexivity.
  - apply new_handles_ok, empty_store_wf.
Defined.

End UpdFacts.


(** ** ReactivePrimitive: derived cells *)

Module DerivedFacts.
Import ReactivePrimitive Derived ReactivePrimitiveFacts.

Section Facts.
Variable callback : nat → JS.value → JS.value.
Variable watcher : Callback.
Implicit Types (s : Piped) (c : t JS.value).

Local Abbreviation pipe := (pipe callback watcher).
Local Abbreviation run_events := (run_events callback watcher).
Local Abbreviation run_event := (run_event callback watcher).
Local Abbreviation run_microtask := (run_microtask callback).
Local Abbreviation drain := (drain callback).
Local Abbreviation Inv := (fresh_or_queued callback watcher).

Lemma pipe_fresh c : NoDup (callbacks c) → Inv (pipe c).
Proof.
  intros Hnd. split; [|split; [|split]].
  - cbn. apply Set_add_elem. by left.
  - by apply bind_NoDup.
  - apply new_NoDup.
  - right. by exists 0%nat.
Qed.

Lemma set_value_eq (r : t JS.value) v noUpdate :
  value (fst (set r v noUpdate)) = v.
Proof.
  destruct (strict_eq v (value r)) eqn:E.
  - rewrite set_same by done. cbn. symmetry. by apply JSFacts.strict_equals_eq.
  - by apply set_value.
Qed.

Lemma run_microtask_spec s :
  (0 < queued s)%nat →
  let s' := fst (run_microtask s) in
  let result := callback (calls s) (value (source s)) in
  source s' = source s ∧ queued s' = pred (queued s) ∧
  callbacks (newRef s') = callbacks (newRef s) ∧
  value (newRef s') = result ∧
  (∀ e, e ∈ snd (run_microtask s) → snd e = result) ∧
  (strict_eq result (value (newRef s)) = true → snd (run_microtask s) = []) ∧
  (NoDup (callbacks (newRef s)) →
   ∀ cb, (length (calls_to cb (snd (run_microtask s))) ≤ 1)%nat).
Proof.
  intros Hq. unfold Derived.run_microtask. destruct (queued s) as [|n]; [lia|].
  pose proof (set_value_eq (newRef s) (callback (calls s) (value (source s))) []) as Hv.
  pose proof (set_callbacks (newRef s) (callback (calls s) (value (source s))) []) as Hc.
  destruct (strict_eq (callback (calls s) (value (source s))) (value (newRef s))) eqn:E.
  - rewrite set_same in * by done. cbn. repeat split; try done.
    + intros e He; by apply elem_of_nil in He.
    + intros _ cb. lia.
  - rewrite set_changed in * by done.
    cbn [fst snd source newRef queued value callbacks Nat.pred] in *.
    repeat split; try done.
    + intros e He. apply list_elem_of_fmap in He as (cb & -> & _). done.
    + intros Hnd cb.
      destruct (decide (cb ∈ List.filter (λ cb0, negb (includes [] cb0))
                                         (callbacks (newRef s)))).
      * rewrite calls_to_member; [cbn; lia| |done]. by apply filter_keeps_NoDup.
      * rewrite calls_to_absent by done. cbn. lia.
Qed.

Lemma run_microtask_idle s : queued s = 0%nat → run_microtask s = (s, []).
Proof. unfold Derived.run_microtask. by intros ->. Qed.

Lemma run_event_keeps s e :
  Inv s → watcher_kept watcher [e] → Inv (fst (run_event s e)).
Proof.
  intros (Hw & Hnd & Hnd' & Hfresh) Hkept.
  unfold watcher_kept in Hkept. rewrite Forall_singleton in Hkept.
  destruct e as [v noUpdate| |cb noFirstCall]; cbn [Derived.run_event].
  - unfold set_source. destruct (strict_eq v (value (source s))) eqn:E.
    + rewrite set_same by done. cbn. by rewrite Nat.add_0_r.
    + assert (watcher ∉ noUpdate) as Hnot by (apply includes_false; exact Hkept).
      pose proof (set_calls_subscriber (source s) v noUpdate watcher Hnd E Hw Hnot) as Hcall.
      pose proof (set_callbacks (source s) v noUpdate) as Hcb.
      destruct (set (source s) v noUpdate) as [c' log] eqn:Eset. cbn [fst snd] in *.
      unfold fresh_or_queued. cbn [source newRef queued]. rewrite Hcall, Hcb.
      split; [done|]. split; [done|]. split; [done|]. left. cbn. lia.
  - destruct (queued s) as [|n] eqn:Eq.
    + rewrite run_microtask_idle by done. repeat split; try done.
      destruct Hfresh as [Hq|Hv]; [lia|by right].
    + destruct (run_microtask_spec s) as (Hs & _ & Hc & Hv & _); [lia|].
      split; [by rewrite Hs|]. split; [by rewrite Hs|]. split; [by rewrite Hc|].
      right. exists (calls s). by rewrite Hv, Hs.
  - cbn. split; [done|]. split; [done|]. split; [by apply Set_add_NoDup|]. done.
Qed.

Lemma run_events_keep s es :
  Inv s → watcher_kept watcher es → Inv (fst (run_events s es)).
Proof.
  revert s. induction es as [|e es IH]; intros s Hinv Hkept; [done|].
  unfold watcher_kept in Hkept. rewrite Forall_cons in Hkept.
  destruct Hkept as [He Hes]. cbn [Derived.run_events].
  pose proof (run_event_keeps s e Hinv) as Hstep.
  destruct (run_event s e) as [s1 log1]. specialize (IH s1).
  destruct (run_events s1 es) as [s2 log2]. cbn in *.
  apply IH; [|done]. apply Hstep. unfold watcher_kept. by rewrite Forall_singleton.
Qed.

(** Once the derived cell holds a result of the updater, and the
    updater's results on the source's value are strictly equal to one
    another, the microtasks still queued call nobody. *)
Lemma drain_settled n s :
  queued s = n →
  (∃ k, value (newRef s) = callback k (value (source s))) →
  (∀ k k', strict_eq (callback k (value (source s)))
                     (callback k' (value (source s))) = true) →
  snd (drain n s) = [].
Proof.
  revert s. induction n as [|n IH]; intros s Hq [k Hv] Hsame; [done|].
  cbn [Derived.drain].
  destruct (run_microtask_spec s) as (Hs1 & Hq1 & Hc1 & Hv1 & _ & Hsame1 & _); [lia|].
  cbn zeta in Hv1, Hsame1.
  assert (snd (run_microtask s) = []) as Hnil by (apply Hsame1; rewrite Hv; apply Hsame).
  destruct (run_microtask s) as [s1 l1]. cbn [fst snd] in *. subst l1.
  specialize (IH s1). destruct (Derived.drain callback n s1) as [s2 log2].
  cbn [fst snd app] in *. apply IH; [lia | | by rewrite Hs1].
  exists (calls s). by rewrite Hv1, Hs1.
Qed.

(** Draining the queue runs every queued microtask; each call it makes
    passes a result of the updater for the source as it is, and a
    subscriber is called once at most when these results are strictly
    equal to one another. *)
Lemma drain_spec s :
  NoDup (callbacks (newRef s)) →
  let s' := fst (drain (queued s) s) in
  let v := value (source s) in
  source s' = source s ∧ queued s' = 0%nat ∧
  callbacks (newRef s') = callbacks (newRef s) ∧
  ((0 < queued s)%nat → ∃ k, value (newRef s') = callback k v) ∧
  ((queued s = 0)%nat → s' = s) ∧
  (∀ e, e ∈ snd (drain (queued s) s) → ∃ k, snd e = callback k v) ∧
  ((∀ k k', strict_eq (callback k v) (callback k' v) = true) →
   ∀ cb, (length (calls_to cb (snd (drain (queued s) s))) ≤ 1)%nat).
Proof.
  remember (queued s) as n eqn:Hn. revert s Hn.
  induction n as [|n IH]; intros s Hn Hnd.
  { cbn. repeat split; try done; try lia.
    intros e He. by apply elem_of_nil in He. }
  cbn [Derived.drain].
  destruct (run_microtask_spec s) as (Hs & Hq & Hc & Hv & Hlog & Hsame & Hone); [lia|].
  cbn zeta in Hv, Hlog, Hsame.
  specialize (Hone Hnd).
  destruct (run_microtask s) as [s1 log1]. cbn [fst snd] in *.
  destruct (IH s1) as (Hs' & Hq' & Hc' & Hv' & Hid & Hlog' & Honce);
    [lia | by rewrite Hc|].
  cbn zeta in Hv', Hlog', Honce.
  destruct (Derived.drain callback n s1) as [s2 log2] eqn:Ed. cbn [fst snd] in *.
  split; [by rewrite Hs', Hs|]. split; [done|]. split; [by rewrite Hc', Hc|].
  split.
  { intros _. destruct n as [|n'].
    - rewrite Hid by lia. by exists (calls s).
    - destruct Hv' as [k Hk]; [lia|]. exists k. by rewrite Hk, Hs. }
  split; [lia|]. split.
  { intros e [He|He]%elem_of_app; [exists (calls s); by apply Hlog|].
    rewrite <- Hs. by apply Hlog'. }
  intros Hrefl cb. rewrite calls_to_app, length_app.
  (* after the first microtask the derived cell holds a result, and the
     others find it unchanged *)
  assert (log2 = []) as ->.
  { pose proof (drain_settled n s1) as Hd. rewrite Ed in Hd. apply Hd;
      [lia | exists (calls s); by rewrite Hv, Hs | by rewrite Hs]. }
  cbn [calls_to List.filter length]. rewrite Nat.add_0_r. apply Hone.
Qed.


End Facts.
(** *** A cell piped through the example callback, its source set twice
    before the microtasks run *)


(** With an updater that makes a new object at every call, two sets of
    the source before the microtasks run give the subscriber two calls:
    each microtask stores an object that is not strictly equal to the one
    stored before. *)
Lemma fresh_results_call_twice :
  let watcher := 1%nat in
  let c := new (JS.num 1) in
  let es := [BindNewRef 7%nat true; SetSource (JS.num 2) []; SetSource (JS.num 3) []] in
  let s := fst (run_events fresh_object watcher (pipe fresh_object watcher c) es) in
  let log := snd (drain fresh_object (queued s) s) in
  queued s = 2%nat ∧
  calls_to 7%nat log = [(7%nat, JS.Object 1); (7%nat, JS.Object 2)].
Proof. cbn zeta. split; by vm_compute. Qed.

End DerivedFacts.


(** ** Rendering of arrays *)

Module FragmentFacts.
Import JS Render.

Section Facts.
Variable String_ : value → string.

Local Abbreviation valueToFragment := (valueToFragment String_).

Lemma arrayToFragment_cons x xs :
  valueToFragment (Array (x :: xs)) =
    (if shouldBeRendered_item x then valueToFragment x else []) ++
    valueToFragment (Array xs).
Proof. cbn. by destruct (shouldBeRendered_item x). Qed.

Lemma plain_only_cons x xs :
  plain_only (Array (x :: xs)) = plain_only x && plain_only (Array xs).
Proof. done. Qed.

Lemma plain_only_app xs ys :
  plain_only (Array (xs ++ ys)) = plain_only (Array xs) && plain_only (Array ys).
Proof.
  induction xs as [|x xs IH]; [done|].
  rewrite <- app_comm_cons, !plain_only_cons, IH. by rewrite andb_assoc.
Qed.

Lemma arrayToFragment_app xs ys :
  valueToFragment (Array (xs ++ ys)) =
    valueToFragment (Array xs) ++ valueToFragment (Array ys).
Proof.
  induction xs as [|x xs IH]; [done|].
  rewrite <- app_comm_cons, !arrayToFragment_cons, IH. by rewrite app_assoc.
Qed.

(** X17. [valueToFragment] on arrays of plain values and of arrays of
    them: the fragment of an array is the concatenation of the fragments
    of its parts, an array nested in an array renders as its elements in
    place, and an array of plain values gives one text node [String(v)]
    for each value other than [undefined], [null], [true] and [false], in
    order. Such a value alone renders as an empty text node, inside an
    array as nothing. *)
Theorem arrays_render_flat :
  (∀ xs ys, plain_only (Array (xs ++ ys)) = true →
            valueToFragment (Array (xs ++ ys)) =
            valueToFragment (Array xs) ++ valueToFragment (Array ys)) ∧
  (∀ xs ys zs, plain_only (Array (xs ++ [Array ys] ++ zs)) = true →
               plain_only (Array (xs ++ ys ++ zs)) = true ∧
               valueToFragment (Array (xs ++ [Array ys] ++ zs)) =
               valueToFragment (Array (xs ++ ys ++ zs))) ∧
  (∀ vs : list value,
     plain_only (Array (map Plain vs)) = true ∧
     valueToFragment (Array (map Plain vs)) =
       map (λ v, Text (String_ v)) (List.filter shouldBeRendered vs)) ∧
  (∀ v, shouldBeRendered v = false →
        valueToFragment (Plain v) = [Text EmptyString] ∧
        valueToFragment (Array [Plain v]) = []).
Proof.
  split; [intros xs ys _; apply arrayToFragment_app|]. split; [|split].
  - intros xs ys zs Hplain. split.
    + rewrite !plain_only_app in Hplain |- *.
      apply andb_prop in Hplain as [Hxs Hrest].
      apply andb_prop in Hrest as [Hys Hzs].
      rewrite plain_only_cons in Hys. apply andb_prop in Hys as [Hys _].
      by rewrite Hxs, Hys, Hzs.
    + rewrite !arrayToFragment_app. do 2 f_equal.
      rewrite arrayToFragment_cons. cbn [shouldBeRendered_item].
      change (valueToFragment (Array [])) with (@nil Node). by rewrite app_nil_r.
  - intros vs. split.
    { induction vs as [|v vs IH]; [done|]. cbn [map]. by rewrite plain_only_cons. }
    induction vs as [|v vs IH]; [done|].
    cbn [map]. rewrite arrayToFragment_cons, IH. cbn [shouldBeRendered_item List.filter].
    destruct (shouldBeRendered v) eqn:E; [|done].
    cbn. unfold stringifyValue. by rewrite E.
  - intros v Hv. split.
    + cbn. unfold stringifyValue. by rewrite Hv.
    + cbn. by rewrite Hv.
Qed.

End Facts.
End FragmentFacts.


(** ** Slot: the region between the anchors *)

Module RegionFacts.
Import Slot SlotFacts JSFacts.

Implicit Types (w : World) (n m anchor : node) (d : Disposal)
  (fragment children pre post : list node).

Lemma insert_before_split anchor fragment l1 l2 :
  anchor ∉ l1 →
  insert_before anchor fragment (l1 ++ anchor :: l2) = l1 ++ fragment ++ anchor :: l2.
Proof.
  intros Hnot. induction l1 as [|x l1 IH]; cbn.
  { by rewrite Nat.eqb_refl. }
  apply not_elem_of_cons in Hnot as [Hne Hnot].
  destruct (Nat.eqb_spec x anchor) as [->|_]; [done|]. by rewrite IH.
Qed.

Lemma filter_disjoint (ns l : list node) :
  (∀ n, n ∈ l → n ∉ ns) →
  List.filter (λ c, negb (bool_decide (c ∈ ns))) l = l.
Proof.
  intros Hdis. induction l as [|x l IH]; [done|]. cbn.
  rewrite bool_decide_eq_false_2 by (apply Hdis; left). cbn.
  rewrite IH; [done|]. intros n Hn. apply Hdis. by right.
Qed.

Lemma filter_all (ns : list node) :
  List.filter (λ c, negb (bool_decide (c ∈ ns))) ns = [].
Proof.
  assert (∀ l, (∀ n, n ∈ l → n ∈ ns) →
               List.filter (λ c, negb (bool_decide (c ∈ ns))) l = []) as Hgen.
  { induction l as [|x l IH]; [done|]. intros Hsub. cbn.
    rewrite bool_decide_eq_true_2 by (apply Hsub; left). cbn.
    apply IH. intros n Hn. apply Hsub. by right. }
  by apply Hgen.
Qed.

(** [anchor.before(...fragment)] with nodes that are not in the document. *)
Lemma before_fresh anchor fragment l1 l2 :
  anchor ∉ l1 → (∀ n, n ∈ fragment → n ∉ l1 ++ anchor :: l2) →
  before anchor fragment (l1 ++ anchor :: l2) = l1 ++ fragment ++ anchor :: l2.
Proof.
  intros Hnot Hfresh. unfold before.
  rewrite bool_decide_eq_true_2 by (apply elem_of_app; right; left).
  rewrite filter_disjoint by (intros n Hn Hf; by apply (Hfresh n)).
  by apply insert_before_split.
Qed.

(** Removing the nodes [ns] from a document in which they stand together. *)
Lemma remove_segment (a ns b : list node) :
  NoDup (a ++ ns ++ b) →
  List.filter (λ c, negb (bool_decide (c ∈ ns))) (a ++ ns ++ b) = a ++ b.
Proof.
  intros Hnd. apply NoDup_app in Hnd as (Ha & Hdis & Hnd).
  apply NoDup_app in Hnd as (Hns & Hdis' & Hb).
  rewrite !List.filter_app, filter_all.
  rewrite !filter_disjoint; [done| |].
  - intros n Hn Hin. by apply (Hdis' n).
  - intros n Hn Hin. apply (Hdis n Hn). apply elem_of_app. by left.
Qed.

Lemma NoDup_insert_fresh (a f b : list node) :
  NoDup (a ++ b) → NoDup f → (∀ n, n ∈ f → n ∉ a ++ b) → NoDup (a ++ f ++ b).
Proof.
  intros Hnd Hf Hfresh. apply NoDup_app in Hnd as (Ha & Hdis & Hb).
  apply NoDup_app. split; [done|]. split.
  - intros n Hn [Hin|Hin]%elem_of_app.
    + apply (Hfresh n Hin). apply elem_of_app. by left.
    + by apply (Hdis n Hn).
  - apply NoDup_app. split; [done|]. split; [|done].
    intros n Hn Hin. apply (Hfresh n Hn). apply elem_of_app. by right.
Qed.

Lemma NoDup_remove_segment (a ns b : list node) :
  NoDup (a ++ ns ++ b) → NoDup (a ++ b).
Proof.
  intros Hnd. apply NoDup_app in Hnd as (Ha & Hdis & Hnd).
  apply NoDup_app in Hnd as (Hns & Hdis' & Hb).
  apply NoDup_app. split; [done|]. split; [|done].
  intros n Hn Hin. apply (Hdis n Hn). apply elem_of_app. by right.
Qed.

Lemma indexOf_absent (l : list node) n i : n ∉ l → indexOf l n i = -1.
Proof.
  revert i. induction l as [|x l IH]; intros i Hn; [done|]. cbn.
  apply not_elem_of_cons in Hn as [Hne Hn].
  destruct (Nat.eqb_spec x n) as [->|_]; [done|]. by apply IH.
Qed.

Lemma indexOf_found (l1 l2 : list node) n i :
  n ∉ l1 → indexOf (l1 ++ n :: l2) n i = i + JS.len l1.
Proof.
  revert i. induction l1 as [|x l1 IH]; intros i Hn; cbn.
  { rewrite Nat.eqb_refl. unfold JS.len. cbn. lia. }
  apply not_elem_of_cons in Hn as [Hne Hn].
  destruct (Nat.eqb_spec x n) as [->|_]; [done|]. rewrite IH by done.
  unfold JS.len. cbn [length]. lia.
Qed.

(** X18. [update] on a slot whose tracked nodes stand between its anchors,
    with a fragment of nodes that are not in the document: the fragment is
    inserted before the end anchor, behind the former nodes, and becomes
    the tracked list; the exit callbacks of the former nodes are called and
    their disposal is parked. When the disposal resumes, the nodes between
    the anchors are exactly those of the fragment, in order, and the
    document outside the anchors is as it was. With no exit promise to
    wait for, the disposal can resume at once. *)
Theorem update_replaces_content w pre post fragment :
  region w pre post → suspended w = [] →
  (∀ n, n ∈ fragment → n ∉ dom w) → NoDup fragment →
  let old := nodes (slot w) in
  let start := startAnchor (slot w) in
  let end_ := endAnchor (slot w) in
  let parked := {| awaited := exit_promises w old; nodesToDisposeOf := old |} in
  let w1 := update w fragment in
  dom w1 = pre ++ [start] ++ old ++ fragment ++ [end_] ++ post ∧
  nodes (slot w1) = fragment ∧
  suspended w1 = [parked] ∧
  exited w1 = exited w ++
              List.filter (λ n, bool_decide (is_Some (deferredElements w !! n))) old ∧
  (∀ w2, dom w2 = dom w1 → slot w2 = slot w1 → suspended w2 = suspended w1 →
         region (resume w2 0 parked) pre post ∧
         nodes (slot (resume w2 0 parked)) = fragment ∧
         suspended (resume w2 0 parked) = []) ∧
  (exit_promises w old = [] → step w1 (resume w1 0 parked)).
Proof.
  intros [Hdom Hnd] Hsusp Hfresh Hndf old start end_ parked w1.
  destruct (disposeCurrentNodes_spec w) as (Hn1 & Hd1 & Hs1 & Hde1 & He1 & Hsu1 & Hex1).
  assert (end_ ∉ pre ++ [start] ++ old) as Hend.
  { rewrite Hdom in Hnd.
    replace (pre ++ [startAnchor (slot w)] ++ nodes (slot w) ++ [endAnchor (slot w)] ++ post)
      with ((pre ++ [start] ++ old) ++ end_ :: post) in Hnd
      by (by rewrite <- !app_assoc).
    apply NoDup_app in Hnd as (_ & Hdis & Hnd').
    intros Hin. apply (Hdis _ Hin). by left. }
  assert (dom w1 = pre ++ [start] ++ old ++ fragment ++ [end_] ++ post) as Hdom1.
  { unfold w1, update, track_and_insert. cbn [dom slot endAnchor].
    rewrite He1, Hd1. fold end_. rewrite Hdom.
    replace (pre ++ [startAnchor (slot w)] ++ nodes (slot w) ++ [endAnchor (slot w)] ++ post)
      with ((pre ++ [start] ++ old) ++ end_ :: post) by (by rewrite <- !app_assoc).
    rewrite before_fresh; [by rewrite <- !app_assoc|done|].
    intros n Hn. specialize (Hfresh n Hn). rewrite Hdom in Hfresh.
    by rewrite <- !app_assoc. }
  assert (suspended w1 = [parked]) as Hsusp1.
  { unfold w1, update, track_and_insert. cbn [suspended]. by rewrite Hsu1, Hsusp. }
  assert (NoDup (dom w1)) as Hnd1.
  { rewrite Hdom1. rewrite Hdom in Hnd, Hfresh. fold start end_ old in Hnd, Hfresh.
    replace (pre ++ [start] ++ old ++ fragment ++ [end_] ++ post)
      with ((pre ++ [start] ++ old) ++ fragment ++ ([end_] ++ post))
      by (by rewrite <- !app_assoc).
    apply NoDup_insert_fresh; [by rewrite <- !app_assoc|done|].
    intros n Hn. rewrite <- !app_assoc. by apply Hfresh. }
  split; [done|]. split; [done|]. split; [done|]. split.
  { unfold w1, update, track_and_insert. cbn [exited]. exact Hex1. }
  split.
  - intros w2 Hd2 Hsl2 Hsu2. unfold resume, unpark, region.
    cbn [dom slot suspended nodesToDisposeOf parked].
    rewrite Hd2, Hsl2, Hsu2, Hsusp1, Hdom1.
    assert (List.filter (λ c, negb (bool_decide (c ∈ old)))
              (pre ++ [start] ++ old ++ fragment ++ [end_] ++ post) =
            pre ++ [start] ++ fragment ++ [end_] ++ post) as Hrem.
    { replace (pre ++ [start] ++ old ++ fragment ++ [end_] ++ post)
        with ((pre ++ [start]) ++ old ++ (fragment ++ [end_] ++ post))
        by (by rewrite <- !app_assoc).
      rewrite remove_segment; [by rewrite <- !app_assoc|].
      rewrite Hdom1 in Hnd1. by rewrite <- !app_assoc. }
    rewrite Hrem. split; [|by split]. split.
    + unfold w1, update, track_and_insert. cbn [slot startAnchor endAnchor nodes].
      rewrite He1. unfold _disposeCurrentNodes, _disposeNodes, untrack. cbn. done.
    + rewrite Hdom1 in Hnd1.
      replace (pre ++ [start] ++ old ++ fragment ++ [end_] ++ post)
        with ((pre ++ [start]) ++ old ++ (fragment ++ [end_] ++ post)) in Hnd1
        by (by rewrite <- !app_assoc).
      apply NoDup_remove_segment in Hnd1. by rewrite <- !app_assoc in Hnd1.
  - intros Hnone. apply step_resume.
    + by rewrite Hsusp1.
    + unfold all_fulfilled. cbn [awaited parked]. by rewrite Hnone.
Qed.


(** X19. [replaceItem(node, ...newNodes)] throws when the node is not
    tracked. On a tracked node, with new nodes that are not in the
    document, the new nodes are inserted before it, take its place in the
    tracked list, and its disposal is parked; when the disposal resumes,
    the nodes between the anchors are the tracked list again and the
    document outside the anchors is as it was. *)
Theorem replaceItem_replaces w n newNodes :
  (n ∉ nodes (slot w) → replaceItem w n newNodes = None) ∧
  (∀ pre post t1 t2,
     region w pre post → nodes (slot w) = t1 ++ [n] ++ t2 → suspended w = [] →
     (∀ m, m ∈ newNodes → m ∉ dom w) → NoDup newNodes →
     let start := startAnchor (slot w) in
     let end_ := endAnchor (slot w) in
     let parked := {| awaited := exit_promises w [n]; nodesToDisposeOf := [n] |} in
     ∃ w1,
       replaceItem w n newNodes = Some w1 ∧
       dom w1 = pre ++ [start] ++ t1 ++ newNodes ++ [n] ++ t2 ++ [end_] ++ post ∧
       nodes (slot w1) = t1 ++ newNodes ++ t2 ∧
       suspended w1 = [parked] ∧
       (∀ w2, dom w2 = dom w1 → slot w2 = slot w1 → suspended w2 = suspended w1 →
              region (resume w2 0 parked) pre post ∧
              nodes (slot (resume w2 0 parked)) = t1 ++ newNodes ++ t2 ∧
              suspended (resume w2 0 parked) = [])).
Proof.
  split.
  { intros Hn. unfold replaceItem. by rewrite indexOf_absent. }
  intros pre post t1 t2 [Hdom Hnd] Hnodes Hsusp Hfresh Hndf start end_ parked.
  rewrite Hnodes in Hdom. fold start end_ in Hdom.
  assert (dom w = (pre ++ [start] ++ t1) ++ n :: (t2 ++ [end_] ++ post)) as Hdom'.
  { rewrite Hdom. by rewrite <- !app_assoc. }
  assert (n ∉ pre ++ [start] ++ t1) as Hn.
  { rewrite Hdom' in Hnd. apply NoDup_app in Hnd as (_ & Hdis & Hnd).
    intros Hin. apply (Hdis n Hin). by left. }
  assert (n ∉ t1) as Hn1.
  { intros Hin. apply Hn. do 2 (apply elem_of_app; right). done. }
  unfold replaceItem. rewrite Hnodes. cbn [app].
  rewrite indexOf_found by done. rewrite Z.add_0_l.
  destruct (Z.ltb_spec (JS.len t1) 0) as [Hneg|_];
    [pose proof (len_nonneg t1); lia|].
  eexists. split; [reflexivity|].
  cbn [dom slot suspended _disposeNodes nodes startAnchor endAnchor].
  rewrite Hnodes.
  pose proof (splice_middle t1 [n] t2 newNodes) as Hsp.
  change (JS.len [n]) with 1 in Hsp. rewrite Hsp. cbn [fst].
  assert (before n newNodes (dom w) =
          pre ++ [start] ++ t1 ++ newNodes ++ [n] ++ t2 ++ [end_] ++ post) as Hbefore.
  { rewrite Hdom'. rewrite before_fresh; [by rewrite <- !app_assoc|done|].
    intros m Hm. rewrite <- Hdom'. by apply Hfresh. }
  rewrite Hbefore, Hsusp. split; [done|]. split; [done|]. split.
  { unfold exit_promises. done. }
  intros w2 Hd2 Hsl2 Hsu2. unfold resume, unpark, region.
  cbn [dom slot suspended nodesToDisposeOf parked nodes startAnchor endAnchor] in *.
  rewrite Hd2, Hsl2, Hsu2. cbn [nodes startAnchor endAnchor delete].
  assert (NoDup (pre ++ [start] ++ t1 ++ newNodes ++ [n] ++ t2 ++ [end_] ++ post)) as Hall.
  { replace (pre ++ [start] ++ t1 ++ newNodes ++ [n] ++ t2 ++ [end_] ++ post)
      with ((pre ++ [start] ++ t1) ++ newNodes ++ ([n] ++ t2 ++ [end_] ++ post))
      by (by rewrite <- !app_assoc).
    apply NoDup_insert_fresh; [rewrite Hdom' in Hnd; exact Hnd|done|].
    intros m Hm Hin. apply (Hfresh m Hm). rewrite Hdom'. exact Hin. }
  replace (pre ++ [start] ++ t1 ++ newNodes ++ [n] ++ t2 ++ [end_] ++ post)
    with ((pre ++ [start] ++ t1 ++ newNodes) ++ [n] ++ (t2 ++ [end_] ++ post)) in *
    by (by rewrite <- !app_assoc).
  rewrite remove_segment by done.
  split; [|by split]. split.
  - by rewrite <- !app_assoc.
  - by apply NoDup_remove_segment in Hall.
Qed.

(** *** The slot with one tracked node, updated with two new nodes *)

Lemma update_replaces_content_witness :
  let w := one_node_world in
  let fragment := [11%nat; 12%nat] in
  let old := nodes (slot w) in
  let parked := {| awaited := exit_promises w old; nodesToDisposeOf := old |} in
  let w1 := update w fragment in
  dom w1 = [] ++ [1%nat] ++ old ++ fragment ++ [2%nat] ++ [] ∧
  nodes (slot w1) = fragment ∧
  suspended w1 = [parked] ∧
  exited w1 = exited w ++
              List.filter (λ n, bool_decide (is_Some (deferredElements w !! n))) old ∧
  (∀ w2, dom w2 = dom w1 → slot w2 = slot w1 → suspended w2 = suspended w1 →
         region (resume w2 0 parked) [] [] ∧
         nodes (slot (resume w2 0 parked)) = fragment ∧
         suspended (resume w2 0 parked) = []) ∧
  (exit_promises w old = [] → step w1 (resume w1 0 parked)).
Proof.
  cbn zeta.
  apply (update_replaces_content one_node_world [] [] [11%nat; 12%nat]).
  - split; [reflexivity|].
    apply (bool_decide_unpack (NoDup [1; 10; 2]%nat)). by vm_compute.
  - reflexivity.
  - intros n Hn.
    apply elem_of_cons in Hn as [->|Hn];
      [apply (bool_decide_unpack (11%nat ∉ [1; 10; 2]%nat)); by vm_compute|].
    apply elem_of_cons in Hn as [->|Hn];
      [apply (bool_decide_unpack (12%nat ∉ [1; 10; 2]%nat)); by vm_compute|].
    by apply elem_of_nil in Hn.
  - apply (bool_decide_unpack (NoDup [11; 12]%nat)). by vm_compute.
Defined.

End RegionFacts.


(** ** Names of components and attributes *)

Module NamesFacts.
Import Stdlib.Strings.Ascii Names.

Lemma upper_lower_char c :
  is_upper c = true →
  is_lower (toLowerCase_char c) = true ∧
  toUpperCase_char (toLowerCase_char c) = c ∧
  is_upper (toLowerCase_char c) = false ∧
  toLowerCase_char c ≠ "-"%char.
Proof.
  intros Hu. unfold toLowerCase_char. rewrite Hu.
  unfold is_upper in Hu. apply andb_true_iff in Hu as [H1 H2].
  apply Nat.leb_le in H1, H2.
  assert (nat_of_ascii (ascii_of_nat (nat_of_ascii c + 32)) = (nat_of_ascii c + 32)%nat)
    as Hn by (apply nat_ascii_embedding; lia).
  unfold is_lower, is_upper, toUpperCase_char, is_lower. rewrite !Hn.
  repeat split.
  - apply andb_true_iff. split; apply Nat.leb_le; lia.
  - replace ((97 <=? nat_of_ascii c + 32)%nat && (nat_of_ascii c + 32 <=? 122)%nat)
      with true by (symmetry; apply andb_true_iff; split; apply Nat.leb_le; lia).
    replace (nat_of_ascii c + 32 - 32)%nat with (nat_of_ascii c) by lia.
    apply ascii_nat_embedding.
  - apply andb_false_iff. right. apply Nat.leb_gt. lia.
  - intros Heq. apply (f_equal nat_of_ascii) in Heq. rewrite Hn in Heq.
    change (nat_of_ascii "-"%char) with 45%nat in Heq. lia.
Qed.

Lemma not_upper_lower_char c : is_upper c = false → toLowerCase_char c = c.
Proof. intros Hu. unfold toLowerCase_char. by rewrite Hu. Qed.

Lemma kebabToCamel_dashed (s : string) :
  "-"%char ∉ chars s →
  kebabToCamel (toLowerCase (dash_capitals s)) = s.
Proof.
  induction s as [|c s IH]; [done|]. cbn [chars]. intros [Hne Hs]%not_elem_of_cons.
  cbn [dash_capitals]. destruct (is_upper c) eqn:Eu.
  - destruct (upper_lower_char c Eu) as (Hl & Hback & _).
    cbn [toLowerCase kebabToCamel]. rewrite Hl, Hback, IH by done. done.
  - cbn [toLowerCase kebabToCamel]. rewrite (not_upper_lower_char c Eu).
    destruct (Ascii.eqb_spec c "-"%char) as [->|_]; [done|]. by rewrite IH.
Qed.

Lemma toLowerCase_no_capital (s : string) c :
  c ∈ chars (toLowerCase s) → is_upper c = false.
Proof.
  induction s as [|x s IH]; cbn; [by intros ?%elem_of_nil|].
  intros [->|Hin]%elem_of_cons; [|by apply IH].
  destruct (is_upper x) eqn:Eu.
  - by destruct (upper_lower_char x Eu) as (_ & _ & ? & _).
  - by rewrite not_upper_lower_char.
Qed.

(** X20. On ASCII names, [pascalToKebab] returns a name without capital
    letters; on a name without ["-"], [kebabToCamel] changes nothing and
    [kebabToCamel(pascalToKebab(name))] is the name with its first letter
    in lower case. *)
Theorem kebab_and_camel_names (s : string) :
  (∀ c, c ∈ chars (pascalToKebab s) → is_upper c = false) ∧
  ("-"%char ∉ chars s →
   kebabToCamel s = s ∧
   kebabToCamel (pascalToKebab s) =
     match s with
     | EmptyString => EmptyString
     | String c rest => String (toLowerCase_char c) rest
     end).
Proof.
  split; [intros c; apply toLowerCase_no_capital|].
  intros Hs. split.
  - induction s as [|c s IH]; [done|]. cbn [chars] in Hs.
    apply not_elem_of_cons in Hs as [Hne Hs]. cbn.
    destruct (Ascii.eqb_spec c "-"%char) as [->|_]; [done|]. by rewrite IH.
  - destruct s as [|c s]; [done|]. cbn [chars] in Hs.
    apply not_elem_of_cons in Hs as [Hne Hs].
    unfold pascalToKebab. cbn [toLowerCase kebabToCamel].
    rewrite kebabToCamel_dashed by done.
    destruct (Ascii.eqb_spec (toLowerCase_char c) "-"%char) as [Heq|_]; [|done].
    exfalso. destruct (is_upper c) eqn:Eu.
    + by destruct (upper_lower_char c Eu) as (_ & _ & _ & ?).
    + rewrite not_upper_lower_char in Heq by done. by subst.
Qed.

End NamesFacts.


(** ** Component ids *)

Module IdsFacts.
Import Ids.

Lemma idEncoder_mod seed :
  0 ≤ seed → idEncoder seed = (seed * 387420489) mod 2 ^ 20.
Proof.
  intros Hs. unfold idEncoder, pseudoRandomEncode. apply Z.rem_mod_nonneg; lia.
Qed.

Lemma idEncoder_injective a b :
  0 ≤ a < 2 ^ 20 → 0 ≤ b < 2 ^ 20 → idEncoder a = idEncoder b → a = b.
Proof.
  intros Ha Hb. rewrite !idEncoder_mod by lia. intros Heq.
  assert ((2 ^ 20 | (a - b) * 387420489)) as Hdiv.
  { apply Z.mod_divide; [lia|].
    rewrite Z.mul_sub_distr_r, Zminus_mod, Heq, Z.sub_diag. done. }
  rewrite Z.mul_comm in Hdiv. apply Z.gauss in Hdiv; [|reflexivity].
  destruct Hdiv as [k Hk]. nia.
Qed.

Lemma first_ids_spec n i :
  first_ids n i = map (λ k, idEncoder (i + 1 + Z.of_nat k)) (seq 0 n).
Proof.
  revert i. induction n as [|n IH]; intros i; [done|].
  cbn [first_ids next_id]. rewrite IH. cbn [seq map]. rewrite Z.add_0_r. f_equal.
  rewrite <- seq_shift, map_map. apply map_ext. intros k. f_equal. lia.
Qed.

(** X21. The numbers behind the first [n] ids of a session, for [n] below
    [2^20], are pairwise different and none is [0]; the call number [2^20]
    yields [0], and the next one repeats the first id. *)
Theorem first_ids_unique n :
  (Z.of_nat n < 2 ^ 20) →
  NoDup (first_ids n 0) ∧ (0 ∉ first_ids n 0) ∧
  idEncoder (2 ^ 20) = 0 ∧ idEncoder (2 ^ 20 + 1) = idEncoder 1.
Proof.
  intros Hn. rewrite first_ids_spec. split; [|split; [|split; reflexivity]].
  - apply NoDup_fmap_2_strong; [|apply NoDup_seq].
    intros j k Hj Hk Heq. apply elem_of_seq in Hj, Hk.
    apply idEncoder_injective in Heq; lia.
  - intros Hin. apply list_elem_of_fmap in Hin as (k & Hk & Hin).
    apply elem_of_seq in Hin.
    assert (idEncoder (0 + 1 + Z.of_nat k) = idEncoder 0) as Heq by (by rewrite <- Hk).
    apply idEncoder_injective in Heq; lia.
Qed.

(** *** The first three ids *)

Lemma first_ids_unique_witness :
  NoDup (first_ids 3 0) ∧ (0 ∉ first_ids 3 0) ∧
  idEncoder (2 ^ 20) = 0 ∧ idEncoder (2 ^ 20 + 1) = idEncoder 1.
Proof.
  apply (first_ids_unique 3). by vm_compute.
Defined.

End IdsFacts.


(** ** The week flag *)

Module WeeksFacts.
Import Weeks.

(** X22. [toggleWeek()] within one week returns the negation of
    [isNoClockInWeek()] and makes [isNoClockInWeek()] return it; a second
    [toggleWeek()] returns and restores the former answer. No other key of
    the storage changes, and the storage is as before when the week's key
    was absent or held ["1"]. *)
Theorem toggleWeek_round_trip (weekId : string) (s : Storage) :
  let s1 := fst (toggleWeek weekId weekId s) in
  let s2 := fst (toggleWeek weekId weekId s1) in
  snd (toggleWeek weekId weekId s) = negb (isNoClockInWeek weekId s) ∧
  isNoClockInWeek weekId s1 = negb (isNoClockInWeek weekId s) ∧
  snd (toggleWeek weekId weekId s1) = isNoClockInWeek weekId s ∧
  isNoClockInWeek weekId s2 = isNoClockInWeek weekId s ∧
  (∀ k, k ≠ weekId → s1 !! k = s !! k ∧ s2 !! k = s !! k) ∧
  (s !! weekId = None ∨ s !! weekId = Some "1"%string → s2 = s).
Proof.
  cbn zeta. unfold toggleWeek. cbn [fst snd].
  assert (∀ t : Storage, isNoClockInWeek weekId (<[weekId := "1"%string]> t) = true) as Hset.
  { intros t. unfold isNoClockInWeek. by rewrite lookup_insert_eq. }
  assert (∀ t : Storage, isNoClockInWeek weekId (delete weekId t) = false) as Hdel.
  { intros t. unfold isNoClockInWeek. by rewrite lookup_delete_eq. }
  destruct (isNoClockInWeek weekId s) eqn:E; cbn [negb].
  - rewrite Hdel. cbn [negb]. rewrite Hset. repeat split; try done.
    + by rewrite lookup_delete_ne.
    + rewrite lookup_insert_ne by done. by rewrite lookup_delete_ne.
    + intros [Hnone|Hone].
      * unfold isNoClockInWeek in E. by rewrite Hnone in E.
      * rewrite insert_delete_eq. by apply insert_id.
  - rewrite Hset. cbn [negb]. rewrite Hdel. repeat split; try done.
    + by rewrite lookup_insert_ne.
    + rewrite lookup_delete_ne by done. by rewrite lookup_insert_ne.
    + intros [Hnone|Hone].
      * rewrite delete_insert_eq. by apply delete_id.
      * unfold isNoClockInWeek in E. by rewrite Hone in E.
Qed.

End WeeksFacts.
